(** * Multi-threaded Huffman file compression tool: model and verification

    Shallow embedding of [MultiThreadedFileCompressionTool.cpp].

    Conventions of the embedding
    - [char] is an 8-bit character, modelled by [ascii]; [std::string] is
      [list ascii].
    - [int] is a 32-bit two's complement integer and [size_t] a 64-bit unsigned
      integer (LP64).  Values are carried in [Z]; a conversion [size_t -> int]
      wraps, signed overflow has no defined result.
    - A computation whose C++ behaviour is undefined (null dereference,
      [top()] of an empty queue, signed overflow, out-of-range indexing,
      reading past the end of a stream into an uninitialised variable) or that
      terminates the program returns [None].
    - [unordered_map<char,V>] is [gmap ascii V]; the order in which a
      range-for visits its entries is a parameter of the development.
    - [std::priority_queue] is an interface ([PriorityQueue]) whose laws are
      those the C++ standard gives: [top] is an element no other element is
      smaller than, ties are broken by the implementation. *)

From stdpp Require Import gmap strings list fin_maps.
From Stdlib Require Import ZArith Lia Ascii.

Local Open Scope Z_scope.

(** ** Machine integers *)

Module Int.

Definition INT_MIN : Z := - 2 ^ 31.
Definition INT_MAX : Z := 2 ^ 31 - 1.
Definition SIZE_MOD : Z := 2 ^ 64.

Definition in_range (z : Z) : bool :=
  bool_decide (INT_MIN ≤ z ≤ INT_MAX).

(** Conversion of a [size_t] (or any integer) value to [int]: modulo 2^32,
    read as a signed number. *)
Definition of_size (z : Z) : Z := (z + 2 ^ 31) `mod` 2 ^ 32 - 2 ^ 31.

(** Conversion of an [int] to [size_t]. *)
Definition to_size (z : Z) : Z := z `mod` SIZE_MOD.

(** Signed arithmetic: no result on overflow. *)
Definition checked (z : Z) : option Z :=
  if in_range z then Some z else None.
Definition add (a b : Z) : option Z := checked (a + b).
Definition sub (a b : Z) : option Z := checked (a - b).
Definition mul (a b : Z) : option Z := checked (a * b).

(** [size / threadCount] where [size : size_t] and [threadCount : int]: the
    divisor is converted to [size_t]; division by zero has no result. *)
Definition size_div (size threadCount : Z) : option Z :=
  let d := to_size threadCount in
  if bool_decide (d = 0) then None else Some (size `div` d).

End Int.

(** ** Strings *)

(** [data[i]] on a [const std::string&] with an [int] index: defined for
    [0 <= i <= size()], the position [size()] holding the terminator. *)
Definition string_at (data : list ascii) (i : Z) : option ascii :=
  if bool_decide (i < 0) then None
  else if bool_decide (i = Z.of_nat (length data)) then Some "000"%char
  else data !! Z.to_nat i.

(** ** Frequency counting *)

(** [m[ch]++] on an [unordered_map<char,int>]: a missing key is first inserted
    with value 0. *)
Definition increment (m : gmap ascii Z) (ch : ascii) : option (gmap ascii Z) :=
  v ← Int.add (default 0 (m !! ch)) 1; Some (<[ch := v]> m).

(** [globalMap[k] += v]. *)
Definition add_to (m : gmap ascii Z) (kv : ascii * Z) : option (gmap ascii Z) :=
  v ← Int.add (default 0 (m !! kv.1)) kv.2; Some (<[kv.1 := v]> m).

(** [countFrequencySingle]: [for (char ch : data) freqMap[ch]++]. *)
Fixpoint countFrequencySingle (data : list ascii) (freqMap : gmap ascii Z)
  : option (gmap ascii Z) :=
  match data with
  | [] => Some freqMap
  | ch :: rest => m ← increment freqMap ch; countFrequencySingle rest m
  end.

(** The counting loop of [countFrequencyThread],
    [for (int i = begin; i < finish; ++i) localMap[data[i]]++],
    with [n] the number of iterations left. *)
Fixpoint count_loop (n : nat) (data : list ascii) (i : Z) (localMap : gmap ascii Z)
  : option (gmap ascii Z) :=
  match n with
  | O => Some localMap
  | S n' =>
      ch ← string_at data i;
      m ← increment localMap ch;
      count_loop n' data (i + 1) m
  end.

(** The merge loop [for (auto& pair : localMap) globalMap[pair.first] += pair.second]
    over the entries in the order the map yields them. *)
Fixpoint merge_loop (entries : list (ascii * Z)) (globalMap : gmap ascii Z)
  : option (gmap ascii Z) :=
  match entries with
  | [] => Some globalMap
  | kv :: rest => m ← add_to globalMap kv; merge_loop rest m
  end.

(** The arguments [startIdx], [endIdx] that the spawning loops give worker [i]
    (lines 137-138 and, with the same expressions, lines 208-209).  The
    conditional has type [size_t]; its value is converted to [int]. *)
Definition worker_range (size threadCount slice i : Z) : option (Z * Z) :=
  startIdx ← Int.mul i slice;
  last ← Int.sub threadCount 1;
  endIdx ← (if bool_decide (i = last) then Some (Int.of_size size)
            else Int.add startIdx slice);
  Some (startIdx, endIdx).

(** The indices [0 .. threadCount-1] of the spawning loop
    [for (int i = 0; i < threadCount; ++i)]. *)
Definition worker_ids (threadCount : Z) : list nat := seq 0 (Z.to_nat threadCount).

(** A schedule of the workers: the order in which they take [frequencyMutex];
    every worker takes it once. *)
Definition schedule (threadCount : Z) (sched : list nat) : Prop :=
  sched ≡ₚ worker_ids threadCount.

(** [countFrequencyThread], given the order in which the range-for visits the
    entries of [localMap].  The local pass touches no shared state and the
    merge runs under [frequencyMutex], so a worker acts on the global map as
    one atomic step: the function from the global map it finds to the one it
    leaves. *)
Definition countFrequencyThread (order : gmap ascii Z → list (ascii * Z))
    (data : list ascii) (globalMap : gmap ascii Z) (begin finish : Z)
  : option (gmap ascii Z) :=
  localMap ← count_loop (Z.to_nat (finish - begin)) data begin ∅;
  merge_loop (order localMap) globalMap.

(** An iteration order is right when it visits every entry once. *)
Definition visits_entries (iterate : nat → gmap ascii Z → list (ascii * Z)) : Prop :=
  ∀ id m, iterate id m ≡ₚ map_to_list m.

(** The order of the keys, which is one right iteration order. *)
Definition key_order : nat → gmap ascii Z → list (ascii * Z) := λ _, map_to_list.

Section Counting.

(** Iteration orders of the [unordered_map<char,int>] objects of a run:
    [iterate 0] for [freqMapMT], [iterate (S i)] for the [localMap] of worker
    [i].  Each object is iterated once, in an order the implementation
    derives from its state. *)
Variable iterate : nat → gmap ascii Z → list (ascii * Z).

(** The workers, run in the order [sched] in which they take the mutex. *)
Fixpoint run_workers (data : list ascii) (threadCount slice : Z)
    (sched : list nat) (globalMap : gmap ascii Z) : option (gmap ascii Z) :=
  match sched with
  | [] => Some globalMap
  | i :: rest =>
      r ← worker_range (Z.of_nat (length data)) threadCount slice (Z.of_nat i);
      m ← countFrequencyThread (iterate (S i)) data globalMap r.1 r.2;
      run_workers data threadCount slice rest m
  end.

(** The multi-threaded count of [compressDataFile] (lines 131-141):
    [freqMapMT] once all workers are joined. *)
Definition countFrequencyParallel (data : list ascii) (threadCount : Z)
    (sched : list nat) : option (gmap ascii Z) :=
  slice ← Int.size_div (Z.of_nat (length data)) threadCount;
  run_workers data threadCount (Int.of_size slice) sched ∅.

End Counting.

(** ** Huffman tree *)

(** A value of type [HuffmanNode*]: the null pointer, or a node with its four
    fields.  The trees of the program are finite and unshared, so a pointer is
    modelled by the tree it points to. *)
Inductive HuffmanNode : Type :=
| Null
| Node (character : ascii) (frequency : Z) (leftChild rightChild : HuffmanNode).

(** The test [!node->leftChild && !node->rightChild]. *)
Definition is_leaf (leftChild rightChild : HuffmanNode) : bool :=
  match leftChild, rightChild with
  | Null, Null => true
  | _, _ => false
  end.

(** [node->frequency], read where the pointer is known not to be null. *)
Definition frequency_of (node : HuffmanNode) : Z :=
  match node with
  | Null => 0
  | Node _ f _ _ => f
  end.

(** [HuffmanCompare::operator()]. *)
Definition HuffmanCompare (a b : HuffmanNode) : bool :=
  bool_decide (frequency_of a > frequency_of b).

(** ** Code table *)

(** [createHuffmanCodes]: the code map after the call. *)
Fixpoint createHuffmanCodes (rootNode : HuffmanNode) (currCode : list ascii)
    (codeMap : gmap ascii (list ascii)) : gmap ascii (list ascii) :=
  match rootNode with
  | Null => codeMap
  | Node ch _ l r =>
      let codeMap1 := if is_leaf l r then <[ch := currCode]> codeMap else codeMap in
      let codeMap2 := createHuffmanCodes l (currCode ++ ["0"%char]) codeMap1 in
      createHuffmanCodes r (currCode ++ ["1"%char]) codeMap2
  end.

(** [codeTable[ch]]: a missing key yields the empty string (and is inserted
    with it, which changes no later lookup). *)
Definition code_of (codeTable : gmap ascii (list ascii)) (ch : ascii) : list ascii :=
  default [] (codeTable !! ch).

(** [huffmanEncode]: [for (char ch : data) encoded += codeTable[ch]]. *)
Definition huffmanEncode (data : list ascii) (codeTable : gmap ascii (list ascii))
  : list ascii :=
  foldl (λ encoded ch, encoded ++ code_of codeTable ch) [] data.

(** ** Decoding *)

(** One iteration of the decoding loops (lines 70-74 and 111-115) on the
    state [(currNode, result)]. *)
Definition decode_step (rootNode : HuffmanNode) (st : HuffmanNode * list ascii)
    (bit : ascii) : option (HuffmanNode * list ascii) :=
  match st.1 with
  | Null => None
  | Node _ _ l r =>
      match (if bool_decide (bit = "0"%char) then l else r) with
      | Null => None
      | Node ch f l' r' =>
          if is_leaf l' r' then Some (rootNode, st.2 ++ [ch])
          else Some (Node ch f l' r', st.2)
      end
  end.

(** The loop [for (char bit : encodedText)] of [huffmanDecode]. *)
Fixpoint decode_loop (rootNode : HuffmanNode) (encodedText : list ascii)
    (st : HuffmanNode * list ascii) : option (HuffmanNode * list ascii) :=
  match encodedText with
  | [] => Some st
  | bit :: rest => st' ← decode_step rootNode st bit; decode_loop rootNode rest st'
  end.

(** [huffmanDecode]. *)
Definition huffmanDecode (rootNode : HuffmanNode) (encodedText : list ascii)
  : option (list ascii) :=
  st ← decode_loop rootNode encodedText (rootNode, []); Some st.2.

(** The loop [for (int i = begin; i < finish; ++i)] of [threadedDecode], with
    [n] the number of iterations left. *)
Fixpoint threaded_loop (n : nat) (encoded : list ascii) (rootNode : HuffmanNode)
    (i : Z) (st : HuffmanNode * list ascii) : option (HuffmanNode * list ascii) :=
  match n with
  | O => Some st
  | S n' =>
      bit ← string_at encoded i;
      st' ← decode_step rootNode st bit;
      threaded_loop n' encoded rootNode (i + 1) st'
  end.

(** [threadedDecode]: the value stored in [resultSegment]. *)
Definition threadedDecode (encoded : list ascii) (rootNode : HuffmanNode)
    (begin finish : Z) : option (list ascii) :=
  st ← threaded_loop (Z.to_nat (finish - begin)) encoded rootNode begin (rootNode, []);
  Some st.2.

(** ** Tree serialisation *)

(** [writeHuffmanTree]: the characters appended to the output stream. *)
Fixpoint writeHuffmanTree (rootNode : HuffmanNode) : list ascii :=
  match rootNode with
  | Null => []
  | Node ch _ l r =>
      (if is_leaf l r then ["1"%char; ch] else ["0"%char])
        ++ writeHuffmanTree l ++ writeHuffmanTree r
  end.

(** [readHuffmanTree] on the unread part of the stream: the node built and
    what is left unread.  Extraction from an exhausted stream leaves the
    variable uninitialised.  [fuel] bounds the recursion depth. *)
Fixpoint readHuffmanTree_fuel (fuel : nat) (inFile : list ascii)
  : option (HuffmanNode * list ascii) :=
  match fuel with
  | O => None
  | S fuel' =>
      match inFile with
      | [] => None
      | marker :: rest =>
          if bool_decide (marker = "1"%char) then
            match rest with
            | [] => None
            | character :: rest' => Some (Node character 0 Null Null, rest')
            end
          else
            l ← readHuffmanTree_fuel fuel' rest;
            r ← readHuffmanTree_fuel fuel' l.2;
            Some (Node "000"%char 0 l.1 r.1, r.2)
      end
  end.

(** Every call reads a character before it recurses, so the depth never
    exceeds the number of unread characters. *)
Definition readHuffmanTree (inFile : list ascii) : option (HuffmanNode * list ascii) :=
  readHuffmanTree_fuel (S (length inFile)) inFile.

(** ** Priority queue *)

(** [std::priority_queue<HuffmanNode*, vector<HuffmanNode*>, HuffmanCompare>]:
    [top] is an element that [HuffmanCompare] puts before no other, [pop]
    removes it; which of several such elements is on top is up to the
    implementation.  [pq_top] is [None] on an empty queue. *)
Class PriorityQueue := {
  pq : Type;
  pq_new : pq;
  pq_push : HuffmanNode → pq → pq;
  pq_top : pq → option HuffmanNode;
  pq_pop : pq → pq;
  pq_size : pq → nat;
  pq_elements : pq → list HuffmanNode;
  pq_new_spec : pq_elements pq_new = [];
  pq_push_spec x q : pq_elements (pq_push x q) ≡ₚ x :: pq_elements q;
  pq_size_spec q : pq_size q = length (pq_elements q);
  pq_top_spec q :
    match pq_top q with
    | None => pq_elements q = []
    | Some x =>
        x :: pq_elements (pq_pop q) ≡ₚ pq_elements q
        ∧ Forall (λ y, HuffmanCompare x y = false) (pq_elements q)
    end
}.

(** ** Pipelines *)

(** The characters ['\n'] and ['\0']. *)
Definition newline : ascii := "010"%char.
Definition nul : ascii := "000"%char.

Section Pipeline.

Context {PQ : PriorityQueue}.
Variable iterate : nat → gmap ascii Z → list (ascii * Z).

(** Lines 157-158: one leaf per entry of the frequency map. *)
Definition push_leaves (freqMap : gmap ascii Z) : pq :=
  foldl (λ q pair, pq_push (Node pair.1 pair.2 Null Null) q) pq_new (iterate 0%nat freqMap).

(** Lines 159-165: [while (minHeap.size() > 1) ...].  Each iteration shrinks
    the queue by one; [fuel] bounds the number of iterations. *)
Fixpoint merge_nodes (fuel : nat) (minHeap : pq) : option pq :=
  if bool_decide (pq_size minHeap ≤ 1)%nat then Some minHeap
  else
    match fuel with
    | O => None
    | S fuel' =>
        left ← pq_top minHeap;
        right ← pq_top (pq_pop minHeap);
        match left, right with
        | Node _ fl _ _, Node _ fr _ _ =>
            f ← Int.add fl fr;
            merge_nodes fuel' (pq_push (Node nul f left right) (pq_pop (pq_pop minHeap)))
        | _, _ => None
        end
    end.

(** Lines 156-167: the root of the Huffman tree. *)
Definition buildHuffmanTree (freqMap : gmap ascii Z) : option HuffmanNode :=
  let minHeap := push_leaves freqMap in
  minHeap' ← merge_nodes (pq_size minHeap) minHeap;
  pq_top minHeap'.

(** [compressDataFile] on the contents of the source file: the contents of the
    target file. *)
Definition compressDataFile (fileData : list ascii) (threadCount : Z)
    (sched : list nat) : option (list ascii) :=
  freqMapMT ← countFrequencyParallel iterate fileData threadCount sched;
  freqMapST ← countFrequencySingle fileData ∅;
  root ← buildHuffmanTree freqMapMT;
  let codeDict := createHuffmanCodes root [] ∅ in
  let encodedBinary := huffmanEncode fileData codeDict in
  Some (writeHuffmanTree root ++ newline :: encodedBinary).

End Pipeline.

(** The decoding workers of [decompressDataFile] (lines 207-211). *)
Definition decode_worker (binaryData : list ascii) (root : HuffmanNode)
    (threadCount slice : Z) (i : nat) : option (list ascii) :=
  r ← worker_range (Z.of_nat (length binaryData)) threadCount slice (Z.of_nat i);
  threadedDecode binaryData root r.1 r.2.

(** [decompressDataFile] on the contents of the compressed file: the contents
    of the target file.  [vector<string> segments(threadCount)] throws for a
    negative count.  The workers share only the tree and the payload, which
    they read, and each writes its own segment: their interleaving does not
    matter. *)
Definition decompressDataFile (artifact : list ascii) (threadCount : Z)
  : option (list ascii) :=
  t ← readHuffmanTree artifact;
  let root := t.1 in
  let binaryData := tail t.2 in
  decodedST ← huffmanDecode root binaryData;
  slice ← Int.size_div (Z.of_nat (length binaryData)) threadCount;
  if bool_decide (threadCount < 0) then None
  else
    segments ← mapM (decode_worker binaryData root threadCount (Int.of_size slice))
                    (worker_ids threadCount);
    Some (concat segments).

(** ** Specification-level notions *)

(** *** Buffers and slices *)

(** Number of occurrences of a character in a buffer. *)
Definition occurrences (c : ascii) (data : list ascii) : nat :=
  length (filter (λ x, x = c) data).

(** The frequency table of a buffer, added to a given table, without the
    machine-integer checks. *)
Definition tally (data : list ascii) (m : gmap ascii Z) : gmap ascii Z :=
  foldl (λ m c, <[c := default 0 (m !! c) + 1]> m) m data.

(** The characters [data[b..e)]. *)
Definition segment (data : list ascii) (b e : Z) : list ascii :=
  take (Z.to_nat (e - b)) (drop (Z.to_nat b) data).

(** The slice of worker [i]. *)
Definition worker_segment (data : list ascii) (w s : Z) (i : nat) : list ascii :=
  segment data (Z.of_nat i * s)
    (if bool_decide (Z.of_nat i = w - 1) then Z.of_nat (length data)
     else Z.of_nat i * s + s).

(** The ranges [(startIdx, endIdx)] of the [threadCount] workers on a string
    of [size] characters, when no index overflows. *)
Definition worker_ranges (size threadCount : Z) : list (Z * Z) :=
  (λ i : nat,
     (Z.of_nat i * (size `div` threadCount),
      if bool_decide (Z.of_nat i = threadCount - 1) then size
      else Z.of_nat i * (size `div` threadCount) + size `div` threadCount))
    <$> worker_ids threadCount.

(** A buffer of 2^31 bytes: 2^30 times 'a', then 2^30 times 'b'. *)
Definition two_gib_buffer : list ascii :=
  replicate (Z.to_nat (2 ^ 30)) "a"%char ++ replicate (Z.to_nat (2 ^ 30)) "b"%char.

(** The 256 values of a byte. *)
Definition all_chars : list ascii := ascii_of_nat <$> seq 0 256.

(** *** Trees *)

(** Strict binary trees: not null, and every node has no child or two. *)
Fixpoint strict (t : HuffmanNode) : bool :=
  match t with
  | Null => false
  | Node _ _ l r => is_leaf l r || (strict l && strict r)
  end.

(** The root is a node with at least one child. *)
Definition internal (t : HuffmanNode) : bool :=
  match t with
  | Null => false
  | Node _ _ l r => negb (is_leaf l r)
  end.

(** Number of nodes on the longest path from the root down. *)
Fixpoint height (t : HuffmanNode) : nat :=
  match t with
  | Null => 0
  | Node _ _ l r => S (height l `max` height r)
  end.

(** The characters at the leaves of a tree, left to right. *)
Fixpoint leaves (t : HuffmanNode) : list ascii :=
  match t with
  | Null => []
  | Node ch _ l r => (if is_leaf l r then [ch] else []) ++ leaves l ++ leaves r
  end.

(** The leaves of a tree, left to right, each with the code
    [createHuffmanCodes] reaches it with. *)
Fixpoint leaf_codes (t : HuffmanNode) (currCode : list ascii)
  : list (ascii * list ascii) :=
  match t with
  | Null => []
  | Node ch _ l r =>
      (if is_leaf l r then [(ch, currCode)] else [])
        ++ leaf_codes l (currCode ++ ["0"%char])
        ++ leaf_codes r (currCode ++ ["1"%char])
  end.

(** No two leaves hold the same character. *)
Definition distinct_leaves (t : HuffmanNode) : Prop := NoDup (leaf_codes t []).*1.

(** Same shape and same characters at the leaves. *)
Fixpoint same_tree (t t' : HuffmanNode) : Prop :=
  match t, t' with
  | Null, Null => True
  | Node c _ l r, Node c' _ l' r' =>
      (is_leaf l r = true → c = c') ∧ same_tree l l' ∧ same_tree r r'
  | _, _ => False
  end.

(** The tree as [readHuffmanTree] rebuilds it: frequencies are 0 and internal
    nodes hold the character 0. *)
Fixpoint strip (t : HuffmanNode) : HuffmanNode :=
  match t with
  | Null => Null
  | Node ch _ l r =>
      if is_leaf l r then Node ch 0 Null Null else Node nul 0 (strip l) (strip r)
  end.

(** The node the decoders reach from [t] along a sequence of payload
    characters ([Null] once they step off the tree). *)
Fixpoint descend (t : HuffmanNode) (path : list ascii) {struct path} : HuffmanNode :=
  match path with
  | [] => t
  | bit :: rest =>
      match t with
      | Null => Null
      | Node _ _ l r => descend (if bool_decide (bit = "0"%char) then l else r) rest
      end
  end.

(** A three-leaf tree used in examples: 'a' has code 0, 'b' 10 and 'c' 11. *)
Definition example_tree : HuffmanNode :=
  Node nul 3 (Node "a" 1 Null Null)
    (Node nul 2 (Node "b" 1 Null Null) (Node "c" 1 Null Null)).

(** *** Codes and ranges of the payload *)

(** How the decoders read a character of the payload. *)
Definition as_bit (c : ascii) : ascii :=
  if bool_decide (c = "0"%char) then "0"%char else "1"%char.

(** The code table has a code for every character of the buffer. *)
Definition covers (codeTable : gmap ascii (list ascii)) (data : list ascii) : Prop :=
  ∀ c, c ∈ data → is_Some (codeTable !! c).

(** The index [i] of the encoded sequence is where the code word of some
    character of the buffer ends and the next begins: the encoding of the
    first [k] characters is [i] bits long. *)
Definition codeword_boundary (codeTable : gmap ascii (list ascii))
    (data : list ascii) (i : Z) : Prop :=
  ∃ k : nat, i = Z.of_nat (length (huffmanEncode (take k data) codeTable)).

(** A split of [[from, to)] into contiguous ranges [(begin, finish)]. *)
Fixpoint contiguous (from : Z) (ranges : list (Z * Z)) (to : Z) : Prop :=
  match ranges with
  | [] => from = to
  | r :: rest => r.1 = from ∧ r.1 ≤ r.2 ∧ contiguous r.2 rest to
  end.

(** Every boundary of the ranges is a code-word boundary. *)
Definition aligned (codeTable : gmap ascii (list ascii)) (data : list ascii)
    (ranges : list (Z * Z)) : Prop :=
  ∀ r, r ∈ ranges →
       codeword_boundary codeTable data r.1 ∧ codeword_boundary codeTable data r.2.

(** Every range decoded on its own from the root, the results concatenated in
    the order of the ranges (lines 207-217). *)
Definition decode_ranges (encoded : list ascii) (root : HuffmanNode)
    (ranges : list (Z * Z)) : option (list ascii) :=
  segments ← mapM (λ r : Z * Z, threadedDecode encoded root r.1 r.2) ranges;
  Some (concat segments).

(** *** Queue of trees *)

(** A leaf for an entry of the frequency map (line 158). *)
Definition leaf_of (pair : ascii * Z) : HuffmanNode := Node pair.1 pair.2 Null Null.

(** A reference priority queue: an unsorted list; the top is the first
    element of least frequency. *)
Fixpoint extract_min (q : list HuffmanNode) : option (HuffmanNode * list HuffmanNode) :=
  match q with
  | [] => None
  | x :: q' =>
      match extract_min q' with
      | None => Some (x, [])
      | Some (y, rest) =>
          if HuffmanCompare x y then Some (y, x :: rest) else Some (x, q')
      end
  end.

(** Sum of the [frequency] fields of the roots in a queue. *)
Fixpoint total_frequency (ts : list HuffmanNode) : Z :=
  match ts with
  | [] => 0
  | t :: ts' => frequency_of t + total_frequency ts'
  end.

(** What the trees in the queue satisfy throughout lines 157-165, for a
    buffer of [n] characters whose distinct characters are [keys]. *)
Definition forest_inv (n : Z) (keys : list ascii) (ts : list HuffmanNode) : Prop :=
  Forall (λ t, strict t = true ∧ 0 ≤ frequency_of t) ts
  ∧ total_frequency ts ≤ n
  ∧ concat (leaves <$> ts) ≡ₚ keys.

(** *** Weights *)

(** The frequency of every node with children is the sum of the frequencies of
    its children. *)
Fixpoint weights_add_up (t : HuffmanNode) : bool :=
  match t with
  | Null => true
  | Node _ f l r =>
      is_leaf l r
      || (bool_decide (f = frequency_of l + frequency_of r)
          && weights_add_up l && weights_add_up r)
  end.

(** The leaves of a tree, left to right, each with its frequency. *)
Fixpoint leaf_entries (t : HuffmanNode) : list (ascii * Z) :=
  match t with
  | Null => []
  | Node c f l r =>
      (if is_leaf l r then [(c, f)] else []) ++ leaf_entries l ++ leaf_entries r
  end.

(** What the trees in the queue satisfy throughout lines 157-165, whatever the
    frequency map. *)
Definition forest_shape (entries : list (ascii * Z)) (ts : list HuffmanNode) : Prop :=
  Forall (λ t, strict t = true ∧ weights_add_up t = true) ts
  ∧ concat (leaf_entries <$> ts) ≡ₚ entries.

(** *** Bits *)

(** The two characters of a payload written by [huffmanEncode]. *)
Definition binary (c : ascii) : Prop := c = "0"%char ∨ c = "1"%char.

(** ** Files and the command line *)

(** The files that can be opened for reading, with their contents: a name
    outside the map cannot be opened.  Streams are those of a POSIX system,
    where text and binary mode read and write the same characters, and a file
    that was written can be read. *)
Abbreviation file_system := (gmap string (list ascii)).

(** What a run reports on [cout] about its outcome.  The banner, the prompts
    and the timing lines are left out. *)
Inductive report :=
| CannotOpenInput
| CannotOpenCompressed
| CompressionCompleted (targetFile : string)
| DecompressionCompleted (targetFile : string)
| InvalidChoice.

Section Run.

Context {PQ : PriorityQueue}.
Variable iterate : nat → gmap ascii Z → list (ascii * Z).

(** The names that [ofstream] can open for writing. *)
Variable writable : string → bool.

(** [ofstream output(targetFile); output << ...; output.close()]: opening
    truncates the file.  The stream is never tested, and insertions into a
    stream that failed to open do nothing. *)
Definition write_file (targetFile : string) (contents : list ascii)
    (fs : file_system) : file_system :=
  if writable targetFile then <[targetFile := contents]> fs else fs.

(** [compressDataFile] as a whole (lines 120-179): the guard on the source
    file, the work on its contents, the write to the target file. *)
Definition compressDataFile_run (sourceFile targetFile : string) (threadCount : Z)
    (sched : list nat) (fs : file_system) : option (file_system * report) :=
  match fs !! sourceFile with
  | None => Some (fs, CannotOpenInput)
  | Some fileData =>
      artifact ← compressDataFile iterate fileData threadCount sched;
      Some (write_file targetFile artifact fs, CompressionCompleted targetFile)
  end.

(** [decompressDataFile] as a whole (lines 182-229). *)
Definition decompressDataFile_run (sourceFile targetFile : string) (threadCount : Z)
    (fs : file_system) : option (file_system * report) :=
  match fs !! sourceFile with
  | None => Some (fs, CannotOpenCompressed)
  | Some artifact =>
      finalResult ← decompressDataFile artifact threadCount;
      Some (write_file targetFile finalResult fs, DecompressionCompleted targetFile)
  end.

(** [main] (lines 232-256) on the four values that [cin] extracted. *)
Definition main (userChoice : Z) (inputFileName outputFileName : string)
    (threadNum : Z) (sched : list nat) (fs : file_system)
  : option (file_system * report) :=
  if bool_decide (userChoice = 1) then
    compressDataFile_run inputFileName outputFileName threadNum sched fs
  else if bool_decide (userChoice = 2) then
    decompressDataFile_run inputFileName outputFileName threadNum fs
  else Some (fs, InvalidChoice).

End Run.

(** * Theorems *)

(** ** Machine integers *)

Lemma int_checked_some z :
  Int.INT_MIN ≤ z ≤ Int.INT_MAX → Int.checked z = Some z.
Proof.
  intros H. unfold Int.checked, Int.in_range. by rewrite bool_decide_eq_true_2.
Qed.

Lemma int_of_size_id z :
  Int.INT_MIN ≤ z ≤ Int.INT_MAX → Int.of_size z = z.
Proof.
  unfold Int.of_size, Int.INT_MIN, Int.INT_MAX. intros H.
  rewrite Z.mod_small; lia.
Qed.

Lemma int_size_div_pos size w :
  1 ≤ w ≤ Int.INT_MAX → Int.size_div size w = Some (size `div` w).
Proof.
  unfold Int.size_div, Int.to_size, Int.SIZE_MOD, Int.INT_MAX. intros H.
  rewrite Z.mod_small by lia. rewrite bool_decide_eq_false_2 by lia. done.
Qed.

(** ** Frequency counting *)

Lemma key_order_visits : visits_entries key_order.
Proof. intros id m. reflexivity. Qed.

Lemma occurrences_cons c x data :
  occurrences c (x :: data) =
  (if decide (x = c) then S (occurrences c data) else occurrences c data).
Proof. unfold occurrences. rewrite filter_cons. by destruct (decide (x = c)). Qed.

Lemma occurrences_app c l1 l2 :
  occurrences c (l1 ++ l2) = (occurrences c l1 + occurrences c l2)%nat.
Proof. unfold occurrences. by rewrite filter_app, length_app. Qed.

Lemma occurrences_le_length c data : (occurrences c data ≤ length data)%nat.
Proof. unfold occurrences. apply length_filter. Qed.

Lemma occurrences_perm c l1 l2 : l1 ≡ₚ l2 → occurrences c l1 = occurrences c l2.
Proof. intros H. unfold occurrences. by rewrite H. Qed.

Lemma occurrences_zero c data : c ∉ data → occurrences c data = 0%nat.
Proof.
  induction data as [|x data IH]; [done|].
  rewrite not_elem_of_cons, occurrences_cons. intros [? ?].
  destruct (decide (x = c)); [congruence|auto].
Qed.

(** The table [tally data m], entry by entry. *)
Lemma tally_lookup data m c :
  tally data m !! c =
  if decide (c ∈ data)
  then Some (default 0 (m !! c) + Z.of_nat (occurrences c data))
  else m !! c.
Proof.
  unfold tally. revert m. induction data as [|x data IH]; intros m.
  - destruct (decide (c ∈ [])) as [Hin|_]; [|done]. by apply elem_of_nil in Hin.
  - cbn [foldl]. rewrite IH, occurrences_cons.
    destruct (decide (x = c)) as [->|Hne].
    + rewrite lookup_insert_eq. simpl.
      destruct (decide (c ∈ c :: data)) as [_|Hn];
        [|destruct Hn; apply list_elem_of_here].
      destruct (decide (c ∈ data)).
      * f_equal. lia.
      * by rewrite occurrences_zero.
    + rewrite lookup_insert_ne by done.
      destruct (decide (c ∈ data)) as [Hd|Hd], (decide (c ∈ x :: data)) as [Hx|Hx];
        try done.
      * destruct Hx. by apply list_elem_of_further.
      * apply elem_of_cons in Hx as [->|Hx]; done.
Qed.

Lemma tally_app l1 l2 m : tally (l1 ++ l2) m = tally l2 (tally l1 m).
Proof. unfold tally. apply foldl_app. Qed.

Lemma tally_perm l1 l2 m : l1 ≡ₚ l2 → tally l1 m = tally l2 m.
Proof.
  intros H. apply map_eq. intros c. rewrite !tally_lookup.
  rewrite (occurrences_perm c l1 l2 H).
  destruct (decide (c ∈ l1)) as [Hin|Hin], (decide (c ∈ l2)) as [Hin'|Hin'];
    try done; rewrite H in Hin; done.
Qed.

Lemma increment_some m c :
  Int.INT_MIN ≤ default 0 (m !! c) + 1 ≤ Int.INT_MAX →
  increment m c = Some (<[c := default 0 (m !! c) + 1]> m).
Proof. intros H. unfold increment, Int.add. by rewrite int_checked_some. Qed.

(** The checked sequential counter agrees with [tally] as long as no count
    leaves the range of [int]. *)
Lemma countFrequencySingle_tally data m :
  (∀ c, 0 ≤ default 0 (m !! c)
        ∧ default 0 (m !! c) + Z.of_nat (occurrences c data) ≤ Int.INT_MAX) →
  countFrequencySingle data m = Some (tally data m).
Proof.
  revert m. induction data as [|x data IH]; intros m Hb; [done|].
  cbn [countFrequencySingle]. rewrite increment_some.
  - simpl. apply IH. intros c. specialize (Hb c).
    rewrite occurrences_cons in Hb.
    destruct (decide (x = c)) as [->|Hne].
    + rewrite lookup_insert_eq. simpl. lia.
    + rewrite lookup_insert_ne by done. lia.
  - specialize (Hb x). rewrite occurrences_cons, decide_True in Hb by done.
    unfold Int.INT_MIN. lia.
Qed.

Lemma string_at_lookup data i :
  0 ≤ i < Z.of_nat (length data) → string_at data i = data !! Z.to_nat i.
Proof.
  intros H. unfold string_at.
  rewrite bool_decide_eq_false_2 by lia. rewrite bool_decide_eq_false_2 by lia. done.
Qed.

Lemma segment_step data b e x :
  0 ≤ b < e → data !! Z.to_nat b = Some x →
  segment data b e = x :: segment data (b + 1) e.
Proof.
  intros H Hx. unfold segment. rewrite (drop_S _ _ _ Hx).
  replace (Z.to_nat (e - b)) with (S (Z.to_nat (e - (b + 1)))) by lia.
  replace (Z.to_nat (b + 1)) with (S (Z.to_nat b)) by lia. done.
Qed.

Lemma segment_empty data b e : e ≤ b → segment data b e = [].
Proof. intros H. unfold segment. by replace (Z.to_nat (e - b)) with 0%nat by lia. Qed.

Lemma count_loop_tally n data i m :
  0 ≤ i → i + Z.of_nat n ≤ Z.of_nat (length data) →
  (∀ c, 0 ≤ default 0 (m !! c)
        ∧ default 0 (m !! c)
          + Z.of_nat (occurrences c (segment data i (i + Z.of_nat n))) ≤ Int.INT_MAX) →
  count_loop n data i m = Some (tally (segment data i (i + Z.of_nat n)) m).
Proof.
  revert i m. induction n as [|n IH]; intros i m Hi Hn Hb.
  - rewrite segment_empty by lia. done.
  - destruct (lookup_lt_is_Some_2 data (Z.to_nat i)) as [x Hx]; [lia|].
    rewrite (segment_step data i _ x) in * by (done || lia).
    cbn [count_loop]. rewrite string_at_lookup, Hx by lia. simpl.
    rewrite increment_some.
    + simpl. replace (i + Z.of_nat (S n)) with (i + 1 + Z.of_nat n) in * by lia.
      rewrite IH; [done|lia|lia|].
      intros c. specialize (Hb c). rewrite occurrences_cons in Hb.
      destruct (decide (x = c)) as [->|Hne].
      * rewrite lookup_insert_eq. simpl. lia.
      * rewrite lookup_insert_ne by done. lia.
    + specialize (Hb x). rewrite occurrences_cons, decide_True in Hb by done.
      unfold Int.INT_MIN. lia.
Qed.

Lemma add_to_some m k v :
  Int.INT_MIN ≤ default 0 (m !! k) + v ≤ Int.INT_MAX →
  add_to m (k, v) = Some (<[k := default 0 (m !! k) + v]> m).
Proof. intros H. unfold add_to, Int.add. simpl. by rewrite int_checked_some. Qed.

(** The merge loop over entries with distinct keys adds every entry to the
    global map, whatever the order of the entries. *)
Lemma merge_loop_spec entries g :
  NoDup entries.*1 →
  (∀ k v, (k, v) ∈ entries →
          Int.INT_MIN ≤ default 0 (g !! k) + v ≤ Int.INT_MAX) →
  ∃ g', merge_loop entries g = Some g'
        ∧ (∀ k v, (k, v) ∈ entries → g' !! k = Some (default 0 (g !! k) + v))
        ∧ (∀ k, k ∉ entries.*1 → g' !! k = g !! k).
Proof.
  revert g. induction entries as [|[k v] entries IH]; intros g Hnd Hb.
  - exists g. split; [done|]. split; [|done]. intros k v Hin. by apply elem_of_nil in Hin.
  - rewrite fmap_cons in Hnd. apply NoDup_cons in Hnd as [Hk Hnd]. simpl in Hk.
    cbn [merge_loop]. rewrite add_to_some by (apply Hb; left). simpl.
    assert (Hother : ∀ k' v', (k', v') ∈ entries → k' ≠ k).
    { intros k' v' Hin ->. apply Hk. apply list_elem_of_fmap. by exists (k, v'). }
    destruct (IH (<[k := default 0 (g !! k) + v]> g) Hnd) as (g' & Hg' & Hin & Hout).
    { intros k' v' Hin'. rewrite lookup_insert_ne by (symmetry; eauto).
      apply Hb. by right. }
    exists g'. split; [done|]. split.
    + intros k' v' [Heq|Hin']%elem_of_cons.
      * inversion Heq; subst. rewrite Hout by done. by rewrite lookup_insert_eq.
      * rewrite (Hin _ _ Hin'). rewrite lookup_insert_ne by (symmetry; eauto). done.
    + intros k' Hk'. apply not_elem_of_cons in Hk' as [Hne Hk'].
      rewrite Hout by done. by rewrite lookup_insert_ne.
Qed.

Section CountingProofs.

Variable order : gmap ascii Z → list (ascii * Z).
Hypothesis order_perm : ∀ m, order m ≡ₚ map_to_list m.

Lemma order_NoDup (m : gmap ascii Z) : NoDup (order m).*1.
Proof. rewrite order_perm. apply NoDup_fst_map_to_list. Qed.

Lemma order_elem_of (m : gmap ascii Z) k v : (k, v) ∈ order m ↔ m !! k = Some v.
Proof. rewrite order_perm. apply elem_of_map_to_list. Qed.

Lemma order_keys (m : gmap ascii Z) k : k ∈ (order m).*1 ↔ is_Some (m !! k).
Proof.
  rewrite list_elem_of_fmap. split.
  - intros ([k' v] & -> & Hin). apply order_elem_of in Hin. eauto.
  - intros [v Hv]. exists (k, v). split; [done|]. by apply order_elem_of.
Qed.

(** A worker on the range [[b, e)] adds the table of that range to the global
    map. *)
Lemma countFrequencyThread_tally data g b e :
  0 ≤ b → b ≤ e → e ≤ Z.of_nat (length data) →
  (∀ c, 0 ≤ default 0 (g !! c)
        ∧ default 0 (g !! c) + Z.of_nat (occurrences c (segment data b e))
          ≤ Int.INT_MAX) →
  countFrequencyThread order data g b e = Some (tally (segment data b e) g).
Proof.
  intros Hb Hbe He Hbound. unfold countFrequencyThread.
  pose proof (count_loop_tally (Z.to_nat (e - b)) data b ∅) as Hloop.
  replace (b + Z.of_nat (Z.to_nat (e - b))) with e in Hloop by lia.
  rewrite Hloop; [|lia|lia|]; clear Hloop.
  2:{ intros c. rewrite lookup_empty. simpl. specialize (Hbound c). unfold Int.INT_MAX in *. lia. }
  simpl. set (s := segment data b e) in *.
  destruct (merge_loop_spec (order (tally s ∅)) g) as (g' & -> & Hin & Hout).
  { apply order_NoDup. }
  { intros k v Hkv. apply order_elem_of in Hkv. rewrite tally_lookup in Hkv.
    destruct (decide (k ∈ s)); [|by rewrite lookup_empty in Hkv].
    rewrite lookup_empty in Hkv. simpl in Hkv. injection Hkv as <-.
    specialize (Hbound k). unfold Int.INT_MIN. lia. }
  f_equal. apply map_eq. intros c. rewrite tally_lookup.
  destruct (decide (c ∈ s)) as [Hc|Hc].
  - apply Hin. apply order_elem_of. rewrite tally_lookup, decide_True by done.
    by rewrite lookup_empty.
  - apply Hout. rewrite order_keys, tally_lookup, decide_False by done.
    rewrite lookup_empty. by intros [? ?].
Qed.

End CountingProofs.

Lemma worker_range_some n w s i :
  1 ≤ w ≤ Int.INT_MAX → 0 ≤ n ≤ Int.INT_MAX → 0 ≤ s → w * s ≤ n → 0 ≤ i < w →
  worker_range n w s i =
  Some (i * s, if bool_decide (i = w - 1) then n else i * s + s).
Proof.
  intros Hw Hn Hs Hws Hi. unfold worker_range, Int.mul, Int.sub, Int.add.
  unfold Int.INT_MAX in *.
  rewrite !int_checked_some by (unfold Int.INT_MIN, Int.INT_MAX; nia). simpl.
  case_bool_decide.
  - rewrite int_of_size_id by (unfold Int.INT_MIN, Int.INT_MAX; lia). done.
  - rewrite int_checked_some by (unfold Int.INT_MIN, Int.INT_MAX; nia). done.
Qed.

Lemma segment_nat data (a b : nat) :
  segment data (Z.of_nat a) (Z.of_nat b) = take (b - a) (drop a data).
Proof. unfold segment. f_equal; [lia|]. f_equal. lia. Qed.

(** The first [k] slices of width [s] make up the first [k * s] characters. *)
Lemma segments_prefix data (s k : nat) :
  concat ((λ i : nat, segment data (Z.of_nat i * Z.of_nat s)
                        (Z.of_nat i * Z.of_nat s + Z.of_nat s)) <$> seq 0 k)
  = take (k * s) data.
Proof.
  induction k as [|k IH]; [done|].
  rewrite seq_S, fmap_app, concat_app, IH. simpl. rewrite app_nil_r.
  rewrite <- Nat2Z.inj_mul, <- Nat2Z.inj_add, segment_nat.
  replace (k * s + s - k * s)%nat with s by lia.
  rewrite take_take_drop. f_equal. lia.
Qed.

(** The slices of the [w] workers, in order, make up the buffer: they cover
    every index once. *)
Lemma worker_segments_cover data w :
  1 ≤ w →
  concat (worker_segment data w (Z.of_nat (length data) `div` w) <$> worker_ids w) = data.
Proof.
  intros Hw. unfold worker_ids.
  set (n := length data). set (s := Z.of_nat n `div` w).
  assert (Hs : 0 ≤ s) by (apply Z.div_pos; lia).
  assert (Hws : w * s ≤ Z.of_nat n) by (apply Z.mul_div_le; lia).
  destruct (Z.to_nat w) as [|k] eqn:Hk; [lia|].
  assert (Hwk : w - 1 = Z.of_nat k) by lia.
  rewrite seq_S, fmap_app, concat_app. simpl. rewrite app_nil_r.
  unfold worker_segment at 2. rewrite bool_decide_eq_true_2 by lia.
  rewrite (list_fmap_ext _ (λ i : nat, segment data (Z.of_nat i * Z.of_nat (Z.to_nat s))
                        (Z.of_nat i * Z.of_nat (Z.to_nat s) + Z.of_nat (Z.to_nat s)))).
  2:{ intros i x Hix. apply lookup_seq in Hix as [-> Hlt]. unfold worker_segment.
      rewrite bool_decide_eq_false_2 by lia. rewrite Z2Nat.id by done. done. }
  rewrite segments_prefix.
  replace (Z.of_nat k * s) with (Z.of_nat (k * Z.to_nat s)) by lia.
  rewrite segment_nat, take_take_drop.
  apply take_ge. lia.
Qed.

Section ParallelCount.

Variable iterate : nat → gmap ascii Z → list (ascii * Z).
Hypothesis iterate_perm : visits_entries iterate.

Lemma run_workers_tally data w s ids g :
  1 ≤ w ≤ Int.INT_MAX → Z.of_nat (length data) ≤ Int.INT_MAX →
  0 ≤ s → w * s ≤ Z.of_nat (length data) →
  Forall (λ i : nat, Z.of_nat i < w) ids →
  (∀ c, 0 ≤ default 0 (g !! c)
        ∧ default 0 (g !! c)
          + Z.of_nat (occurrences c (concat (worker_segment data w s <$> ids)))
          ≤ Int.INT_MAX) →
  run_workers iterate data w s ids g
  = Some (tally (concat (worker_segment data w s <$> ids)) g).
Proof.
  intros Hw Hn Hs Hws Hids. revert g.
  induction Hids as [|i ids Hi Hids IH]; intros g Hb; [done|].
  cbn [run_workers]. rewrite worker_range_some by lia. simpl.
  rewrite fmap_cons, concat_cons in *. fold (worker_segment data w s i) in *.
  assert (Hocc : ∀ c, occurrences c (worker_segment data w s i ++
      concat (worker_segment data w s <$> ids)) = (occurrences c (worker_segment data w s i)
      + occurrences c (concat (worker_segment data w s <$> ids)))%nat)
    by (intros; apply occurrences_app).
  rewrite (countFrequencyThread_tally (iterate (S i)) (iterate_perm (S i))).
  - simpl. rewrite tally_app. apply IH. intros c. specialize (Hb c).
    rewrite Hocc in Hb. rewrite tally_lookup.
    destruct (decide (c ∈ worker_segment data w s i)) as [Hin|Hin]; simpl; [lia|].
    rewrite occurrences_zero in Hb by done. lia.
  - nia.
  - case_bool_decide; nia.
  - case_bool_decide; nia.
  - intros c. specialize (Hb c). rewrite Hocc in Hb.
    fold (worker_segment data w s i). lia.
Qed.

End ParallelCount.

Lemma schedule_bound w sched :
  schedule w sched → Forall (λ i : nat, Z.of_nat i < w) sched.
Proof.
  unfold schedule, worker_ids. intros ->. apply Forall_forall.
  intros i Hi. apply elem_of_seq in Hi. lia.
Qed.

Lemma schedule_segments data w sched :
  1 ≤ w → schedule w sched →
  concat (worker_segment data w (Z.of_nat (length data) `div` w) <$> sched) ≡ₚ data.
Proof.
  intros Hw Hs. unfold schedule in Hs. rewrite Hs.
  by rewrite worker_segments_cover.
Qed.

(** The parallel path computes [tally data ∅] whenever the length of the
    buffer fits an [int], whatever the order in which the workers merge. *)
Lemma countFrequencyParallel_tally
    (iterate : nat → gmap ascii Z → list (ascii * Z)) (data : list ascii)
    (W : Z) (sched : list nat) :
  visits_entries iterate →
  1 ≤ W ≤ Int.INT_MAX →
  Z.of_nat (length data) ≤ Int.INT_MAX →
  schedule W sched →
  countFrequencyParallel iterate data W sched = Some (tally data ∅).
Proof.
  intros Hperm HW Hn Hsched.
  assert (Hocc : ∀ c, Z.of_nat (occurrences c data) ≤ Int.INT_MAX).
  { intros c. pose proof (occurrences_le_length c data). lia. }
  unfold countFrequencyParallel. rewrite int_size_div_pos by done. simpl.
  set (s := Z.of_nat (length data) `div` W).
  assert (Hs : 0 ≤ s) by (apply Z.div_pos; lia).
  assert (Hws : W * s ≤ Z.of_nat (length data)) by (apply Z.mul_div_le; lia).
  rewrite int_of_size_id by (unfold Int.INT_MIN, Int.INT_MAX in *; nia).
  pose proof (schedule_segments data W sched (proj1 HW) Hsched) as Hcover.
  fold s in Hcover.
  rewrite (run_workers_tally iterate Hperm); try done.
  - f_equal. by apply tally_perm.
  - by apply schedule_bound.
  - intros c. rewrite lookup_empty. simpl.
    rewrite (occurrences_perm c _ _ Hcover). specialize (Hocc c). lia.
Qed.

Lemma countFrequencySingle_tally_empty data :
  Z.of_nat (length data) ≤ Int.INT_MAX →
  countFrequencySingle data ∅ = Some (tally data ∅).
Proof.
  intros Hn. apply countFrequencySingle_tally. intros c. rewrite lookup_empty. simpl.
  pose proof (occurrences_le_length c data). lia.
Qed.

(** C3 (amended): for every input buffer of at most [INT_MAX] = 2^31-1 bytes,
    every worker count [1 <= W] and every order in which the workers merge,
    the table of the parallel path (slice [i] starts at [i * floor(n/W)], the
    last slice takes the remainder, local tables are merged under the mutex)
    is the table of the sequential counter; for the empty buffer it is the
    empty table.  [W > n] is covered: the slices are then empty but the last. *)
Theorem parallel_count_matches_sequential
    (iterate : nat → gmap ascii Z → list (ascii * Z)) (data : list ascii)
    (W : Z) (sched : list nat) :
  visits_entries iterate →
  1 ≤ W ≤ Int.INT_MAX →
  Z.of_nat (length data) ≤ Int.INT_MAX →
  schedule W sched →
  ∃ table,
    countFrequencyParallel iterate data W sched = Some table
    ∧ countFrequencySingle data ∅ = Some table
    ∧ (data = [] → table = ∅).
Proof.
  intros Hperm HW Hn Hsched. exists (tally data ∅). split; [|split].
  - by apply countFrequencyParallel_tally.
  - by apply countFrequencySingle_tally_empty.
  - by intros ->.
Qed.

Lemma parallel_count_matches_sequential_witness :
  visits_entries key_order
  ∧ 1 ≤ 3 ≤ Int.INT_MAX
  ∧ Z.of_nat (length ["a"; "b"; "a"; "c"; "a"; "b"; "a"]%char) ≤ Int.INT_MAX
  ∧ schedule 3 [2; 0; 1]%nat
  ∧ ∃ table,
      countFrequencyParallel key_order ["a"; "b"; "a"; "c"; "a"; "b"; "a"]%char 3
        [2; 0; 1]%nat = Some table
      ∧ countFrequencySingle ["a"; "b"; "a"; "c"; "a"; "b"; "a"]%char ∅ = Some table
      ∧ (["a"; "b"; "a"; "c"; "a"; "b"; "a"]%char = [] → table = ∅).
Proof.
  assert (H1 : visits_entries key_order) by exact key_order_visits.
  assert (H2 : 1 ≤ 3 ≤ Int.INT_MAX) by (vm_compute; split; discriminate).
  assert (H3 : Z.of_nat (length ["a"; "b"; "a"; "c"; "a"; "b"; "a"]%char) ≤ Int.INT_MAX)
    by (vm_compute; discriminate).
  assert (H4 : schedule 3 [2; 0; 1]%nat).
  { unfold schedule, worker_ids. simpl.
    eapply perm_trans; [apply perm_swap|]. apply perm_skip, perm_swap. }
  exact (conj H1 (conj H2 (conj H3 (conj H4
    (parallel_count_matches_sequential key_order _ 3 [2; 0; 1]%nat H1 H2 H3 H4))))).
Defined.

Lemma occurrences_replicate c x n :
  occurrences c (replicate n x) = if decide (x = c) then n else 0%nat.
Proof.
  induction n as [|n IH]; simpl.
  - by destruct (decide (x = c)).
  - rewrite occurrences_cons, IH. by destruct (decide (x = c)).
Qed.

(** With a buffer of 2^31 bytes and one worker, [slice] and [endIdx] wrap to
    [INT_MIN]: the worker's loop does not run. *)
Lemma countFrequencyParallel_wraps data :
  Z.of_nat (length data) = 2 ^ 31 →
  countFrequencyParallel key_order data 1 [0%nat] = Some ∅.
Proof.
  intros Hn. unfold countFrequencyParallel. rewrite Hn.
  change (Int.size_div (2 ^ 31) 1) with (Some (2 ^ 31)). simpl mbind.
  change (Int.of_size (2 ^ 31)) with (- 2 ^ 31).
  cbn [run_workers]. rewrite Hn.
  change (worker_range (2 ^ 31) 1 (- 2 ^ 31) (Z.of_nat 0)) with (Some (0, - 2 ^ 31)).
  reflexivity.
Qed.

(** The sequential counter on [n] copies of [a] followed by [n] copies of [b]. *)
Lemma countFrequencySingle_two_runs (n : nat) (a b : ascii) :
  a ≠ b → n ≠ 0%nat → Z.of_nat n ≤ Int.INT_MAX →
  countFrequencySingle (replicate n a ++ replicate n b) ∅
  = Some {[ a := Z.of_nat n; b := Z.of_nat n ]}.
Proof.
  intros Hab Hn Hmax.
  assert (Hocc : ∀ c, occurrences c (replicate n a ++ replicate n b)
      = if decide (a = c) then n else if decide (b = c) then n else 0%nat).
  { intros c. rewrite occurrences_app, !occurrences_replicate.
    destruct (decide (a = c)) as [<-|?].
    - rewrite decide_False by (by intros ->). lia.
    - destruct (decide (b = c)); lia. }
  rewrite countFrequencySingle_tally.
  - f_equal. apply map_eq. intros c. rewrite tally_lookup, Hocc, lookup_empty.
    destruct (decide (a = c)) as [<-|Ha].
    + rewrite lookup_insert_eq.
      destruct (decide (a ∈ replicate n a ++ replicate n b)) as [_|Hin]; [done|].
      destruct Hin. apply elem_of_app. left. by apply elem_of_replicate.
    + rewrite lookup_insert_ne by done.
      destruct (decide (b = c)) as [<-|Hb].
      * rewrite lookup_singleton_eq.
        destruct (decide (b ∈ replicate n a ++ replicate n b)) as [_|Hin]; [done|].
        destruct Hin. apply elem_of_app. right. by apply elem_of_replicate.
      * rewrite lookup_singleton_ne by done.
        destruct (decide (c ∈ replicate n a ++ replicate n b)) as [Hin|_]; [|done].
        apply elem_of_app in Hin. rewrite !elem_of_replicate in Hin.
        destruct Hin as [[-> _]|[-> _]]; done.
  - intros c. rewrite lookup_empty, Hocc. simpl. unfold Int.INT_MAX in *.
    repeat case_decide; lia.
Qed.

(** C3, as stated, fails on a buffer of 2^31 bytes with one worker: the
    parallel path leaves the table empty, the sequential counter counts 2^30
    occurrences of each of the two characters. *)
Lemma parallel_count_counterexample :
  1 ≤ 1
  ∧ schedule 1 [0%nat]
  ∧ countFrequencyParallel key_order two_gib_buffer 1 [0%nat] = Some ∅
  ∧ countFrequencySingle two_gib_buffer ∅
    = Some {[ "a"%char := 2 ^ 30; "b"%char := 2 ^ 30 ]}.
Proof.
  split; [lia|]. split; [by unfold schedule|]. split.
  - apply countFrequencyParallel_wraps. unfold two_gib_buffer.
    rewrite length_app, !length_replicate. lia.
  - pose proof (countFrequencySingle_two_runs (Z.to_nat (2 ^ 30)) "a"%char "b"%char)
      as H.
    rewrite Z2Nat.id in H by lia. apply H; [discriminate|lia|unfold Int.INT_MAX; lia].
Qed.

(** ** Tree serialisation *)

Lemma is_leaf_true l r : is_leaf l r = true → l = Null ∧ r = Null.
Proof. by destruct l, r. Qed.

Lemma strict_children c f l r :
  strict (Node c f l r) = true → is_leaf l r = false →
  strict l = true ∧ strict r = true.
Proof. cbn [strict]. intros H Hl. rewrite Hl in H. by apply andb_true_iff in H. Qed.

Lemma same_tree_strip t : same_tree t (strip t).
Proof.
  induction t as [|c f l IHl r IHr]; [done|]. simpl.
  destruct (is_leaf l r) eqn:Hleaf.
  - apply is_leaf_true in Hleaf as [-> ->]. done.
  - simpl. split; [done|]. by split.
Qed.

Lemma strip_internal t : internal (strip t) = internal t.
Proof.
  destruct t as [|c f l r]; [done|]. simpl.
  destruct (is_leaf l r) eqn:Hleaf; [done|]. simpl.
  destruct l as [|cl fl ll lr], r as [|cr fr rl rr]; try done; simpl;
    by repeat case_match.
Qed.

Lemma height_le_written t : (height t ≤ length (writeHuffmanTree t))%nat.
Proof.
  induction t as [|c f l IHl r IHr]; [done|]. simpl.
  rewrite length_app, length_app. destruct (is_leaf l r); simpl; lia.
Qed.

(** Reading back what [writeHuffmanTree] wrote, with any fuel above the
    height of the tree and whatever follows in the stream. *)
Lemma readHuffmanTree_fuel_write t fuel rest :
  strict t = true → (height t < fuel)%nat →
  readHuffmanTree_fuel fuel (writeHuffmanTree t ++ rest) = Some (strip t, rest).
Proof.
  revert fuel rest. induction t as [|c f l IHl r IHr]; intros fuel rest Hs Hf; [done|].
  destruct fuel as [|fuel]; [simpl in Hf; lia|]. simpl in Hf.
  cbn [writeHuffmanTree strip].
  destruct (is_leaf l r) eqn:Hleaf.
  - apply is_leaf_true in Hleaf as [-> ->]. done.
  - destruct (strict_children _ _ _ _ Hs Hleaf) as [Hl Hr].
    cbn [app readHuffmanTree_fuel].
    rewrite bool_decide_eq_false_2 by discriminate.
    rewrite <- app_assoc, IHl by (done || lia). simpl.
    rewrite IHr by (done || lia). done.
Qed.

Lemma readHuffmanTree_write t rest :
  strict t = true →
  readHuffmanTree (writeHuffmanTree t ++ rest) = Some (strip t, rest).
Proof.
  intros Hs. unfold readHuffmanTree. apply readHuffmanTree_fuel_write; [done|].
  rewrite length_app. pose proof (height_le_written t). lia.
Qed.

(** C7: for every strict binary tree, reading the token stream that
    [writeHuffmanTree] produced rebuilds the tree, same shape and same
    characters at the leaves, and stops at the end of the tokens: whatever
    follows them in the stream is left unread, so no count or length is
    needed. *)
Theorem read_write_tree_roundtrip (t : HuffmanNode) (rest : list ascii) :
  strict t = true →
  ∃ t', readHuffmanTree (writeHuffmanTree t ++ rest) = Some (t', rest)
        ∧ same_tree t t'
        ∧ t' = strip t.
Proof.
  intros Hs. exists (strip t). split; [|split; [apply same_tree_strip|done]].
  by apply readHuffmanTree_write.
Qed.

Lemma read_write_tree_roundtrip_witness :
  strict (Node nul 3 (Node "a" 1 Null Null)
            (Node nul 2 (Node "b" 1 Null Null) (Node "c" 1 Null Null))) = true
  ∧ ∃ t', readHuffmanTree
            (writeHuffmanTree
               (Node nul 3 (Node "a" 1 Null Null)
                  (Node nul 2 (Node "b" 1 Null Null) (Node "c" 1 Null Null)))
             ++ [newline; "0"; "1"; "0"]%char)
          = Some (t', [newline; "0"; "1"; "0"]%char)
        ∧ same_tree
            (Node nul 3 (Node "a" 1 Null Null)
               (Node nul 2 (Node "b" 1 Null Null) (Node "c" 1 Null Null))) t'
        ∧ t' = strip
            (Node nul 3 (Node "a" 1 Null Null)
               (Node nul 2 (Node "b" 1 Null Null) (Node "c" 1 Null Null))).
Proof.
  split; [reflexivity|].
  apply read_write_tree_roundtrip. reflexivity.
Defined.

(** ** Fuel of [readHuffmanTree] *)

Lemma readHuffmanTree_fuel_consumes fuel s t s' :
  readHuffmanTree_fuel fuel s = Some (t, s') → (length s' < length s)%nat.
Proof.
  revert s t s'. induction fuel as [|fuel IH]; intros s t s' H; [done|].
  cbn [readHuffmanTree_fuel] in H. destruct s as [|marker rest]; [done|].
  case_bool_decide.
  - destruct rest as [|character rest']; [done|]. injection H as _ <-. simpl. lia.
  - destruct (readHuffmanTree_fuel fuel rest) as [[l s1]|] eqn:Hl; [|done].
    cbn [mbind option_bind snd] in H.
    destruct (readHuffmanTree_fuel fuel s1) as [[r s2]|] eqn:Hr; [|done].
    cbn [mbind option_bind snd] in H. injection H as _ <-.
    apply IH in Hl, Hr. simpl. lia.
Qed.

Lemma readHuffmanTree_fuel_irrelevant f1 f2 s :
  (length s < f1)%nat → (length s < f2)%nat →
  readHuffmanTree_fuel f1 s = readHuffmanTree_fuel f2 s.
Proof.
  revert f2 s. induction f1 as [|f1 IH]; intros f2 s H1 H2; [lia|].
  destruct f2 as [|f2]; [lia|]. cbn [readHuffmanTree_fuel].
  destruct s as [|marker rest]; [done|]. simpl in H1, H2.
  case_bool_decide; [done|].
  rewrite (IH f2 rest) by lia.
  destruct (readHuffmanTree_fuel f2 rest) as [[l s1]|] eqn:Hl; [|done].
  cbn [mbind option_bind snd fst].
  apply readHuffmanTree_fuel_consumes in Hl.
  rewrite (IH f2 s1) by lia. done.
Qed.

(** The fuel given by [readHuffmanTree] never runs out: more fuel changes
    nothing, so [None] always stands for a read past the end of the stream. *)
Lemma readHuffmanTree_fuel_enough fuel s :
  (length s < fuel)%nat → readHuffmanTree_fuel fuel s = readHuffmanTree s.
Proof. intros H. unfold readHuffmanTree. apply readHuffmanTree_fuel_irrelevant; lia. Qed.

(** ** Code table *)

Lemma createHuffmanCodes_leaf_codes t p m :
  createHuffmanCodes t p m = foldl (λ m kv, <[kv.1 := kv.2]> m) m (leaf_codes t p).
Proof.
  revert p m. induction t as [|c f l IHl r IHr]; intros p m; [done|].
  cbn [createHuffmanCodes leaf_codes]. rewrite !foldl_app, IHr, IHl.
  by destruct (is_leaf l r).
Qed.

Lemma foldl_insert_lookup (l : list (ascii * list ascii))
    (m : gmap ascii (list ascii)) k v :
  foldl (λ m kv, <[kv.1 := kv.2]> m) m l !! k = Some v →
  (k, v) ∈ l ∨ m !! k = Some v.
Proof.
  revert m. induction l as [|[k' v'] l IH]; intros m H; [by right|].
  simpl in H. apply IH in H as [H|H].
  - left. by right.
  - destruct (decide (k' = k)) as [->|Hne].
    + rewrite lookup_insert_eq in H. injection H as ->. left. by left.
    + rewrite lookup_insert_ne in H by done. by right.
Qed.

(** Every entry of the code table is a leaf of the tree with its path. *)
Lemma createHuffmanCodes_lookup t c code :
  createHuffmanCodes t [] ∅ !! c = Some code → (c, code) ∈ leaf_codes t [].
Proof.
  rewrite createHuffmanCodes_leaf_codes. intros [H|H]%foldl_insert_lookup; [done|].
  by rewrite lookup_empty in H.
Qed.

Lemma leaf_codes_prefix t p c code :
  (c, code) ∈ leaf_codes t p → p `prefix_of` code.
Proof.
  revert p. induction t as [|ch f l IHl r IHr]; intros p H.
  - by apply elem_of_nil in H.
  - cbn [leaf_codes] in H. apply elem_of_app in H as [H|H].
    + destruct (is_leaf l r); [|by apply elem_of_nil in H].
      apply list_elem_of_singleton in H. by injection H as -> ->.
    + apply elem_of_app in H as [H|H]; [apply IHl in H|apply IHr in H];
        (etrans; [|exact H]); by apply prefix_app_r.
Qed.

Lemma branches_diverge (p s1 s2 : list ascii) :
  ¬ (p ++ ["0"%char]) ++ s1 `prefix_of` (p ++ ["1"%char]) ++ s2
  ∧ ¬ (p ++ ["1"%char]) ++ s1 `prefix_of` (p ++ ["0"%char]) ++ s2.
Proof.
  split; intros [k Hk]; rewrite <- !app_assoc in Hk;
    apply app_inv_head in Hk; discriminate.
Qed.

(** Two different leaves have codes neither of which is a prefix of the
    other. *)
Lemma leaf_codes_prefix_free t p x y :
  x ∈ leaf_codes t p → y ∈ leaf_codes t p → x ≠ y → ¬ x.2 `prefix_of` y.2.
Proof.
  revert p. induction t as [|ch f l IHl r IHr]; intros p Hx Hy Hne.
  - by apply elem_of_nil in Hx.
  - cbn [leaf_codes] in Hx, Hy. destruct (is_leaf l r) eqn:Hleaf.
    + apply is_leaf_true in Hleaf as [-> ->]. simpl in Hx, Hy.
      apply list_elem_of_singleton in Hx, Hy. congruence.
    + simpl in Hx, Hy. apply elem_of_app in Hx as [Hx|Hx], Hy as [Hy|Hy].
      * by apply (IHl (p ++ ["0"%char])).
      * destruct x as [cx x], y as [cy y].
        apply leaf_codes_prefix in Hx as [sx ->], Hy as [sy ->].
        apply branches_diverge.
      * destruct x as [cx x], y as [cy y].
        apply leaf_codes_prefix in Hx as [sx ->], Hy as [sy ->].
        apply branches_diverge.
      * by apply (IHr (p ++ ["1"%char])).
Qed.

(** C8: in the code table that [createHuffmanCodes] derives from a tree, the
    code of one byte value is never a prefix of the code of another. *)
Theorem code_table_prefix_free (t : HuffmanNode) (a b : ascii) (ca cb : list ascii) :
  createHuffmanCodes t [] ∅ !! a = Some ca →
  createHuffmanCodes t [] ∅ !! b = Some cb →
  a ≠ b →
  ¬ ca `prefix_of` cb.
Proof.
  intros Ha%createHuffmanCodes_lookup Hb%createHuffmanCodes_lookup Hne.
  apply (leaf_codes_prefix_free t [] (a, ca) (b, cb)); [done|done|congruence].
Qed.

Lemma code_table_prefix_free_witness :
  createHuffmanCodes
    (Node nul 3 (Node "a" 1 Null Null)
       (Node nul 2 (Node "b" 1 Null Null) (Node "c" 1 Null Null))) [] ∅ !! "a"%char
  = Some ["0"%char]
  ∧ createHuffmanCodes
      (Node nul 3 (Node "a" 1 Null Null)
         (Node nul 2 (Node "b" 1 Null Null) (Node "c" 1 Null Null))) [] ∅ !! "c"%char
    = Some ["1"; "1"]%char
  ∧ "a"%char ≠ "c"%char
  ∧ ¬ ["0"%char] `prefix_of` ["1"; "1"]%char.
Proof.
  assert (H1 : createHuffmanCodes
    (Node nul 3 (Node "a" 1 Null Null)
       (Node nul 2 (Node "b" 1 Null Null) (Node "c" 1 Null Null))) [] ∅ !! "a"%char
    = Some ["0"%char]) by reflexivity.
  assert (H2 : createHuffmanCodes
    (Node nul 3 (Node "a" 1 Null Null)
       (Node nul 2 (Node "b" 1 Null Null) (Node "c" 1 Null Null))) [] ∅ !! "c"%char
    = Some ["1"; "1"]%char) by reflexivity.
  assert (H3 : "a"%char ≠ "c"%char) by discriminate.
  exact (conj H1 (conj H2 (conj H3 (code_table_prefix_free _ _ _ _ _ H1 H2 H3)))).
Defined.

(** ** Encoding *)

Lemma huffmanEncode_acc (data : list ascii) (tbl : gmap ascii (list ascii)) acc :
  foldl (λ encoded ch, encoded ++ code_of tbl ch) acc data
  = acc ++ huffmanEncode data tbl.
Proof.
  unfold huffmanEncode. revert acc. induction data as [|x data IH]; intros acc.
  - by rewrite app_nil_r.
  - simpl. rewrite IH, (IH (code_of tbl x)). by rewrite app_assoc.
Qed.

Lemma huffmanEncode_nil tbl : huffmanEncode [] tbl = [].
Proof. done. Qed.

Lemma huffmanEncode_cons x data tbl :
  huffmanEncode (x :: data) tbl = code_of tbl x ++ huffmanEncode data tbl.
Proof. unfold huffmanEncode at 1. simpl. apply huffmanEncode_acc. Qed.

Lemma huffmanEncode_app d1 d2 tbl :
  huffmanEncode (d1 ++ d2) tbl = huffmanEncode d1 tbl ++ huffmanEncode d2 tbl.
Proof.
  induction d1 as [|x d1 IH]; [done|].
  simpl. rewrite !huffmanEncode_cons, IH. by rewrite app_assoc.
Qed.

Lemma all_chars_complete c : c ∈ all_chars.
Proof.
  unfold all_chars. apply list_elem_of_fmap. exists (nat_of_ascii c).
  split; [by rewrite ascii_nat_embedding|].
  apply elem_of_seq. pose proof (nat_ascii_bounded c). lia.
Qed.

Lemma all_chars_NoDup : NoDup all_chars.
Proof.
  unfold all_chars. apply NoDup_fmap_2_strong; [|apply NoDup_seq].
  intros x y Hx%elem_of_seq Hy%elem_of_seq Heq.
  rewrite <- (nat_ascii_embedding x), <- (nat_ascii_embedding y) by lia.
  by rewrite Heq.
Qed.

(** Adding one occurrence of [x] adds the weight of [x] once to a sum over
    distinct characters. *)
Lemma sum_occurrences_cons (f : ascii → nat) x data (l : list ascii) :
  NoDup l →
  sum_list_with (λ c, occurrences c (x :: data) * f c)%nat l
  = ((if decide (x ∈ l) then f x else 0)
     + sum_list_with (λ c, occurrences c data * f c) l)%nat.
Proof.
  induction 1 as [|c l Hc Hnd IH]; simpl.
  - by destruct (decide (x ∈ [])).
  - rewrite IH, occurrences_cons.
    destruct (decide (x = c)) as [->|Hne].
    + destruct (decide (c ∈ l)) as [?|_]; [done|].
      destruct (decide (c ∈ c :: l)) as [_|Hn]; [lia|].
      destruct Hn. apply list_elem_of_here.
    + destruct (decide (x ∈ l)) as [Hl|Hl], (decide (x ∈ c :: l)) as [Hcl|Hcl];
        try lia.
      * destruct Hcl. by apply list_elem_of_further.
      * apply elem_of_cons in Hcl as [?|?]; done.
Qed.

(** C9: the encoded bit sequence is as long as the sum, over the byte values,
    of the number of occurrences of the value times the length of its code.
    (A value the table does not cover has the empty code.) *)
Theorem encoded_length_weighted_sum (data : list ascii)
    (codeTable : gmap ascii (list ascii)) :
  length (huffmanEncode data codeTable)
  = sum_list_with (λ c, occurrences c data * length (code_of codeTable c))%nat
      all_chars.
Proof.
  induction data as [|x data IH].
  - rewrite huffmanEncode_nil. generalize all_chars. intros l.
    induction l as [|c l IHl]; [done|]. cbn [sum_list_with]. by rewrite <- IHl.
  - rewrite huffmanEncode_cons, length_app, IH.
    rewrite (sum_occurrences_cons (λ c, length (code_of codeTable c)))
      by apply all_chars_NoDup.
    destruct (decide (x ∈ all_chars)) as [_|Hn]; [done|].
    destruct Hn. apply all_chars_complete.
Qed.

(** ** Characters of the payload *)

Lemma as_bit_zero c : bool_decide (as_bit c = "0"%char) = bool_decide (c = "0"%char).
Proof.
  unfold as_bit. destruct (decide (c = "0"%char)) as [->|Hne]; [done|].
  by rewrite !(bool_decide_eq_false_2 (c = "0"%char)).
Qed.

Lemma decode_step_as_bit root st bit :
  decode_step root st (as_bit bit) = decode_step root st bit.
Proof. unfold decode_step. by rewrite as_bit_zero. Qed.

Lemma decode_loop_as_bit root text st :
  decode_loop root (as_bit <$> text) st = decode_loop root text st.
Proof.
  revert st. induction text as [|bit text IH]; intros st; [done|].
  cbn [fmap list_fmap decode_loop]. rewrite decode_step_as_bit.
  destruct (decode_step root st bit); [apply IH|done].
Qed.

Lemma huffmanDecode_as_bit root text :
  huffmanDecode root (as_bit <$> text) = huffmanDecode root text.
Proof. unfold huffmanDecode. by rewrite decode_loop_as_bit. Qed.

Lemma string_at_as_bit encoded i :
  string_at (as_bit <$> encoded) i
  = (if bool_decide (i = Z.of_nat (length encoded)) then id else as_bit)
      <$> string_at encoded i.
Proof.
  unfold string_at. rewrite length_fmap.
  case_bool_decide; [done|]. case_bool_decide; [done|].
  by rewrite list_lookup_fmap.
Qed.

Lemma threaded_loop_as_bit n encoded root i st :
  threaded_loop n (as_bit <$> encoded) root i st = threaded_loop n encoded root i st.
Proof.
  revert i st. induction n as [|n IH]; intros i st; [done|].
  cbn [threaded_loop]. rewrite string_at_as_bit.
  destruct (string_at encoded i) as [bit|]; [|done]. simpl.
  replace (decode_step root st
             ((if bool_decide (i = Z.of_nat (length encoded)) then id else as_bit) bit))
    with (decode_step root st bit)
    by (case_bool_decide; [done|by rewrite decode_step_as_bit]).
  destruct (decode_step root st bit); [apply IH|done].
Qed.

Lemma threadedDecode_as_bit encoded root b e :
  threadedDecode (as_bit <$> encoded) root b e = threadedDecode encoded root b e.
Proof. unfold threadedDecode. by rewrite threaded_loop_as_bit. Qed.

(** ** Decoding *)

Lemma decode_loop_app root s1 s2 st :
  decode_loop root (s1 ++ s2) st = decode_loop root s1 st ≫= decode_loop root s2.
Proof.
  revert st. induction s1 as [|bit s1 IH]; intros st; [done|].
  cbn [app decode_loop]. destruct (decode_step root st bit); [apply IH|done].
Qed.

Lemma threaded_loop_segment n encoded root i st :
  0 ≤ i → i + Z.of_nat n ≤ Z.of_nat (length encoded) →
  threaded_loop n encoded root i st
  = decode_loop root (segment encoded i (i + Z.of_nat n)) st.
Proof.
  revert i st. induction n as [|n IH]; intros i st Hi Hn.
  - by rewrite segment_empty by lia.
  - destruct (lookup_lt_is_Some_2 encoded (Z.to_nat i)) as [x Hx]; [lia|].
    rewrite (segment_step encoded i _ x) by (done || lia).
    cbn [threaded_loop decode_loop]. rewrite string_at_lookup, Hx by lia. simpl.
    destruct (decode_step root st x); [|done]. simpl.
    rewrite IH by lia. do 2 f_equal. lia.
Qed.

(** A worker on the range [[b, e)] decodes the characters of that range,
    starting from the root. *)
Lemma threadedDecode_segment encoded root b e :
  0 ≤ b → b ≤ e → e ≤ Z.of_nat (length encoded) →
  threadedDecode encoded root b e = huffmanDecode root (segment encoded b e).
Proof.
  intros Hb Hbe He. unfold threadedDecode, huffmanDecode.
  rewrite threaded_loop_segment by lia. do 3 f_equal. lia.
Qed.

Lemma segment_all (data : list ascii) : segment data 0 (Z.of_nat (length data)) = data.
Proof.
  unfold segment. rewrite Z.sub_0_r, Nat2Z.id. simpl. apply take_ge. lia.
Qed.

Lemma strict_internal_children c f l r :
  strict (Node c f l r) = true → internal (Node c f l r) = true →
  strict l = true ∧ strict r = true.
Proof.
  intros Hs Hi. apply (strict_children c f); [done|].
  simpl in Hi. by destruct (is_leaf l r).
Qed.

Lemma decode_step_total root st bit :
  strict root = true → internal root = true →
  strict st.1 = true → internal st.1 = true →
  ∃ st', decode_step root st bit = Some st'
         ∧ strict st'.1 = true ∧ internal st'.1 = true.
Proof.
  intros Hrs Hri Hs Hi. unfold decode_step.
  destruct st as [[|c f l r] acc]; [done|]. cbn [fst snd] in *.
  destruct (strict_internal_children _ _ _ _ Hs Hi) as [Hl Hr].
  assert (Hnext : strict (if bool_decide (bit = "0"%char) then l else r) = true)
    by (by case_bool_decide).
  destruct (if bool_decide (bit = "0"%char) then l else r) as [|c' f' l' r'];
    [done|].
  destruct (is_leaf l' r') eqn:Hleaf.
  - by eexists.
  - eexists. split; [done|]. split; [done|]. simpl. by rewrite Hleaf.
Qed.

(** On a strict tree whose root has children the decoding loop never
    dereferences a null pointer, whatever the characters of the payload. *)
Lemma decode_loop_total root text st :
  strict root = true → internal root = true →
  strict st.1 = true → internal st.1 = true →
  is_Some (decode_loop root text st).
Proof.
  intros Hrs Hri. revert st. induction text as [|bit text IH]; intros st Hs Hi.
  - by eexists.
  - cbn [decode_loop].
    destruct (decode_step_total root st bit) as (st' & -> & Hs' & Hi'); try done.
    simpl. by apply IH.
Qed.

Lemma huffmanDecode_total root text :
  strict root = true → internal root = true → is_Some (huffmanDecode root text).
Proof.
  intros Hs Hi. unfold huffmanDecode.
  destruct (decode_loop_total root text (root, []) Hs Hi Hs Hi) as [st ->].
  by eexists.
Qed.

(** C10, on the code: on the tree of a single leaf the decoders accept no
    character.  Whatever the first character they read is, '0' or not, the
    descent moves [currNode] to a null child (lines 70 and 111) and the test
    that follows dereferences it (lines 71 and 112).  [huffmanDecode] on a
    non-empty payload, [threadedDecode] on a non-empty range of the payload
    and [decompressDataFile] on a file that holds the leaf, a separator and
    that payload have no defined result, whatever the characters of the
    payload and the thread count. *)
Theorem decoders_fail_on_single_leaf (c : ascii) (f : Z) (payload : list ascii)
    (b e : Z) (separator : ascii) (W : Z) :
  0 ≤ b → b < e → e ≤ Z.of_nat (length payload) →
  huffmanDecode (Node c f Null Null) payload = None
  ∧ threadedDecode payload (Node c f Null Null) b e = None
  ∧ decompressDataFile ("1"%char :: c :: separator :: payload) W = None.
Proof.
  intros Hb Hbe He.
  assert (Hstep : ∀ c' f' st bit,
            decode_step (Node c' f' Null Null) (Node c' f' Null Null, st) bit = None).
  { intros c' f' st bit. unfold decode_step. cbn [fst]. by case_bool_decide. }
  assert (Hdec : ∀ c' f', huffmanDecode (Node c' f' Null Null) payload = None).
  { intros c' f'. destruct payload as [|bit payload]; [simpl in He; lia|].
    unfold huffmanDecode. cbn [decode_loop]. by rewrite Hstep. }
  split; [apply Hdec|]. split.
  - unfold threadedDecode.
    destruct (Z.to_nat (e - b)) as [|n] eqn:Hn; [lia|]. cbn [threaded_loop].
    destruct (lookup_lt_is_Some_2 payload (Z.to_nat b)) as [bit Hbit]; [lia|].
    rewrite string_at_lookup, Hbit by lia. cbn [mbind option_bind].
    by rewrite Hstep.
  - unfold decompressDataFile, readHuffmanTree.
    cbn [length readHuffmanTree_fuel].
    rewrite (bool_decide_eq_true_2 ("1"%char = "1"%char)) by done.
    cbn [mbind option_bind fst snd tail]. by rewrite Hdec.
Qed.

Lemma decoders_fail_on_single_leaf_witness :
  0 ≤ 0 ∧ 0 < 2 ∧ 2 ≤ Z.of_nat (length ["x"; "1"]%char)
  ∧ huffmanDecode (Node "a" 0 Null Null) ["x"; "1"]%char = None
  ∧ threadedDecode ["x"; "1"]%char (Node "a" 0 Null Null) 0 2 = None
  ∧ decompressDataFile ["1"; "a"; newline; "x"; "1"]%char 1 = None.
Proof.
  assert (H1 : 0 ≤ 0) by lia.
  assert (H2 : 0 < 2) by lia.
  assert (H3 : 2 ≤ Z.of_nat (length ["x"; "1"]%char)) by (simpl; lia).
  split; [exact H1|]. split; [exact H2|]. split; [exact H3|].
  exact (decoders_fail_on_single_leaf "a" 0 ["x"; "1"]%char 0 2 newline 1 H1 H2 H3).
Defined.

Lemma leaf_codes_leaf c f q :
  leaf_codes (Node c f Null Null) q = [(c, q)].
Proof. done. Qed.

Lemma internal_not_leaf c f l r :
  internal (Node c f l r) = false → l = Null ∧ r = Null.
Proof. simpl. intros H. apply is_leaf_true. by destruct (is_leaf l r). Qed.

Lemma decode_step_child root sub out bit :
  internal sub = true →
  ∀ c f l r,
    (match sub with
     | Null => Null
     | Node _ _ l0 r0 => if bool_decide (bit = "0"%char) then l0 else r0
     end) = Node c f l r →
    decode_step root (sub, out) bit
    = if is_leaf l r then Some (root, out ++ [c]) else Some (Node c f l r, out).
Proof.
  intros Hi c f l r Hnext. unfold decode_step. cbn [fst snd].
  destruct sub as [|c0 f0 l0 r0]; [done|]. by rewrite Hnext.
Qed.

(** Walking down from an internal node [sub] along the rest of the code of a
    leaf below it: the whole rest emits the leaf and returns to the root; a
    proper part of it emits nothing and stops at an internal node. *)
Lemma walk root sub q c code out :
  internal sub = true → (c, code) ∈ leaf_codes sub q →
  ∃ suffix,
    code = q ++ suffix ∧ suffix ≠ []
    ∧ decode_loop root suffix (sub, out) = Some (root, out ++ [c])
    ∧ ∀ s1 s2, suffix = s1 ++ s2 → s2 ≠ [] →
        ∃ node, decode_loop root s1 (sub, out) = Some (node, out)
                ∧ internal node = true.
Proof.
  revert q. induction sub as [|c0 f0 l IHl r IHr]; intros q Hi Hin; [done|].
  cbn [leaf_codes] in Hin. simpl in Hi.
  destruct (is_leaf l r) eqn:Hleaf; [done|]. simpl in Hin.
  assert (Hsub : internal (Node c0 f0 l r) = true) by (simpl; by rewrite Hleaf).
  assert (Hstep : ∀ bit child q', child = (if bool_decide (bit = "0"%char) then l else r) →
      (internal child = true → (c, code) ∈ leaf_codes child q' →
       ∃ suffix, code = q' ++ suffix ∧ suffix ≠ []
         ∧ decode_loop root suffix (child, out) = Some (root, out ++ [c])
         ∧ ∀ s1 s2, suffix = s1 ++ s2 → s2 ≠ [] →
             ∃ node, decode_loop root s1 (child, out) = Some (node, out)
                     ∧ internal node = true) →
      q' = q ++ [bit] → (c, code) ∈ leaf_codes child q' →
      ∃ suffix, code = q ++ suffix ∧ suffix ≠ []
        ∧ decode_loop root suffix (Node c0 f0 l r, out) = Some (root, out ++ [c])
        ∧ ∀ s1 s2, suffix = s1 ++ s2 → s2 ≠ [] →
            ∃ node, decode_loop root s1 (Node c0 f0 l r, out) = Some (node, out)
                    ∧ internal node = true).
  { intros bit child q' Hchild IH -> Hc.
    destruct child as [|cc fc lc rc]; [by apply elem_of_nil in Hc|].
    pose proof (decode_step_child root (Node c0 f0 l r) out bit Hsub cc fc lc rc
                  (eq_sym Hchild)) as Hds.
    destruct (is_leaf lc rc) eqn:Hlc.
    - apply is_leaf_true in Hlc as [-> ->].
      rewrite leaf_codes_leaf in Hc. apply list_elem_of_singleton in Hc.
      injection Hc as -> ->.
      exists [bit]. split; [done|]. split; [done|]. split.
      + cbn [decode_loop]. by rewrite Hds.
      + intros [|b1 s1] s2 Heq Hs2.
        * by exists (Node c0 f0 l r).
        * injection Heq as _ Heq. by destruct s1, s2.
    - destruct IH as (suffix & -> & Hne & Hfull & Hpart);
        [simpl; by rewrite Hlc|done|].
      exists (bit :: suffix). split; [by rewrite <- app_assoc|]. split; [done|]. split.
      + cbn [decode_loop]. by rewrite Hds.
      + intros [|b1 s1] s2 Heq Hs2.
        * by exists (Node c0 f0 l r).
        * injection Heq as <- Heq. cbn [decode_loop]. rewrite Hds. simpl.
          by apply (Hpart s1 s2). }
  apply elem_of_app in Hin as [Hin|Hin].
  - apply (Hstep "0"%char l (q ++ ["0"%char])); try done. intros. by apply IHl.
  - apply (Hstep "1"%char r (q ++ ["1"%char])); try done. intros. by apply IHr.
Qed.

Section Decoding.

Variable root : HuffmanNode.
Hypothesis root_internal : internal root = true.

Let codeTable := createHuffmanCodes root [] ∅.

(** The code of a covered character, walked from the root, emits the
    character; the code is not empty. *)
Lemma decode_code c code out :
  codeTable !! c = Some code →
  code ≠ [] ∧ decode_loop root code (root, out) = Some (root, out ++ [c]).
Proof.
  intros Hc%createHuffmanCodes_lookup.
  destruct (walk root root [] c code out root_internal Hc)
    as (suffix & -> & Hne & Hfull & _).
  done.
Qed.

Lemma decode_proper_prefix c code partial out :
  codeTable !! c = Some code → partial `prefix_of` code → partial ≠ code →
  ∃ node, decode_loop root partial (root, out) = Some (node, out)
          ∧ internal node = true.
Proof.
  intros Hc%createHuffmanCodes_lookup [s2 Hs2] Hne.
  destruct (walk root root [] c code out root_internal Hc)
    as (suffix & -> & _ & _ & Hpart).
  apply (Hpart partial s2); [done|]. intros ->. by rewrite app_nil_r in Hs2.
Qed.

Lemma decode_loop_encode data out :
  covers codeTable data →
  decode_loop root (huffmanEncode data codeTable) (root, out)
  = Some (root, out ++ data).
Proof.
  revert out. induction data as [|x data IH]; intros out Hcov.
  - by rewrite huffmanEncode_nil, app_nil_r.
  - destruct (Hcov x) as [code Hx]; [apply list_elem_of_here|].
    rewrite huffmanEncode_cons, decode_loop_app. unfold code_of. rewrite Hx. simpl.
    destruct (decode_code x code out Hx) as [_ ->]. simpl.
    rewrite IH, <- app_assoc; [done|].
    intros c Hin. apply Hcov. by apply list_elem_of_further.
Qed.

(** Sequential decoding inverts encoding. *)
Lemma huffmanDecode_encode data :
  covers codeTable data →
  huffmanDecode root (huffmanEncode data codeTable) = Some data.
Proof.
  intros Hcov. unfold huffmanDecode. by rewrite decode_loop_encode.
Qed.

(** A payload that ends in the middle of a code word is decoded without
    complaint: the unfinished code word is dropped. *)
Lemma huffmanDecode_encode_partial data c code partial :
  covers codeTable data →
  codeTable !! c = Some code → partial `prefix_of` code → partial ≠ code →
  huffmanDecode root (huffmanEncode data codeTable ++ partial) = Some data.
Proof.
  intros Hcov Hc Hpre Hne. unfold huffmanDecode.
  rewrite decode_loop_app, decode_loop_encode by done. simpl.
  destruct (decode_proper_prefix c code partial data Hc Hpre Hne) as (node & -> & _).
  done.
Qed.

End Decoding.

(** Where the root has children the decoders read every character as the
    claim says: a payload that becomes the encoding of a buffer once every
    character other than '0' is replaced by '1' decodes to that buffer, in
    the sequential decoder and in a worker over the whole payload. *)
Lemma decoders_read_other_characters_as_one (root : HuffmanNode)
    (data payload : list ascii) :
  internal root = true →
  covers (createHuffmanCodes root [] ∅) data →
  as_bit <$> payload = huffmanEncode data (createHuffmanCodes root [] ∅) →
  huffmanDecode root payload = Some data
  ∧ threadedDecode payload root 0 (Z.of_nat (length payload)) = Some data.
Proof.
  intros Hi Hcov Hp.
  assert (H : huffmanDecode root payload = Some data).
  { rewrite <- huffmanDecode_as_bit, Hp. by apply huffmanDecode_encode. }
  split; [done|]. by rewrite threadedDecode_segment, segment_all by lia.
Qed.

(** On a strict tree whose root has children the decoders return a result
    for every payload and every range inside it, whatever its characters. *)
Lemma decoders_total_on_strict_tree (root : HuffmanNode) (payload : list ascii)
    (b e : Z) :
  strict root = true → internal root = true →
  0 ≤ b → b ≤ e → e ≤ Z.of_nat (length payload) →
  is_Some (huffmanDecode root payload)
  ∧ is_Some (threadedDecode payload root b e).
Proof.
  intros Hs Hi Hb Hbe He. split; [by apply huffmanDecode_total|].
  rewrite threadedDecode_segment by done. by apply huffmanDecode_total.
Qed.

(** ** Decoding a stripped tree *)

Lemma is_leaf_strip l r : is_leaf (strip l) (strip r) = is_leaf l r.
Proof. destruct l as [|? ? ll lr], r as [|? ? rl rr]; simpl; by repeat case_match. Qed.

Lemma decode_step_strip root cur acc bit :
  decode_step (strip root) (strip cur, acc) bit
  = (λ st, (strip st.1, st.2)) <$> decode_step root (cur, acc) bit.
Proof.
  unfold decode_step. cbn [fst snd].
  destruct cur as [|c f l r]; [done|]. cbn [strip].
  destruct (is_leaf l r) eqn:Hleaf.
  - apply is_leaf_true in Hleaf as [-> ->]. by case_bool_decide.
  - replace (if bool_decide (bit = "0"%char) then strip l else strip r)
      with (strip (if bool_decide (bit = "0"%char) then l else r))
      by (by case_bool_decide).
    destruct (if bool_decide (bit = "0"%char) then l else r) as [|c' f' l' r'];
      [done|].
    cbn [strip]. destruct (is_leaf l' r') eqn:Hleaf'; [done|].
    rewrite is_leaf_strip, Hleaf'. simpl. by rewrite Hleaf'.
Qed.

Lemma decode_loop_strip root text cur acc :
  decode_loop (strip root) text (strip cur, acc)
  = (λ st, (strip st.1, st.2)) <$> decode_loop root text (cur, acc).
Proof.
  revert cur acc. induction text as [|bit text IH]; intros cur acc; [done|].
  cbn [decode_loop]. rewrite decode_step_strip.
  destruct (decode_step root (cur, acc) bit) as [[cur' acc']|]; [|done].
  simpl. apply IH.
Qed.

(** The decoders read only the shape of the tree and the characters at its
    leaves: the tree read back from an artifact decodes like the tree that was
    written. *)
Lemma huffmanDecode_strip root text :
  huffmanDecode (strip root) text = huffmanDecode root text.
Proof.
  unfold huffmanDecode. rewrite decode_loop_strip.
  by destruct (decode_loop root text (root, [])).
Qed.

Lemma threaded_loop_strip n encoded root i cur acc :
  threaded_loop n encoded (strip root) i (strip cur, acc)
  = (λ st, (strip st.1, st.2)) <$> threaded_loop n encoded root i (cur, acc).
Proof.
  revert i cur acc. induction n as [|n IH]; intros i cur acc; [done|].
  cbn [threaded_loop]. destruct (string_at encoded i) as [bit|]; [|done]. simpl.
  rewrite decode_step_strip.
  destruct (decode_step root (cur, acc) bit) as [[cur' acc']|]; [|done].
  simpl. apply IH.
Qed.

Lemma threadedDecode_strip encoded root b e :
  threadedDecode encoded (strip root) b e = threadedDecode encoded root b e.
Proof.
  unfold threadedDecode. rewrite threaded_loop_strip.
  by destruct (threaded_loop _ encoded root b (root, [])).
Qed.

(** ** [decompressDataFile] on a written artifact *)

Lemma decode_worker_range payload root w i :
  1 ≤ w ≤ Int.INT_MAX → Z.of_nat (length payload) ≤ Int.INT_MAX →
  Z.of_nat i < w →
  decode_worker payload root w (Z.of_nat (length payload) `div` w) i
  = threadedDecode payload root
      (Z.of_nat i * (Z.of_nat (length payload) `div` w))
      (if bool_decide (Z.of_nat i = w - 1) then Z.of_nat (length payload)
       else Z.of_nat i * (Z.of_nat (length payload) `div` w)
            + Z.of_nat (length payload) `div` w).
Proof.
  intros Hw Hn Hi. unfold decode_worker.
  assert (0 ≤ Z.of_nat (length payload) `div` w) by (apply Z.div_pos; lia).
  assert (w * (Z.of_nat (length payload) `div` w) ≤ Z.of_nat (length payload))
    by (apply Z.mul_div_le; lia).
  rewrite worker_range_some by lia. done.
Qed.

Lemma mapM_ext_in {A B} (f g : A → option B) (l : list A) :
  (∀ x, x ∈ l → f x = g x) → mapM f l = mapM g l.
Proof.
  induction l as [|x l IH]; intros H; [done|].
  cbn [mapM]. rewrite (H x) by apply list_elem_of_here.
  rewrite IH; [done|]. intros y Hy. apply H. by apply list_elem_of_further.
Qed.

Lemma mapM_fmap_list {A B C} (f : B → option C) (g : A → B) (l : list A) :
  mapM f (g <$> l) = mapM (f ∘ g) l.
Proof. induction l as [|x l IH]; [done|]. cbn [fmap list_fmap mapM]. by rewrite IH. Qed.

(** What [decompressDataFile] writes for an artifact made of a strict tree,
    the separator and a payload. *)
Lemma decompressDataFile_artifact root payload w :
  strict root = true →
  1 ≤ w ≤ Int.INT_MAX → Z.of_nat (length payload) ≤ Int.INT_MAX →
  decompressDataFile (writeHuffmanTree root ++ newline :: payload) w
  = (huffmanDecode root payload
     ≫= λ _, decode_ranges payload root (worker_ranges (Z.of_nat (length payload)) w)).
Proof.
  intros Hs Hw Hn. unfold decompressDataFile.
  rewrite (readHuffmanTree_write root (newline :: payload) Hs).
  cbn [mbind option_bind fst snd tail]. rewrite huffmanDecode_strip.
  destruct (huffmanDecode root payload) as [decodedST|]; [|done].
  cbn [mbind option_bind]. rewrite int_size_div_pos by done.
  cbn [mbind option_bind]. rewrite bool_decide_eq_false_2 by lia.
  rewrite int_of_size_id.
  2:{ assert (0 ≤ Z.of_nat (length payload) `div` w) by (apply Z.div_pos; lia).
      assert (w * (Z.of_nat (length payload) `div` w) ≤ Z.of_nat (length payload))
        by (apply Z.mul_div_le; lia).
      unfold Int.INT_MIN, Int.INT_MAX in *. nia. }
  unfold decode_ranges, worker_ranges. rewrite mapM_fmap_list.
  rewrite (mapM_ext_in (decode_worker payload (strip root) w
                          (Z.of_nat (length payload) `div` w))
             ((λ r : Z * Z, threadedDecode payload root r.1 r.2)
              ∘ (λ i : nat,
                   (Z.of_nat i * (Z.of_nat (length payload) `div` w),
                    if bool_decide (Z.of_nat i = w - 1) then Z.of_nat (length payload)
                    else Z.of_nat i * (Z.of_nat (length payload) `div` w)
                         + Z.of_nat (length payload) `div` w)))); [done|].
  intros i Hi. unfold worker_ids in Hi. apply elem_of_seq in Hi.
  rewrite decode_worker_range by lia. simpl. apply threadedDecode_strip.
Qed.

(** With one worker the output is the sequential decoding of the payload. *)
Lemma decompressDataFile_single_thread root payload :
  strict root = true → Z.of_nat (length payload) ≤ Int.INT_MAX →
  decompressDataFile (writeHuffmanTree root ++ newline :: payload) 1
  = huffmanDecode root payload.
Proof.
  intros Hs Hn. rewrite decompressDataFile_artifact by (done || by vm_compute).
  unfold decode_ranges, worker_ranges, worker_ids. simpl.
  rewrite Z.div_1_r. rewrite threadedDecode_segment, segment_all by lia.
  destruct (huffmanDecode root payload) as [out|]; [|done]. simpl.
  by rewrite app_nil_r.
Qed.

(** ** Truncated payloads *)

Lemma snoc_inv {A} (l : list A) : l ≠ [] → ∃ l' x, l = l' ++ [x].
Proof. induction l as [|x l' _] using rev_ind; [done|]. eauto. Qed.

(** C6 (amended): the decoders have no failure path for a payload that ends in
    the middle of a code word.  For every tree whose root has children and
    every non-empty buffer its code table covers, the payload cut by one bit
    is decoded, without any error, to the buffer without its last byte: by
    [huffmanDecode], by a worker on the whole range and, for a strict tree and
    a payload of at most [INT_MAX] bits, by [decompressDataFile] with one
    worker on the artifact with the cut payload. *)
Theorem truncated_payload_decodes_silently (root : HuffmanNode) (data : list ascii) :
  strict root = true → internal root = true →
  covers (createHuffmanCodes root [] ∅) data →
  data ≠ [] →
  Z.of_nat (length (huffmanEncode data (createHuffmanCodes root [] ∅))) ≤ Int.INT_MAX →
  let payload := removelast (huffmanEncode data (createHuffmanCodes root [] ∅)) in
  huffmanDecode root payload = Some (removelast data)
  ∧ threadedDecode payload root 0 (Z.of_nat (length payload)) = Some (removelast data)
  ∧ decompressDataFile (writeHuffmanTree root ++ newline :: payload) 1
    = Some (removelast data).
Proof.
  intros Hs Hi Hcov Hne Hlen payload.
  destruct (snoc_inv data Hne) as (data' & x & ->).
  assert (Hcov' : covers (createHuffmanCodes root [] ∅) data').
  { intros c Hc. apply Hcov. apply elem_of_app. by left. }
  destruct (Hcov x) as [code Hx]; [apply elem_of_app; right; apply list_elem_of_here|].
  destruct (decode_code root Hi x code [] Hx) as [Hcode _].
  destruct (snoc_inv code Hcode) as (partial & bit & ->).
  assert (Hpayload : payload
      = huffmanEncode data' (createHuffmanCodes root [] ∅) ++ partial).
  { unfold payload. rewrite huffmanEncode_app, huffmanEncode_cons, huffmanEncode_nil.
    unfold code_of. rewrite Hx. simpl. rewrite app_nil_r, app_assoc.
    apply removelast_last. }
  assert (Hseq : huffmanDecode root payload = Some (removelast (data' ++ [x]))).
  { rewrite removelast_last, Hpayload.
    apply (huffmanDecode_encode_partial root Hi data' x (partial ++ [bit]) partial);
      try done.
    - by apply prefix_app_r.
    - intros Heq. apply (f_equal length) in Heq. rewrite length_app in Heq.
      simpl in Heq. lia. }
  assert (Hshort : Z.of_nat (length payload) ≤ Int.INT_MAX).
  { rewrite Hpayload. revert Hlen.
    rewrite huffmanEncode_app, huffmanEncode_cons, huffmanEncode_nil.
    unfold code_of. rewrite Hx. simpl. rewrite !length_app. simpl. lia. }
  split; [done|]. split.
  - rewrite threadedDecode_segment, segment_all by lia. done.
  - by rewrite decompressDataFile_single_thread.
Qed.

Lemma truncated_payload_decodes_silently_witness :
  strict example_tree = true ∧ internal example_tree = true
  ∧ covers (createHuffmanCodes example_tree [] ∅) ["a"; "b"; "c"]%char
  ∧ ["a"; "b"; "c"]%char ≠ []
  ∧ Z.of_nat (length (huffmanEncode ["a"; "b"; "c"]%char
                        (createHuffmanCodes example_tree [] ∅))) ≤ Int.INT_MAX
  ∧ (let payload := removelast (huffmanEncode ["a"; "b"; "c"]%char
                                  (createHuffmanCodes example_tree [] ∅)) in
     huffmanDecode example_tree payload = Some (removelast ["a"; "b"; "c"]%char)
     ∧ threadedDecode payload example_tree 0 (Z.of_nat (length payload))
       = Some (removelast ["a"; "b"; "c"]%char)
     ∧ decompressDataFile (writeHuffmanTree example_tree ++ newline :: payload) 1
       = Some (removelast ["a"; "b"; "c"]%char)).
Proof.
  assert (Hcov : covers (createHuffmanCodes example_tree [] ∅) ["a"; "b"; "c"]%char).
  { intros c Hc. repeat (apply elem_of_cons in Hc as [->|Hc]; [by eexists|]).
    by apply elem_of_nil in Hc. }
  split; [reflexivity|]. split; [reflexivity|]. split; [exact Hcov|].
  split; [discriminate|]. split; [vm_compute; discriminate|].
  apply truncated_payload_decodes_silently;
    [reflexivity|reflexivity|exact Hcov|discriminate|vm_compute; discriminate].
Defined.

(** C6, as stated, fails: the payload of "ab" under [example_tree] is 010; cut
    to 01 it is decoded to "a", by [huffmanDecode] and by [decompressDataFile],
    and no failure is reported. *)
Lemma truncated_payload_counterexample :
  huffmanEncode ["a"; "b"]%char (createHuffmanCodes example_tree [] ∅)
  = ["0"; "1"; "0"]%char
  ∧ huffmanDecode example_tree ["0"; "1"; "0"]%char = Some ["a"; "b"]%char
  ∧ huffmanDecode example_tree (removelast ["0"; "1"; "0"]%char) = Some ["a"%char]
  ∧ decompressDataFile
      (writeHuffmanTree example_tree ++ newline :: removelast ["0"; "1"; "0"]%char) 1
    = Some ["a"%char].
Proof. repeat split; reflexivity. Qed.

(** ** Partitioned decoding *)

Lemma segment_middle (a b c : list ascii) :
  segment (a ++ b ++ c) (Z.of_nat (length a)) (Z.of_nat (length a + length b)) = b.
Proof.
  rewrite segment_nat. rewrite drop_app_length.
  replace (length a + length b - length a)%nat with (length b) by lia.
  by rewrite take_app_length.
Qed.

Lemma huffmanEncode_take_le tbl data (k1 k2 : nat) :
  (k1 ≤ k2)%nat →
  (length (huffmanEncode (take k1 data) tbl)
   ≤ length (huffmanEncode (take k2 data) tbl))%nat.
Proof.
  intros Hk. replace k2 with (k1 + (k2 - k1))%nat by lia.
  rewrite <- take_take_drop, huffmanEncode_app, length_app. lia.
Qed.

Section Partitioned.

Variable root : HuffmanNode.
Hypothesis root_internal : internal root = true.
Variable data : list ascii.
Hypothesis data_covered : covers (createHuffmanCodes root [] ∅) data.

Let codeTable := createHuffmanCodes root [] ∅.
Let encoded := huffmanEncode data codeTable.

Lemma covers_sublist (d : list ascii) : d ⊆ data → covers codeTable d.
Proof. intros Hsub c Hc. apply data_covered. by apply Hsub. Qed.

Lemma covered_code_nonempty d :
  covers codeTable d → huffmanEncode d codeTable = [] → d = [].
Proof.
  intros Hcov. destruct d as [|x d]; [done|].
  rewrite huffmanEncode_cons. destruct (Hcov x) as [code Hx]; [apply list_elem_of_here|].
  unfold code_of. rewrite Hx. simpl.
  destruct (decode_code root root_internal x code [] Hx) as [Hne _].
  by destruct code.
Qed.

(** A range between two code-word boundaries holds the code words of the
    characters between them. *)
Lemma segment_encoded (k1 k2 : nat) :
  (k1 ≤ k2)%nat →
  segment encoded
    (Z.of_nat (length (huffmanEncode (take k1 data) codeTable)))
    (Z.of_nat (length (huffmanEncode (take k2 data) codeTable)))
  = huffmanEncode (take (k2 - k1) (drop k1 data)) codeTable.
Proof.
  intros Hk. unfold encoded.
  assert (Htake : take k2 data = take k1 data ++ take (k2 - k1) (drop k1 data)).
  { rewrite take_take_drop. f_equal. lia. }
  assert (Hdata : data = take k1 data ++ take (k2 - k1) (drop k1 data) ++ drop k2 data).
  { rewrite app_assoc, <- Htake. by rewrite take_drop. }
  rewrite Htake.
  set (A := take k1 data) in *. set (B := take (k2 - k1) (drop k1 data)) in *.
  rewrite Hdata, !huffmanEncode_app, length_app.
  rewrite <- Nat2Z.inj_add || idtac. apply segment_middle.
Qed.

Lemma decode_ranges_aligned ranges (k : nat) :
  contiguous (Z.of_nat (length (huffmanEncode (take k data) codeTable))) ranges
    (Z.of_nat (length encoded)) →
  aligned codeTable data ranges →
  decode_ranges encoded root ranges = Some (drop k data).
Proof.
  revert k. induction ranges as [|[b e] ranges IH]; intros k Hcont Hal.
  - simpl in Hcont. unfold decode_ranges. simpl. f_equal. symmetry.
    apply (covered_code_nonempty (drop k data)).
    + apply covers_sublist. apply subseteq_drop.
    + apply nil_length_inv. unfold encoded in Hcont.
      rewrite <- (take_drop k data) in Hcont at 2.
      rewrite huffmanEncode_app, length_app in Hcont. lia.
  - cbn [contiguous fst snd] in Hcont. destruct Hcont as (-> & Hbe & Hcont).
    destruct (Hal (Z.of_nat (length (huffmanEncode (take k data) codeTable)), e))
      as [_ [k' Hk']]; [apply list_elem_of_here|]. cbn [snd] in Hk'.
    set (k2 := (k `max` k')%nat).
    assert (He : e = Z.of_nat (length (huffmanEncode (take k2 data) codeTable))).
    { unfold k2. destruct (Nat.max_spec k k') as [[Hlt ->]|[Hle ->]]; [done|].
      pose proof (huffmanEncode_take_le codeTable data k' k Hle). lia. }
    assert (Hk2 : (k ≤ k2)%nat) by (unfold k2; lia).
    assert (Hle2 : (length (huffmanEncode (take k2 data) codeTable)
                    ≤ length encoded)%nat).
    { unfold encoded. rewrite <- (firstn_all data) at 2.
      destruct (decide (k2 ≤ length data)%nat).
      - by apply huffmanEncode_take_le.
      - rewrite (take_ge data k2) by lia. by rewrite firstn_all. }
    unfold decode_ranges. cbn [mapM fst snd]. rewrite He.
    rewrite threadedDecode_segment by lia.
    rewrite segment_encoded by done.
    rewrite (huffmanDecode_encode root root_internal).
    2:{ apply covers_sublist. intros c Hc. apply (subseteq_drop k data).
        by apply (elem_of_sublist _ _ _ Hc), sublist_take. }
    cbn [mbind option_bind].
    specialize (IH k2). unfold decode_ranges in IH.
    rewrite He in Hcont.
    destruct (mapM (λ r : Z * Z, threadedDecode encoded root r.1 r.2) ranges)
      as [segs|] eqn:Hsegs.
    + cbn [mbind option_bind mret option_ret fmap option_fmap option_map].
      rewrite concat_cons. f_equal.
      assert (Hrest : Some (concat segs) = Some (drop k2 data)).
      { apply IH; [done|]. intros r Hr. apply Hal. by apply list_elem_of_further. }
      injection Hrest as ->.
      replace k2 with (k + (k2 - k))%nat at 2 by lia.
      rewrite <- drop_drop. apply take_drop.
    + exfalso. assert (Hrest : None = Some (drop k2 data)); [|done].
      apply IH; [done|]. intros r Hr. apply Hal. by apply list_elem_of_further.
Qed.

End Partitioned.

(** ** What a decoded range consumed *)

Lemma descend_app t p1 p2 : descend t (p1 ++ p2) = descend (descend t p1) p2.
Proof.
  revert t. induction p1 as [|bit p1 IH]; intros t; [done|].
  destruct t as [|c f l r]; simpl.
  - by destruct p2.
  - apply IH.
Qed.

Lemma descend_leaf_codes t p q c f :
  descend t p = Node c f Null Null → (c, q ++ (as_bit <$> p)) ∈ leaf_codes t q.
Proof.
  revert t q. induction p as [|bit p IH]; intros t q Hd.
  - simpl in Hd. subst t. rewrite app_nil_r. apply list_elem_of_here.
  - destruct t as [|c0 f0 l r]; [done|]. cbn [descend] in Hd.
    cbn [leaf_codes fmap list_fmap]. apply elem_of_app. right.
    apply elem_of_app. destruct (decide (bit = "0"%char)) as [->|Hne].
    + rewrite bool_decide_eq_true_2 in Hd by done. left.
      change (as_bit "0") with "0"%char.
      replace (q ++ "0"%char :: (as_bit <$> p))
        with ((q ++ ["0"%char]) ++ (as_bit <$> p)) by (by rewrite <- app_assoc).
      by apply IH.
    + rewrite bool_decide_eq_false_2 in Hd by done. right.
      replace (as_bit bit) with "1"%char
        by (unfold as_bit; by rewrite bool_decide_eq_false_2).
      replace (q ++ "1"%char :: (as_bit <$> p))
        with ((q ++ ["1"%char]) ++ (as_bit <$> p)) by (by rewrite <- app_assoc).
      by apply IH.
Qed.

Lemma foldl_insert_notin (l : list (ascii * list ascii))
    (m : gmap ascii (list ascii)) k :
  k ∉ l.*1 → foldl (λ m kv, <[kv.1 := kv.2]> m) m l !! k = m !! k.
Proof.
  revert m. induction l as [|[k' v'] l IH]; intros m Hk; [done|].
  rewrite fmap_cons in Hk. apply not_elem_of_cons in Hk as [Hne Hk].
  simpl. rewrite IH by done. by rewrite lookup_insert_ne.
Qed.

Lemma foldl_insert_in (l : list (ascii * list ascii))
    (m : gmap ascii (list ascii)) k v :
  NoDup l.*1 → (k, v) ∈ l →
  foldl (λ m kv, <[kv.1 := kv.2]> m) m l !! k = Some v.
Proof.
  revert m. induction l as [|[k' v'] l IH]; intros m Hnd Hin.
  - by apply elem_of_nil in Hin.
  - rewrite fmap_cons in Hnd. apply NoDup_cons in Hnd as [Hk Hnd].
    apply elem_of_cons in Hin as [Heq|Hin].
    + injection Heq as <- <-. simpl. rewrite foldl_insert_notin by done.
      apply lookup_insert_eq.
    + simpl. by apply IH.
Qed.

(** With distinct leaves the table holds, for the character of every leaf,
    the path to that leaf. *)
Lemma createHuffmanCodes_leaf t c code :
  distinct_leaves t → (c, code) ∈ leaf_codes t [] →
  createHuffmanCodes t [] ∅ !! c = Some code.
Proof.
  intros Hnd Hin. rewrite createHuffmanCodes_leaf_codes. by apply foldl_insert_in.
Qed.

Section Consumed.

Variable root : HuffmanNode.
Hypothesis root_internal : internal root = true.
Hypothesis root_distinct : distinct_leaves root.

Let codeTable := createHuffmanCodes root [] ∅.

(** Where a decoding loop stops, the bits read so far are those of the code
    words of the characters emitted, plus the bits of the code word under
    way. *)
Lemma decode_loop_consumed text cur acc p node out :
  descend root p = cur → internal cur = true →
  decode_loop root text (cur, acc) = Some (node, out) →
  ∃ out' q,
    out = acc ++ out' ∧ descend root q = node ∧ internal node = true
    ∧ (length p + length text
       = length (huffmanEncode out' codeTable) + length q)%nat.
Proof.
  revert cur acc p. induction text as [|bit text IH]; intros cur acc p Hp Hi Hloop.
  - simpl in Hloop. injection Hloop as <- <-.
    exists [], p. rewrite app_nil_r, huffmanEncode_nil. simpl.
    repeat split; try done; lia.
  - cbn [decode_loop] in Hloop.
    destruct (decode_step root (cur, acc) bit) as [st'|] eqn:Hstep; [|done].
    simpl in Hloop. unfold decode_step in Hstep. cbn [fst snd] in Hstep.
    destruct cur as [|c0 f0 l r]; [done|].
    assert (Hchild : descend root (p ++ [bit])
                     = (if bool_decide (bit = "0"%char) then l else r))
      by (rewrite descend_app, Hp; done).
    destruct (if bool_decide (bit = "0"%char) then l else r) as [|c f l' r'];
      [done|].
    destruct (is_leaf l' r') eqn:Hleaf.
    + apply is_leaf_true in Hleaf as [-> ->]. injection Hstep as <-.
      apply (descend_leaf_codes root (p ++ [bit]) []) in Hchild.
      apply (createHuffmanCodes_leaf root) in Hchild; [|done].
      destruct (IH root (acc ++ [c]) [] eq_refl root_internal Hloop)
        as (out' & q & -> & Hq & Hqi & Hlen).
      exists (c :: out'), q. rewrite <- app_assoc. repeat split; try done.
      rewrite huffmanEncode_cons, length_app. unfold code_of, codeTable.
      rewrite Hchild. simpl. rewrite length_fmap, length_app.
      unfold codeTable in *. simpl in *. lia.
    + injection Hstep as <-.
      destruct (IH (Node c f l' r') acc (p ++ [bit]) Hchild) as
        (out' & q & -> & Hq & Hqi & Hlen); [simpl; by rewrite Hleaf|done|].
      exists out', q. repeat split; try done.
      rewrite length_app in Hlen. simpl in *. lia.
Qed.

(** A decoded range is at least as long as the code words of what it
    emitted. *)
Lemma huffmanDecode_consumed text out :
  huffmanDecode root text = Some out →
  (length (huffmanEncode out codeTable) ≤ length text)%nat.
Proof.
  unfold huffmanDecode. intros H.
  destruct (decode_loop root text (root, [])) as [[node out0]|] eqn:Hloop; [|done].
  simpl in H. injection H as ->.
  destruct (decode_loop_consumed text root [] [] node out eq_refl root_internal Hloop)
    as (out' & q & -> & _ & _ & Hlen).
  simpl in Hlen. simpl. lia.
Qed.

End Consumed.

Lemma contiguous_le from ranges to : contiguous from ranges to → from ≤ to.
Proof.
  revert from. induction ranges as [|r ranges IH]; intros from; simpl.
  - lia.
  - intros (<- & Hle & Hc). apply IH in Hc. lia.
Qed.

Lemma segment_length (data : list ascii) b e :
  0 ≤ b → b ≤ e → e ≤ Z.of_nat (length data) →
  Z.of_nat (length (segment data b e)) = e - b.
Proof.
  intros Hb Hbe He. unfold segment. rewrite length_take, length_drop. lia.
Qed.

Lemma mapM_cons_Some {A B} (f : A → option B) x l ys :
  mapM f (x :: l) = Some ys →
  ∃ y ys', ys = y :: ys' ∧ f x = Some y ∧ mapM f l = Some ys'.
Proof.
  cbn [mapM]. destruct (f x) as [y|]; [|done]. simpl.
  destruct (mapM f l) as [ys'|]; [|done]. simpl. intros [= <-]. eauto.
Qed.

Section Exact.

Variable root : HuffmanNode.
Hypothesis root_internal : internal root = true.
Hypothesis root_distinct : distinct_leaves root.
Variable encoded : list ascii.

Let codeTable := createHuffmanCodes root [] ∅.

(** Ranges decoded one by one emit no more code words than they hold bits;
    when they emit exactly as many, every range boundary is the end of a code
    word of the concatenated output. *)
Lemma decode_ranges_exact ranges from to segs :
  contiguous from ranges to → 0 ≤ from → to ≤ Z.of_nat (length encoded) →
  mapM (λ r : Z * Z, threadedDecode encoded root r.1 r.2) ranges = Some segs →
  from + Z.of_nat (length (huffmanEncode (concat segs) codeTable)) ≤ to
  ∧ (from + Z.of_nat (length (huffmanEncode (concat segs) codeTable)) = to →
     ∀ r, r ∈ ranges →
       (∃ j : nat, r.1 = from + Z.of_nat (length (huffmanEncode
                                   (take j (concat segs)) codeTable)))
       ∧ (∃ j : nat, r.2 = from + Z.of_nat (length (huffmanEncode
                                     (take j (concat segs)) codeTable)))).
Proof.
  revert from segs. induction ranges as [|[b e] ranges IH];
    intros from segs Hcont Hfrom Hto Hsegs.
  - simpl in Hcont, Hsegs. injection Hsegs as <-. simpl. split; [lia|].
    intros _ r Hr. by apply elem_of_nil in Hr.
  - cbn [contiguous fst snd] in Hcont. destruct Hcont as (-> & Hbe & Hcont).
    apply mapM_cons_Some in Hsegs as (seg & segs' & -> & Hseg & Hsegs').
    cbn [fst snd] in Hseg. pose proof (contiguous_le _ _ _ Hcont) as Hle.
    rewrite threadedDecode_segment in Hseg by lia.
    apply (huffmanDecode_consumed root root_internal root_distinct) in Hseg.
    fold codeTable in Hseg.
    pose proof (segment_length encoded from e Hfrom Hbe ltac:(lia)) as Hlen.
    destruct (IH e segs' Hcont ltac:(lia) Hto Hsegs') as [Hineq Heq].
    rewrite concat_cons, huffmanEncode_app, length_app.
    split; [lia|]. intros Htot r Hr.
    assert (He : e = from + Z.of_nat (length (huffmanEncode seg codeTable))) by lia.
    apply elem_of_cons in Hr as [->|Hr]; cbn [fst snd].
    + split.
      * exists 0%nat. simpl. lia.
      * exists (length seg). by rewrite take_app_length.
    + destruct (Heq ltac:(lia) r Hr) as [[j1 Hj1] [j2 Hj2]]. split.
      * exists (length seg + j1)%nat.
        rewrite take_app_add', huffmanEncode_app, length_app by done. lia.
      * exists (length seg + j2)%nat.
        rewrite take_app_add', huffmanEncode_app, length_app by done. lia.
Qed.

End Exact.

Lemma worker_ranges_contiguous_from size w (k m : nat) :
  0 ≤ size → 1 ≤ w → Z.of_nat k + Z.of_nat m = w → (1 ≤ m)%nat →
  contiguous (Z.of_nat k * (size `div` w))
    ((λ i : nat,
        (Z.of_nat i * (size `div` w),
         if bool_decide (Z.of_nat i = w - 1) then size
         else Z.of_nat i * (size `div` w) + size `div` w)) <$> seq k m)
    size.
Proof.
  intros Hsize Hw. revert k.
  assert (Hs : 0 ≤ size `div` w) by (apply Z.div_pos; lia).
  assert (Hws : w * (size `div` w) ≤ size) by (apply Z.mul_div_le; lia).
  induction m as [|m IH]; intros k Hkm Hm; [lia|].
  cbn [seq fmap list_fmap contiguous fst snd]. split; [done|].
  destruct m as [|m].
  - rewrite bool_decide_eq_true_2 by lia. split; [nia|]. done.
  - rewrite bool_decide_eq_false_2 by lia. split; [lia|].
    replace (Z.of_nat k * (size `div` w) + size `div` w)
      with (Z.of_nat (S k) * (size `div` w)) by lia.
    apply IH; lia.
Qed.

(** The ranges of the workers of [decompressDataFile] split the payload into
    contiguous ranges. *)
Lemma worker_ranges_contiguous size w :
  0 ≤ size → 1 ≤ w → contiguous 0 (worker_ranges size w) size.
Proof.
  intros Hsize Hw. unfold worker_ranges, worker_ids.
  apply (worker_ranges_contiguous_from size w 0 (Z.to_nat w)); lia.
Qed.

Section Alignment.

Variable root : HuffmanNode.
Hypothesis root_internal : internal root = true.
Hypothesis root_distinct : distinct_leaves root.
Variable data : list ascii.
Hypothesis data_covered : covers (createHuffmanCodes root [] ∅) data.

Let codeTable := createHuffmanCodes root [] ∅.
Let encoded := huffmanEncode data codeTable.

(** Decoding the ranges of a contiguous split one by one gives the buffer
    exactly when every boundary of the split is a code-word boundary. *)
Lemma decode_ranges_correct_iff ranges :
  contiguous 0 ranges (Z.of_nat (length encoded)) →
  aligned codeTable data ranges ↔ decode_ranges encoded root ranges = Some data.
Proof.
  intros Hcont. split.
  - intros Hal.
    apply (decode_ranges_aligned root root_internal data data_covered ranges 0);
      done.
  - unfold decode_ranges. intros Hdec.
    destruct (mapM (λ r : Z * Z, threadedDecode encoded root r.1 r.2) ranges)
      as [segs|] eqn:Hsegs; [|done].
    simpl in Hdec. injection Hdec as Hdata.
    destruct (decode_ranges_exact root root_internal root_distinct encoded ranges
                0 (Z.of_nat (length encoded)) segs Hcont ltac:(lia) ltac:(lia) Hsegs)
      as [_ Hexact].
    rewrite Hdata in Hexact. fold codeTable encoded in Hexact.
    intros r Hr. destruct (Hexact ltac:(lia) r Hr) as [[j1 Hj1] [j2 Hj2]].
    split; [exists j1|exists j2]; lia.
Qed.

End Alignment.

(** C2: for a tree with distinct leaves whose root has children, a buffer its
    code table covers, and any split of the encoded sequence into contiguous
    ranges: if every range boundary is a code-word boundary of the encoding,
    the concatenation of the root-relative decodes of the ranges
    ([threadedDecode]) is the sequential decode ([huffmanDecode]), which is
    the buffer; and only then.  In particular the output of
    [decompressDataFile], which splits at multiples of [floor(len/W)], is the
    sequential decode if and only if those indices are code-word boundaries. *)
Theorem partitioned_decode_iff_aligned (root : HuffmanNode) (data : list ascii)
    (ranges : list (Z * Z)) (W : Z) :
  let codeTable := createHuffmanCodes root [] ∅ in
  let encoded := huffmanEncode data codeTable in
  strict root = true → internal root = true → distinct_leaves root →
  covers codeTable data →
  contiguous 0 ranges (Z.of_nat (length encoded)) →
  1 ≤ W ≤ Int.INT_MAX → Z.of_nat (length encoded) ≤ Int.INT_MAX →
  huffmanDecode root encoded = Some data
  ∧ (aligned codeTable data ranges
     ↔ decode_ranges encoded root ranges = huffmanDecode root encoded)
  ∧ (aligned codeTable data (worker_ranges (Z.of_nat (length encoded)) W)
     ↔ decompressDataFile (writeHuffmanTree root ++ newline :: encoded) W
       = huffmanDecode root encoded).
Proof.
  intros codeTable encoded Hs Hi Hd Hcov Hcont HW Hlen.
  assert (Hseq : huffmanDecode root encoded = Some data)
    by (by apply huffmanDecode_encode).
  split; [done|]. rewrite Hseq. split.
  - by apply decode_ranges_correct_iff.
  - rewrite decompressDataFile_artifact by done. fold encoded. rewrite Hseq.
    cbn [mbind option_bind].
    apply decode_ranges_correct_iff; try done.
    apply worker_ranges_contiguous; lia.
Qed.

Lemma partitioned_decode_iff_aligned_witness :
  let codeTable := createHuffmanCodes example_tree [] ∅ in
  let encoded := huffmanEncode ["a"; "b"; "c"]%char codeTable in
  strict example_tree = true ∧ internal example_tree = true
  ∧ distinct_leaves example_tree
  ∧ covers codeTable ["a"; "b"; "c"]%char
  ∧ contiguous 0 [(0, 1); (1, 5)] (Z.of_nat (length encoded))
  ∧ 1 ≤ 2 ≤ Int.INT_MAX ∧ Z.of_nat (length encoded) ≤ Int.INT_MAX
  ∧ huffmanDecode example_tree encoded = Some ["a"; "b"; "c"]%char
  ∧ (aligned codeTable ["a"; "b"; "c"]%char [(0, 1); (1, 5)]
     ↔ decode_ranges encoded example_tree [(0, 1); (1, 5)]
       = huffmanDecode example_tree encoded)
  ∧ (aligned codeTable ["a"; "b"; "c"]%char
       (worker_ranges (Z.of_nat (length encoded)) 2)
     ↔ decompressDataFile (writeHuffmanTree example_tree ++ newline :: encoded) 2
       = huffmanDecode example_tree encoded).
Proof.
  intros codeTable encoded.
  assert (Hcov : covers codeTable ["a"; "b"; "c"]%char).
  { intros c Hc. repeat (apply elem_of_cons in Hc as [->|Hc]; [by eexists|]).
    by apply elem_of_nil in Hc. }
  assert (Hd : distinct_leaves example_tree).
  { unfold distinct_leaves. simpl. repeat apply NoDup_cons_2; try apply NoDup_nil_2;
      rewrite ?elem_of_cons, elem_of_nil; intros H; repeat destruct H as [H|H];
      done. }
  assert (Hcont : contiguous 0 [(0, 1); (1, 5)] (Z.of_nat (length encoded))).
  { simpl. repeat split; lia. }
  assert (HW : 1 ≤ 2 ≤ Int.INT_MAX) by (unfold Int.INT_MAX; lia).
  assert (Hlen : Z.of_nat (length encoded) ≤ Int.INT_MAX)
    by (vm_compute; discriminate).
  split; [reflexivity|]. split; [reflexivity|]. split; [exact Hd|].
  split; [exact Hcov|]. split; [exact Hcont|]. split; [exact HW|].
  split; [exact Hlen|].
  exact (partitioned_decode_iff_aligned example_tree ["a"; "b"; "c"]%char
           [(0, 1); (1, 5)] 2 eq_refl eq_refl Hd Hcov Hcont HW Hlen).
Defined.

(** ** The reference priority queue *)

Lemma extract_min_spec q :
  match extract_min q with
  | None => q = []
  | Some (x, rest) =>
      x :: rest ≡ₚ q ∧ Forall (λ y, HuffmanCompare x y = false) q
  end.
Proof.
  induction q as [|x q IH]; [done|]. cbn [extract_min].
  destruct (extract_min q) as [[y rest]|].
  - destruct IH as [Hperm Hmin].
    destruct (HuffmanCompare x y) eqn:Hxy.
    + split.
      * rewrite <- Hperm. apply perm_swap.
      * constructor; [|done].
        unfold HuffmanCompare in *. apply bool_decide_eq_true in Hxy.
        apply bool_decide_eq_false. lia.
    + split; [done|]. constructor.
      * unfold HuffmanCompare. apply bool_decide_eq_false. lia.
      * unfold HuffmanCompare in *. apply bool_decide_eq_false in Hxy.
        eapply Forall_impl; [exact Hmin|]. intros z Hz. simpl in Hz.
        apply bool_decide_eq_false in Hz. apply bool_decide_eq_false. lia.
  - subst q. split; [done|]. repeat constructor.
    unfold HuffmanCompare. apply bool_decide_eq_false. lia.
Qed.

Lemma list_queue_top_spec (q : list HuffmanNode) :
  match fst <$> extract_min q with
  | None => q = []
  | Some x =>
      x :: from_option snd [] (extract_min q) ≡ₚ q
      ∧ Forall (λ y, HuffmanCompare x y = false) q
  end.
Proof.
  pose proof (extract_min_spec q) as H.
  by destruct (extract_min q) as [[x rest]|].
Qed.

#[export] Instance ListQueue : PriorityQueue := {|
  pq := list HuffmanNode;
  pq_new := [];
  pq_push x q := x :: q;
  pq_top q := fst <$> extract_min q;
  pq_pop q := from_option snd [] (extract_min q);
  pq_size q := length q;
  pq_elements q := q;
  pq_new_spec := eq_refl;
  pq_push_spec x q := reflexivity (x :: q);
  pq_size_spec q := eq_refl;
  pq_top_spec := list_queue_top_spec
|}.

(** ** Building the tree *)

Section Builder.

Context {PQ : PriorityQueue}.
Variable iterate : nat → gmap ascii Z → list (ascii * Z).
Hypothesis iterate_perm : visits_entries iterate.

Lemma pq_top_empty q : pq_elements q = [] → pq_top q = None.
Proof.
  intros Hq. pose proof (pq_top_spec q) as H.
  destruct (pq_top q) as [x|]; [|done]. destruct H as [H _].
  rewrite Hq in H. symmetry in H. by apply Permutation_nil_cons in H.
Qed.

Lemma pq_top_nonempty q :
  pq_elements q ≠ [] →
  ∃ x, pq_top q = Some x
       ∧ x :: pq_elements (pq_pop q) ≡ₚ pq_elements q
       ∧ Forall (λ y, HuffmanCompare x y = false) (pq_elements q).
Proof.
  intros Hq. pose proof (pq_top_spec q) as H.
  destruct (pq_top q) as [x|]; [|done]. by exists x.
Qed.

Lemma push_all_elements (l : list (ascii * Z)) q :
  pq_elements (foldl (λ q pair, pq_push (Node pair.1 pair.2 Null Null) q) q l)
  ≡ₚ (leaf_of <$> l) ++ pq_elements q.
Proof.
  revert q. induction l as [|p l IH]; intros q; [done|].
  cbn [foldl]. rewrite IH, pq_push_spec. simpl.
  by rewrite Permutation_middle.
Qed.

(** The queue after lines 157-158 holds one leaf per entry of the map. *)
Lemma push_leaves_elements freqMap :
  pq_elements (push_leaves iterate freqMap) ≡ₚ leaf_of <$> map_to_list freqMap.
Proof.
  unfold push_leaves. rewrite push_all_elements, pq_new_spec, app_nil_r.
  by rewrite (iterate_perm 0%nat).
Qed.

Lemma iterate_empty id : iterate id ∅ = [].
Proof.
  apply Permutation_nil. symmetry. rewrite (iterate_perm id).
  by rewrite map_to_list_empty.
Qed.

(** On an empty frequency map the queue is empty and [minHeap.top()] has no
    defined result. *)
Lemma buildHuffmanTree_empty : buildHuffmanTree iterate ∅ = None.
Proof.
  unfold buildHuffmanTree, push_leaves. rewrite iterate_empty. cbn [foldl].
  destruct (pq_size pq_new) as [|n] eqn:Hsize;
    rewrite pq_size_spec, pq_new_spec in Hsize; [|done].
  cbn [merge_nodes]. rewrite pq_size_spec, pq_new_spec. simpl.
  apply pq_top_empty, pq_new_spec.
Qed.

(** On a map with one entry the tree is the leaf of that entry. *)
Lemma buildHuffmanTree_singleton c k :
  buildHuffmanTree iterate {[c := k]} = Some (Node c k Null Null).
Proof.
  unfold buildHuffmanTree.
  pose proof (push_leaves_elements {[c := k]}) as Hel.
  rewrite map_to_list_singleton in Hel. simpl in Hel.
  set (q := push_leaves iterate {[c := k]}) in *.
  assert (Hsize : pq_size q = 1%nat).
  { rewrite pq_size_spec. by rewrite Hel. }
  rewrite Hsize. cbn [merge_nodes]. rewrite Hsize. simpl.
  destruct (pq_top_nonempty q) as (x & -> & Hperm & _).
  { intros Hq. rewrite Hq in Hel. by apply Permutation_nil_cons in Hel. }
  f_equal. rewrite Hel in Hperm.
  assert (Hin : x ∈ [leaf_of (c, k)]) by (rewrite <- Hperm; apply list_elem_of_here).
  by apply list_elem_of_singleton in Hin.
Qed.

End Builder.

(** ** Degenerate inputs *)

Section Degenerate.

Context {PQ : PriorityQueue}.
Variable iterate : nat → gmap ascii Z → list (ascii * Z).
Hypothesis iterate_perm : visits_entries iterate.

Lemma worker_range_empty w i r :
  worker_range 0 w 0 i = Some r → r = (0, 0).
Proof.
  unfold worker_range, Int.mul. rewrite Z.mul_0_r.
  change (Int.checked 0) with (Some 0). change (Int.add 0 0) with (Some 0).
  change (Int.of_size 0) with 0.
  cbn [mbind option_bind]. destruct (Int.sub w 1) as [last|]; [|done].
  cbn [mbind option_bind]. case_bool_decide; by intros [= <-].
Qed.

Lemma run_workers_empty w sched g m :
  run_workers iterate [] w 0 sched g = Some m → m = g.
Proof.
  revert g. induction sched as [|i sched IH]; intros g; [by intros [= <-]|].
  cbn [run_workers length]. change (Z.of_nat 0) with 0.
  destruct (worker_range 0 w 0 (Z.of_nat i)) as [r|] eqn:Hr; [|done].
  apply worker_range_empty in Hr as ->. cbn [mbind option_bind fst snd].
  unfold countFrequencyThread. change (Z.to_nat (0 - 0)) with 0%nat.
  cbn [count_loop mbind option_bind]. rewrite (iterate_empty iterate iterate_perm (S i)).
  cbn [merge_loop mbind option_bind]. apply IH.
Qed.

(** On the empty buffer the workers count nothing. *)
Lemma countFrequencyParallel_empty w sched m :
  countFrequencyParallel iterate [] w sched = Some m → m = ∅.
Proof.
  unfold countFrequencyParallel, Int.size_div. cbn [length].
  case_bool_decide; [done|]. change (Z.of_nat 0) with 0. rewrite Z.div_0_l by done.
  cbn [mbind option_bind]. change (Int.of_size 0) with 0. apply run_workers_empty.
Qed.

End Degenerate.

(** C5, on the code: [compressDataFile] has no short-circuit for the empty
    buffer.  The frequency map is empty, no leaf is pushed, and
    [minHeap.top()] is called on the empty queue: the call has no defined
    result, for every thread count and schedule. *)
Theorem compress_empty_input_undefined `{PQ : PriorityQueue}
    (iterate : nat → gmap ascii Z → list (ascii * Z)) (threadCount : Z)
    (sched : list nat) :
  visits_entries iterate →
  compressDataFile iterate [] threadCount sched = None.
Proof.
  intros Hperm. unfold compressDataFile.
  destruct (countFrequencyParallel iterate [] threadCount sched) as [m|] eqn:Hm;
    [|done].
  apply (countFrequencyParallel_empty iterate Hperm) in Hm as ->.
  cbn [mbind option_bind countFrequencySingle].
  by rewrite (buildHuffmanTree_empty iterate Hperm).
Qed.

Lemma compress_empty_input_undefined_witness :
  visits_entries key_order
  ∧ compressDataFile (PQ := ListQueue) key_order [] 4 [0; 1; 2; 3]%nat = None.
Proof.
  split; [exact key_order_visits|].
  apply compress_empty_input_undefined. exact key_order_visits.
Defined.

Lemma tally_replicate n c :
  tally (replicate (S n) c) ∅ = {[ c := Z.of_nat (S n) ]}.
Proof.
  apply map_eq. intros x. rewrite tally_lookup, occurrences_replicate, lookup_empty.
  destruct (decide (c = x)) as [<-|Hne].
  - rewrite lookup_singleton_eq.
    destruct (decide (c ∈ replicate (S n) c)) as [_|Hn]; [done|].
    destruct Hn. apply list_elem_of_here.
  - rewrite lookup_singleton_ne by done.
    destruct (decide (x ∈ replicate (S n) c)) as [Hin|_]; [|done].
    apply elem_of_replicate in Hin as [-> _]. done.
Qed.

Lemma huffmanEncode_empty_code n c :
  huffmanEncode (replicate n c) {[ c := [] ]} = [].
Proof.
  induction n as [|n IH]; [done|].
  cbn [replicate]. rewrite huffmanEncode_cons, IH. unfold code_of.
  by rewrite lookup_singleton_eq.
Qed.

Lemma mapM_const {A B} (f : A → option B) (l : list A) y :
  (∀ x, x ∈ l → f x = Some y) → mapM f l = Some (replicate (length l) y).
Proof.
  induction l as [|x l IH]; intros H; [done|].
  cbn [mapM]. rewrite (H x) by apply list_elem_of_here.
  rewrite IH; [done|]. intros z Hz. apply H. by apply list_elem_of_further.
Qed.

Lemma concat_replicate_nil {A} n : concat (replicate n (@nil A)) = [].
Proof. induction n as [|n IH]; [done|]. done. Qed.

(** On an empty payload every decoding worker returns the empty string. *)
Lemma decode_ranges_empty_payload root w :
  1 ≤ w → decode_ranges [] root (worker_ranges 0 w) = Some [].
Proof.
  intros Hw. unfold decode_ranges.
  rewrite (mapM_const _ _ []).
  - simpl. by rewrite concat_replicate_nil.
  - intros r Hr. unfold worker_ranges in Hr. apply list_elem_of_fmap in Hr as (i & -> & _).
    rewrite Z.div_0_l by lia. rewrite !Z.mul_0_r. cbn [fst snd].
    by case_bool_decide.
Qed.

(** C4, on the code: for a buffer of [n+1] copies of one byte the tree is a
    single leaf, but [createHuffmanCodes] gives that byte the empty code (the
    code accumulated at the root is ""), so [huffmanEncode] produces no bit at
    all, the artifact holds only the tree and the separator, and
    [decompressDataFile] returns the empty buffer.  A stream of one '0' per
    byte is not decoded against the leaf either: the first step dereferences
    the null child of the leaf. *)
Theorem single_symbol_input_gets_empty_code `{PQ : PriorityQueue}
    (iterate : nat → gmap ascii Z → list (ascii * Z)) (c : ascii) (n : nat)
    (W : Z) (sched : list nat) :
  visits_entries iterate →
  1 ≤ W ≤ Int.INT_MAX →
  Z.of_nat (S n) ≤ Int.INT_MAX →
  schedule W sched →
  let data := replicate (S n) c in
  let root := Node c (Z.of_nat (S n)) Null Null in
  countFrequencyParallel iterate data W sched = Some {[ c := Z.of_nat (S n) ]}
  ∧ buildHuffmanTree iterate {[ c := Z.of_nat (S n) ]} = Some root
  ∧ createHuffmanCodes root [] ∅ = {[ c := [] ]}
  ∧ huffmanEncode data (createHuffmanCodes root [] ∅) = []
  ∧ compressDataFile iterate data W sched = Some ["1"%char; c; newline]
  ∧ decompressDataFile ["1"%char; c; newline] W = Some []
  ∧ huffmanDecode root (replicate (S n) "0"%char) = None.
Proof.
  intros Hperm HW Hn Hsched data root.
  assert (Hlen : Z.of_nat (length data) ≤ Int.INT_MAX).
  { unfold data. by rewrite length_replicate. }
  assert (Hpar : countFrequencyParallel iterate data W sched
                 = Some {[ c := Z.of_nat (S n) ]}).
  { unfold data at 1. rewrite <- tally_replicate. by apply countFrequencyParallel_tally. }
  assert (Hbuild : buildHuffmanTree iterate {[ c := Z.of_nat (S n) ]} = Some root)
    by (by apply buildHuffmanTree_singleton).
  assert (Hcodes : createHuffmanCodes root [] ∅ = {[ c := [] ]}) by done.
  assert (Henc : huffmanEncode data (createHuffmanCodes root [] ∅) = []).
  { rewrite Hcodes. apply huffmanEncode_empty_code. }
  repeat split; try done.
  - unfold compressDataFile. rewrite Hpar. cbn [mbind option_bind].
    rewrite countFrequencySingle_tally_empty by done. cbn [mbind option_bind].
    rewrite Hbuild. cbn [mbind option_bind]. by rewrite Henc.
  - change ["1"%char; c; newline]
      with (writeHuffmanTree (Node c 0 Null Null) ++ newline :: []).
    rewrite decompressDataFile_artifact by (done || (simpl; unfold Int.INT_MAX; lia)).
    simpl length. change (Z.of_nat 0) with 0.
    rewrite decode_ranges_empty_payload by lia. done.
Qed.

Lemma single_symbol_input_gets_empty_code_witness :
  visits_entries key_order
  ∧ 1 ≤ 2 ≤ Int.INT_MAX
  ∧ Z.of_nat 3 ≤ Int.INT_MAX
  ∧ schedule 2 [1; 0]%nat
  ∧ (let data := replicate 3 "a"%char in
     let root := Node "a" (Z.of_nat 3) Null Null in
     countFrequencyParallel key_order data 2 [1; 0]%nat
     = Some {[ "a"%char := Z.of_nat 3 ]}
     ∧ buildHuffmanTree (PQ := ListQueue) key_order {[ "a"%char := Z.of_nat 3 ]}
       = Some root
     ∧ createHuffmanCodes root [] ∅ = {[ "a"%char := [] ]}
     ∧ huffmanEncode data (createHuffmanCodes root [] ∅) = []
     ∧ compressDataFile (PQ := ListQueue) key_order data 2 [1; 0]%nat
       = Some ["1"%char; "a"%char; newline]
     ∧ decompressDataFile ["1"%char; "a"%char; newline] 2 = Some []
     ∧ huffmanDecode root (replicate 3 "0"%char) = None).
Proof.
  assert (H1 : visits_entries key_order) by exact key_order_visits.
  assert (H2 : 1 ≤ 2 ≤ Int.INT_MAX) by (unfold Int.INT_MAX; lia).
  assert (H3 : Z.of_nat 3 ≤ Int.INT_MAX) by (unfold Int.INT_MAX; lia).
  assert (H4 : schedule 2 [1; 0]%nat) by apply perm_swap.
  split; [exact H1|]. split; [exact H2|]. split; [exact H3|]. split; [exact H4|].
  exact (single_symbol_input_gets_empty_code (PQ := ListQueue) key_order "a"%char 2
           2 [1; 0]%nat H1 H2 H3 H4).
Defined.

(** ** The tree built by [compressDataFile] *)

Lemma leaf_codes_leaves t p : (leaf_codes t p).*1 = leaves t.
Proof.
  revert p. induction t as [|c f l IHl r IHr]; intros p; [done|].
  cbn [leaf_codes leaves]. rewrite !fmap_app, IHl, IHr.
  by destruct (is_leaf l r).
Qed.

Lemma total_frequency_perm l1 l2 :
  l1 ≡ₚ l2 → total_frequency l1 = total_frequency l2.
Proof. induction 1; simpl; lia. Qed.

Lemma forest_inv_perm n keys l1 l2 :
  l1 ≡ₚ l2 → forest_inv n keys l1 → forest_inv n keys l2.
Proof.
  intros Hp (Hall & Htot & Hleaves). split; [|split].
  - by rewrite <- Hp.
  - by rewrite <- (total_frequency_perm _ _ Hp).
  - by rewrite <- Hp.
Qed.

Lemma strict_not_null t : strict t = true → ∃ c f l r, t = Node c f l r.
Proof. destruct t as [|c f l r]; [done|]. eauto. Qed.

Lemma total_frequency_nonneg l :
  Forall (λ t, strict t = true ∧ 0 ≤ frequency_of t) l → 0 ≤ total_frequency l.
Proof. induction 1 as [|t l [_ Ht] _ IH]; simpl; lia. Qed.

Lemma strict_node c f l r :
  strict l = true → strict r = true → strict (Node c f l r) = true.
Proof. cbn [strict]. intros -> ->. apply orb_true_r. Qed.

(** Merging the two trees on top keeps the invariant. *)
Lemma forest_inv_merge n keys x y rest :
  forest_inv n keys (x :: y :: rest) →
  ∃ cx fx lx rx cy fy ly ry,
    x = Node cx fx lx rx ∧ y = Node cy fy ly ry
    ∧ 0 ≤ fx + fy ≤ n
    ∧ forest_inv n keys (Node nul (fx + fy) x y :: rest).
Proof.
  intros (Hall & Htot & Hleaves).
  apply Forall_cons in Hall as [[Hsx Hfx] Hall].
  apply Forall_cons in Hall as [[Hsy Hfy] Hall].
  destruct (strict_not_null x Hsx) as (cx & fx & lx & rx & ->).
  destruct (strict_not_null y Hsy) as (cy & fy & ly & ry & ->).
  pose proof (total_frequency_nonneg rest Hall) as Hrest.
  cbn [total_frequency frequency_of] in *.
  exists cx, fx, lx, rx, cy, fy, ly, ry. split; [done|]. split; [done|].
  split; [lia|]. split; [|split].
  - constructor; [|done]. split; [|simpl; lia].
    by apply strict_node.
  - cbn [total_frequency frequency_of]. lia.
  - rewrite <- Hleaves. cbn [fmap list_fmap concat leaves is_leaf].
    by rewrite !app_assoc.
Qed.

Section BuilderInvariant.

Context {PQ : PriorityQueue}.
Variable iterate : nat → gmap ascii Z → list (ascii * Z).
Hypothesis iterate_perm : visits_entries iterate.

(** The merging loop ends with a queue of one tree, and the invariant holds
    for it; no addition of frequencies overflows. *)
Lemma merge_nodes_inv n keys fuel q :
  n ≤ Int.INT_MAX →
  forest_inv n keys (pq_elements q) →
  (1 ≤ pq_size q ≤ S fuel)%nat →
  ∃ q', merge_nodes fuel q = Some q'
        ∧ pq_size q' = 1%nat
        ∧ forest_inv n keys (pq_elements q').
Proof.
  intros Hn. revert q. induction fuel as [|fuel IH]; intros q Hinv Hsize.
  - exists q. cbn [merge_nodes]. rewrite bool_decide_eq_true_2 by lia.
    split; [done|]. split; [lia|done].
  - cbn [merge_nodes]. case_bool_decide as Hle.
    { exists q. split; [done|]. split; [lia|done]. }
    rewrite pq_size_spec in Hsize, Hle.
    destruct (pq_top_nonempty q) as (x & -> & Hx & _).
    { intros Hq. rewrite Hq in Hle. simpl in Hle. lia. }
    cbn [mbind option_bind].
    assert (Hlen1 : length (pq_elements q) = S (length (pq_elements (pq_pop q))))
      by (by rewrite <- Hx).
    destruct (pq_top_nonempty (pq_pop q)) as (y & -> & Hy & _).
    { intros Hq. rewrite Hq in Hlen1. simpl in Hlen1. lia. }
    cbn [mbind option_bind].
    assert (Hlen2 : length (pq_elements (pq_pop q))
                    = S (length (pq_elements (pq_pop (pq_pop q)))))
      by (by rewrite <- Hy).
    assert (Hperm : x :: y :: pq_elements (pq_pop (pq_pop q)) ≡ₚ pq_elements q)
      by (by rewrite Hy).
    apply (forest_inv_perm _ _ _ _ (symmetry Hperm)) in Hinv.
    destruct (forest_inv_merge _ _ _ _ _ Hinv)
      as (cx & fx & lx & rx & cy & fy & ly & ry & -> & -> & Hf & Hinv').
    unfold Int.add. rewrite int_checked_some by (unfold Int.INT_MIN; lia).
    cbn [mbind option_bind]. apply IH.
    + eapply forest_inv_perm; [|exact Hinv']. symmetry. apply pq_push_spec.
    + rewrite pq_size_spec, pq_push_spec. simpl. lia.
Qed.

End BuilderInvariant.

Lemma total_frequency_leaves data (l : list (ascii * Z)) :
  (∀ c v, (c, v) ∈ l → v = Z.of_nat (occurrences c data)) →
  total_frequency (leaf_of <$> l)
  = Z.of_nat (sum_list_with (λ c, occurrences c data * 1)%nat l.*1).
Proof.
  induction l as [|[c v] l IH]; intros H; [done|].
  cbn [fmap list_fmap total_frequency sum_list_with leaf_of frequency_of fst snd].
  rewrite IH by (intros c' v' Hin; apply H; by right).
  rewrite (H c v) by left. lia.
Qed.

Lemma sum_occurrences_le data (keys : list ascii) :
  NoDup keys →
  (sum_list_with (λ c, occurrences c data * 1) keys ≤ length data)%nat.
Proof.
  intros Hnd. induction data as [|x data IH].
  - induction keys as [|c keys IHk]; [done|].
    apply NoDup_cons in Hnd as [_ Hnd]. cbn [sum_list_with]. specialize (IHk Hnd).
    simpl in *. lia.
  - rewrite (sum_occurrences_cons (λ _, 1%nat)) by done.
    destruct (decide (x ∈ keys)); simpl; lia.
Qed.

Lemma leaves_leaf_of (l : list (ascii * Z)) :
  concat (leaves <$> (leaf_of <$> l)) = l.*1.
Proof.
  induction l as [|[c v] l IH]; [done|].
  cbn [fmap list_fmap concat leaf_of leaves is_leaf app fst snd]. by rewrite IH.
Qed.

Lemma tally_entry data c v :
  tally data ∅ !! c = Some v → c ∈ data ∧ v = Z.of_nat (occurrences c data).
Proof.
  rewrite tally_lookup, lookup_empty.
  destruct (decide (c ∈ data)); [|done]. simpl. by intros [= <-].
Qed.

Lemma tally_covers data c : c ∈ data → is_Some (tally data ∅ !! c).
Proof.
  intros Hc. rewrite tally_lookup.
  destruct (decide (c ∈ data)); [by eexists|done].
Qed.

(** The leaves pushed for the frequency map of a buffer satisfy the
    invariant. *)
Lemma forest_inv_initial data :
  forest_inv (Z.of_nat (length data)) (map_to_list (tally data ∅)).*1
    (leaf_of <$> map_to_list (tally data ∅)).
Proof.
  assert (Hentries : ∀ c v, (c, v) ∈ map_to_list (tally data ∅) →
                            v = Z.of_nat (occurrences c data)).
  { intros c v Hin%elem_of_map_to_list. by apply tally_entry in Hin as [_ ->]. }
  split; [|split].
  - apply Forall_fmap, Forall_forall. intros [c v] Hin. simpl.
    rewrite (Hentries c v Hin). split; [done|lia].
  - rewrite (total_frequency_leaves data) by done.
    pose proof (sum_occurrences_le data (map_to_list (tally data ∅)).*1
                  (NoDup_fst_map_to_list _)). lia.
  - by rewrite leaves_leaf_of.
Qed.

Lemma leaves_not_internal t :
  strict t = true → internal t = false → ∃ c, leaves t = [c].
Proof.
  destruct t as [|c f l r]; [done|]. intros _ Hi.
  apply internal_not_leaf in Hi as [-> ->]. by exists c.
Qed.

Section CompressedArtifact.

Context {PQ : PriorityQueue}.
Variable iterate : nat → gmap ascii Z → list (ascii * Z).
Hypothesis iterate_perm : visits_entries iterate.

(** The tree built for a non-empty buffer: a strict tree with one leaf for
    each distinct character of the buffer. *)
Lemma buildHuffmanTree_spec data :
  data ≠ [] → Z.of_nat (length data) ≤ Int.INT_MAX →
  ∃ root, buildHuffmanTree iterate (tally data ∅) = Some root
          ∧ strict root = true
          ∧ leaves root ≡ₚ (map_to_list (tally data ∅)).*1.
Proof.
  intros Hne Hlen. unfold buildHuffmanTree.
  set (q := push_leaves iterate (tally data ∅)).
  pose proof (push_leaves_elements iterate iterate_perm (tally data ∅)) as Hel.
  fold q in Hel.
  assert (Hinv : forest_inv (Z.of_nat (length data))
                   (map_to_list (tally data ∅)).*1 (pq_elements q)).
  { eapply forest_inv_perm; [symmetry; exact Hel|]. apply forest_inv_initial. }
  assert (Hsize : (1 ≤ pq_size q)%nat).
  { rewrite pq_size_spec, Hel, length_fmap.
    destruct data as [|x data]; [done|].
    destruct (tally_covers (x :: data) x) as [v Hv]; [apply list_elem_of_here|].
    apply elem_of_map_to_list in Hv.
    destruct (map_to_list (tally (x :: data) ∅)); [by apply elem_of_nil in Hv|].
    simpl. lia. }
  destruct (merge_nodes_inv _ _ (pq_size q) q Hlen Hinv ltac:(lia))
    as (q' & -> & Hsize' & Hall & _ & Hleaves).
  cbn [mbind option_bind].
  rewrite pq_size_spec in Hsize'.
  destruct (pq_elements q') as [|root [|? ?]] eqn:Hq'; try done.
  destruct (pq_top_nonempty q') as (x & -> & Hperm & _); [by rewrite Hq'|].
  rewrite Hq' in Hperm.
  assert (Hin : x ∈ [root]) by (rewrite <- Hperm; apply list_elem_of_here).
  apply list_elem_of_singleton in Hin as ->.
  exists root. split; [done|]. apply Forall_cons in Hall as [[Hs _] _].
  split; [done|]. simpl in Hleaves. by rewrite app_nil_r in Hleaves.
Qed.

(** What [compressDataFile] writes for a buffer with at least two distinct
    characters: a strict tree with distinct leaves whose root has children,
    the separator, and the encoding of the buffer under the code table of
    that tree, which covers the buffer. *)
Lemma compressDataFile_artifact data W sched a b :
  1 ≤ W ≤ Int.INT_MAX → Z.of_nat (length data) ≤ Int.INT_MAX →
  schedule W sched →
  a ∈ data → b ∈ data → a ≠ b →
  ∃ root,
    compressDataFile iterate data W sched
    = Some (writeHuffmanTree root ++ newline
              :: huffmanEncode data (createHuffmanCodes root [] ∅))
    ∧ strict root = true ∧ internal root = true ∧ distinct_leaves root
    ∧ covers (createHuffmanCodes root [] ∅) data.
Proof.
  intros HW Hlen Hsched Ha Hb Hab.
  assert (Hne : data ≠ []) by (intros ->; by apply elem_of_nil in Ha).
  destruct (buildHuffmanTree_spec data Hne Hlen) as (root & Hbuild & Hs & Hleaves).
  exists root.
  assert (Hkey : ∀ c, c ∈ data → c ∈ leaves root).
  { intros c Hc. rewrite Hleaves. apply list_elem_of_fmap.
    destruct (tally_covers data c Hc) as [v Hv]. exists (c, v).
    split; [done|]. by apply elem_of_map_to_list. }
  assert (Hd : distinct_leaves root).
  { unfold distinct_leaves. rewrite leaf_codes_leaves, Hleaves.
    apply NoDup_fst_map_to_list. }
  split; [|split; [done|split; [|split; [done|]]]].
  - unfold compressDataFile.
    rewrite (countFrequencyParallel_tally iterate data W sched) by done.
    cbn [mbind option_bind]. rewrite countFrequencySingle_tally_empty by done.
    cbn [mbind option_bind]. rewrite Hbuild. done.
  - destruct (internal root) eqn:Hi; [done|].
    destruct (leaves_not_internal root Hs Hi) as [c Hc].
    pose proof (Hkey a Ha) as Ha'. pose proof (Hkey b Hb) as Hb'.
    rewrite Hc in Ha', Hb'. apply list_elem_of_singleton in Ha', Hb'. congruence.
  - intros c Hc. apply Hkey in Hc. rewrite <- leaf_codes_leaves with (p := []) in Hc.
    apply list_elem_of_fmap in Hc as ([c' code] & -> & Hin).
    exists code. by apply createHuffmanCodes_leaf.
Qed.

End CompressedArtifact.

(** ** Round trip *)

(** X25: where the round trip does hold: a buffer with at least two distinct
    characters, compressed with any number of counting workers and
    decompressed with one decoding worker, comes back unchanged, provided the
    lengths fit an [int]. *)
Theorem roundtrip_one_decoding_worker `{PQ : PriorityQueue}
    (iterate : nat → gmap ascii Z → list (ascii * Z)) (data : list ascii)
    (W : Z) (sched : list nat) (a b : ascii) :
  visits_entries iterate →
  1 ≤ W ≤ Int.INT_MAX → Z.of_nat (length data) ≤ Int.INT_MAX →
  schedule W sched →
  a ∈ data → b ∈ data → a ≠ b →
  ∃ artifact,
    compressDataFile iterate data W sched = Some artifact
    ∧ (Z.of_nat (length artifact) ≤ Int.INT_MAX →
       decompressDataFile artifact 1 = Some data).
Proof.
  intros Hperm HW Hlen Hsched Ha Hb Hab.
  destruct (compressDataFile_artifact iterate Hperm data W sched a b)
    as (root & -> & Hs & Hi & Hd & Hcov); try done.
  eexists. split; [done|]. intros Hart.
  rewrite length_app in Hart. cbn [length] in Hart.
  rewrite decompressDataFile_single_thread by (done || lia).
  by apply huffmanDecode_encode.
Qed.

Lemma roundtrip_one_decoding_worker_witness :
  visits_entries key_order
  ∧ 1 ≤ 2 ≤ Int.INT_MAX
  ∧ Z.of_nat (length (String.list_ascii_of_string "abbcccc")) ≤ Int.INT_MAX
  ∧ schedule 2 [1; 0]%nat
  ∧ "a"%char ∈ String.list_ascii_of_string "abbcccc"
  ∧ "b"%char ∈ String.list_ascii_of_string "abbcccc"
  ∧ "a"%char ≠ "b"%char
  ∧ ∃ artifact,
      compressDataFile (PQ := ListQueue) key_order
        (String.list_ascii_of_string "abbcccc") 2 [1; 0]%nat = Some artifact
      ∧ (Z.of_nat (length artifact) ≤ Int.INT_MAX →
         decompressDataFile artifact 1
         = Some (String.list_ascii_of_string "abbcccc")).
Proof.
  assert (H1 : visits_entries key_order) by exact key_order_visits.
  assert (H2 : 1 ≤ 2 ≤ Int.INT_MAX) by (unfold Int.INT_MAX; lia).
  assert (H3 : Z.of_nat (length (String.list_ascii_of_string "abbcccc"))
               ≤ Int.INT_MAX) by (vm_compute; discriminate).
  assert (H4 : schedule 2 [1; 0]%nat) by apply perm_swap.
  assert (H5 : "a"%char ∈ String.list_ascii_of_string "abbcccc")
    by (simpl; apply list_elem_of_here).
  assert (H6 : "b"%char ∈ String.list_ascii_of_string "abbcccc")
    by (simpl; apply list_elem_of_further, list_elem_of_here).
  assert (H7 : "a"%char ≠ "b"%char) by discriminate.
  split; [exact H1|]. split; [exact H2|]. split; [exact H3|]. split; [exact H4|].
  split; [exact H5|]. split; [exact H6|]. split; [exact H7|].
  exact (roundtrip_one_decoding_worker (PQ := ListQueue) key_order _ 2 [1; 0]%nat
           "a"%char "b"%char H1 H2 H3 H4 H5 H6 H7).
Defined.

(** X26: with [W'] decoding workers the buffer comes back exactly when the
    indices at which [decompressDataFile] cuts the payload are code-word
    boundaries. *)
Theorem roundtrip_iff_aligned `{PQ : PriorityQueue}
    (iterate : nat → gmap ascii Z → list (ascii * Z)) (data : list ascii)
    (W W' : Z) (sched : list nat) (a b : ascii) :
  visits_entries iterate →
  1 ≤ W ≤ Int.INT_MAX → Z.of_nat (length data) ≤ Int.INT_MAX →
  schedule W sched →
  a ∈ data → b ∈ data → a ≠ b →
  1 ≤ W' ≤ Int.INT_MAX →
  ∃ root artifact,
    compressDataFile iterate data W sched = Some artifact
    ∧ artifact = writeHuffmanTree root ++ newline
                   :: huffmanEncode data (createHuffmanCodes root [] ∅)
    ∧ (Z.of_nat (length artifact) ≤ Int.INT_MAX →
       (decompressDataFile artifact W' = Some data
        ↔ aligned (createHuffmanCodes root [] ∅) data
            (worker_ranges
               (Z.of_nat (length (huffmanEncode data (createHuffmanCodes root [] ∅))))
               W'))).
Proof.
  intros Hperm HW Hlen Hsched Ha Hb Hab HW'.
  destruct (compressDataFile_artifact iterate Hperm data W sched a b)
    as (root & -> & Hs & Hi & Hd & Hcov); try done.
  exists root. eexists. split; [done|]. split; [done|]. intros Hart.
  rewrite length_app in Hart. cbn [length] in Hart.
  rewrite decompressDataFile_artifact by (done || lia).
  rewrite (huffmanDecode_encode root Hi data Hcov). cbn [mbind option_bind].
  symmetry. apply decode_ranges_correct_iff; try done.
  apply worker_ranges_contiguous; lia.
Qed.

Lemma roundtrip_iff_aligned_witness :
  let data := String.list_ascii_of_string "abbcccc" in
  visits_entries key_order
  ∧ 1 ≤ 2 ≤ Int.INT_MAX
  ∧ Z.of_nat (length data) ≤ Int.INT_MAX
  ∧ schedule 2 [1; 0]%nat
  ∧ "a"%char ∈ data ∧ "b"%char ∈ data ∧ "a"%char ≠ "b"%char
  ∧ 1 ≤ 2 ≤ Int.INT_MAX
  ∧ ∃ root artifact,
      compressDataFile (PQ := ListQueue) key_order data 2 [1; 0]%nat = Some artifact
      ∧ artifact = writeHuffmanTree root ++ newline
                     :: huffmanEncode data (createHuffmanCodes root [] ∅)
      ∧ (Z.of_nat (length artifact) ≤ Int.INT_MAX →
         (decompressDataFile artifact 2 = Some data
          ↔ aligned (createHuffmanCodes root [] ∅) data
              (worker_ranges
                 (Z.of_nat (length (huffmanEncode data (createHuffmanCodes root [] ∅))))
                 2))).
Proof.
  intros data.
  assert (H1 : visits_entries key_order) by exact key_order_visits.
  assert (H2 : 1 ≤ 2 ≤ Int.INT_MAX) by (unfold Int.INT_MAX; lia).
  assert (H3 : Z.of_nat (length data) ≤ Int.INT_MAX) by (vm_compute; discriminate).
  assert (H4 : schedule 2 [1; 0]%nat) by apply perm_swap.
  assert (H5 : "a"%char ∈ data) by (simpl; apply list_elem_of_here).
  assert (H6 : "b"%char ∈ data)
    by (simpl; apply list_elem_of_further, list_elem_of_here).
  assert (H7 : "a"%char ≠ "b"%char) by discriminate.
  split; [exact H1|]. split; [exact H2|]. split; [exact H3|]. split; [exact H4|].
  split; [exact H5|]. split; [exact H6|]. split; [exact H7|]. split; [exact H2|].
  exact (roundtrip_iff_aligned (PQ := ListQueue) key_order data 2 2 [1; 0]%nat
           "a"%char "b"%char H1 H2 H3 H4 H5 H6 H7 H2).
Defined.

(** ** A tree every priority queue builds alike *)

Section Determined.

Context {PQ : PriorityQueue}.

(** An element of strictly least frequency is the top, whatever the
    implementation. *)
Lemma pq_top_least q x rest :
  pq_elements q ≡ₚ x :: rest →
  Forall (λ y, frequency_of x < frequency_of y) rest →
  pq_top q = Some x ∧ pq_elements (pq_pop q) ≡ₚ rest.
Proof.
  intros Hq Hleast.
  destruct (pq_top_nonempty q) as (t & Ht & Hperm & Hmin).
  { intros Hnil. rewrite Hnil in Hq. by apply Permutation_nil_cons in Hq. }
  assert (Htx : t = x).
  { assert (Hin : t ∈ x :: rest) by (rewrite <- Hq, <- Hperm; apply list_elem_of_here).
    apply elem_of_cons in Hin as [->|Hin]; [done|]. exfalso.
    rewrite Forall_forall in Hleast, Hmin.
    specialize (Hleast t Hin).
    assert (Hx : x ∈ pq_elements q) by (rewrite Hq; apply list_elem_of_here).
    specialize (Hmin x Hx). unfold HuffmanCompare in Hmin.
    apply bool_decide_eq_false in Hmin. lia. }
  subst t. split; [done|].
  rewrite Hq in Hperm. by apply Permutation_cons_inv in Hperm.
Qed.

(** One iteration of the merging loop when the two least frequencies are
    strictly least. *)
Lemma merge_nodes_step fuel q cx fx lx rx cy fy ly ry rest :
  pq_elements q ≡ₚ Node cx fx lx rx :: Node cy fy ly ry :: rest →
  fx < fy → Forall (λ z, fy < frequency_of z) rest →
  Int.INT_MIN ≤ fx + fy ≤ Int.INT_MAX →
  ∃ q', merge_nodes (S fuel) q = merge_nodes fuel q'
        ∧ pq_elements q'
          ≡ₚ Node nul (fx + fy) (Node cx fx lx rx) (Node cy fy ly ry) :: rest.
Proof.
  intros Hq Hxy Hrest Hrange.
  destruct (pq_top_least q _ _ Hq) as [Htop Hpop].
  { constructor; [done|]. eapply Forall_impl; [exact Hrest|]. simpl. lia. }
  destruct (pq_top_least (pq_pop q) _ _ Hpop Hrest) as [Htop' Hpop'].
  eexists. split.
  - cbn [merge_nodes]. rewrite bool_decide_eq_false_2.
    2:{ rewrite pq_size_spec, Hq. simpl. lia. }
    rewrite Htop. cbn [mbind option_bind]. rewrite Htop'. cbn [mbind option_bind].
    unfold Int.add. rewrite int_checked_some by done. cbn [mbind option_bind]. done.
  - by rewrite pq_push_spec, Hpop'.
Qed.

Lemma merge_nodes_done fuel q r :
  pq_elements q ≡ₚ [r] → merge_nodes fuel q = Some q ∧ pq_top q = Some r.
Proof.
  intros Hq. split.
  - destruct fuel; cbn [merge_nodes];
      rewrite bool_decide_eq_true_2; try done; by rewrite pq_size_spec, Hq.
  - by destruct (pq_top_least q r [] Hq ltac:(constructor)).
Qed.

Variable iterate : nat → gmap ascii Z → list (ascii * Z).
Hypothesis iterate_perm : visits_entries iterate.

(** For the frequencies 1, 2 and 4 no two weights ever tie: the tree is the
    same for every priority queue and every iteration order. *)
Lemma buildHuffmanTree_abc :
  buildHuffmanTree iterate {[ "a"%char := 1; "b"%char := 2; "c"%char := 4 ]}
  = Some (Node nul 7
            (Node nul 3 (Node "a" 1 Null Null) (Node "b" 2 Null Null))
            (Node "c" 4 Null Null)).
Proof.
  unfold buildHuffmanTree.
  set (q := push_leaves iterate _).
  assert (Hq : pq_elements q
               ≡ₚ [Node "a" 1 Null Null; Node "b" 2 Null Null; Node "c" 4 Null Null]).
  { unfold q. rewrite (push_leaves_elements iterate iterate_perm).
    replace (map_to_list ({[ "a"%char := 1; "b"%char := 2; "c"%char := 4 ]}
                          : gmap ascii Z))
      with [("c"%char, 4); ("a"%char, 1); ("b"%char, 2)] by (by vm_compute).
    cbn [fmap list_fmap]. unfold leaf_of. cbn [fst snd].
    etrans; [apply perm_swap|]. apply perm_skip, perm_swap. }
  assert (Hsize : pq_size q = 3%nat) by (by rewrite pq_size_spec, Hq).
  rewrite Hsize.
  destruct (merge_nodes_step 2 q _ _ _ _ _ _ _ _ _ Hq) as (q1 & -> & Hq1);
    [lia|repeat constructor; simpl; lia|unfold Int.INT_MIN, Int.INT_MAX; lia|].
  change (1 + 2) with 3 in Hq1.
  destruct (merge_nodes_step 1 q1 _ _ _ _ _ _ _ _ _ Hq1) as (q2 & -> & Hq2);
    [lia|constructor|unfold Int.INT_MIN, Int.INT_MAX; lia|].
  change (3 + 4) with 7 in Hq2.
  destruct (merge_nodes_done 1 q2 _ Hq2) as [-> Htop].
  exact Htop.
Qed.

End Determined.

(** C1, on the code: for every priority queue, iteration order and schedule
    of the two counting workers, the buffer "abbcccc" compressed and then
    decompressed with two workers comes back as "abccccc".  The payload
    0001011111 is cut at bit 5, inside the code word 01 of the second 'b':
    the first worker drops the unfinished code word, the second reads its
    last bit as a 'c'. *)
Theorem roundtrip_fails_with_two_workers `{PQ : PriorityQueue}
    (iterate : nat → gmap ascii Z → list (ascii * Z)) (sched : list nat) :
  visits_entries iterate →
  schedule 2 sched →
  compressDataFile iterate (String.list_ascii_of_string "abbcccc") 2 sched
  = Some (String.list_ascii_of_string "001a1b1c" ++ newline
            :: String.list_ascii_of_string "0001011111")
  ∧ decompressDataFile
      (String.list_ascii_of_string "001a1b1c" ++ newline
         :: String.list_ascii_of_string "0001011111") 2
    = Some (String.list_ascii_of_string "abccccc").
Proof.
  intros Hperm Hsched. split; [|by vm_compute].
  unfold compressDataFile.
  rewrite (countFrequencyParallel_tally iterate _ 2 sched Hperm)
    by (done || by vm_compute).
  cbn [mbind option_bind].
  rewrite countFrequencySingle_tally_empty by (by vm_compute).
  cbn [mbind option_bind].
  replace (tally (String.list_ascii_of_string "abbcccc") ∅)
    with ({[ "a"%char := 1; "b"%char := 2; "c"%char := 4 ]} : gmap ascii Z)
    by (by vm_compute).
  rewrite (buildHuffmanTree_abc iterate Hperm). cbn [mbind option_bind].
  by vm_compute.
Qed.

Lemma roundtrip_fails_with_two_workers_witness :
  visits_entries key_order
  ∧ schedule 2 [1; 0]%nat
  ∧ compressDataFile (PQ := ListQueue) key_order
      (String.list_ascii_of_string "abbcccc") 2 [1; 0]%nat
    = Some (String.list_ascii_of_string "001a1b1c" ++ newline
              :: String.list_ascii_of_string "0001011111")
  ∧ decompressDataFile
      (String.list_ascii_of_string "001a1b1c" ++ newline
         :: String.list_ascii_of_string "0001011111") 2
    = Some (String.list_ascii_of_string "abccccc").
Proof.
  assert (H1 : visits_entries key_order) by exact key_order_visits.
  assert (H2 : schedule 2 [1; 0]%nat) by apply perm_swap.
  split; [exact H1|]. split; [exact H2|].
  exact (roundtrip_fails_with_two_workers (PQ := ListQueue) key_order [1; 0]%nat H1 H2).
Defined.

(** * Further properties of the code *)

(** ** The counters *)

(** X1: the table of the sequential counter, for a buffer whose length fits
    an [int]: a character of the buffer is mapped to the number of its
    occurrences, and a character that does not occur has no entry (the table
    holds no zero count). *)
Theorem countFrequencySingle_entries (data : list ascii) :
  Z.of_nat (length data) ≤ Int.INT_MAX →
  ∃ table,
    countFrequencySingle data ∅ = Some table
    ∧ ∀ c, table !! c
           = if decide (c ∈ data) then Some (Z.of_nat (occurrences c data)) else None.
Proof.
  intros Hlen. exists (tally data ∅). split.
  - by apply countFrequencySingle_tally_empty.
  - intros c. rewrite tally_lookup, lookup_empty. simpl.
    by destruct (decide (c ∈ data)).
Qed.

Lemma countFrequencySingle_entries_witness :
  Z.of_nat (length ["a"; "b"; "a"]%char) ≤ Int.INT_MAX
  ∧ ∃ table,
      countFrequencySingle ["a"; "b"; "a"]%char ∅ = Some table
      ∧ ∀ c, table !! c
             = if decide (c ∈ ["a"; "b"; "a"]%char)
               then Some (Z.of_nat (occurrences c ["a"; "b"; "a"]%char)) else None.
Proof.
  split; [vm_compute; discriminate|].
  apply countFrequencySingle_entries. vm_compute. discriminate.
Defined.

Lemma increment_lookup_ne m x m' c :
  increment m x = Some m' → x ≠ c → m' !! c = m !! c.
Proof.
  unfold increment. destruct (Int.add (default 0 (m !! x)) 1) as [v|]; [|done].
  simpl. intros [= <-] Hne. by rewrite lookup_insert_ne.
Qed.

Lemma countFrequencySingle_overflows data (m : gmap ascii Z) c :
  default 0 (m !! c) ≤ Int.INT_MAX →
  Int.INT_MAX < default 0 (m !! c) + Z.of_nat (occurrences c data) →
  countFrequencySingle data m = None.
Proof.
  revert m. induction data as [|x data IH]; intros m Hle Hgt.
  - unfold occurrences in Hgt. simpl in Hgt. lia.
  - cbn [countFrequencySingle]. rewrite occurrences_cons in Hgt.
    destruct (increment m x) as [m'|] eqn:Hinc; [|done]. simpl.
    destruct (decide (x = c)) as [->|Hne].
    + unfold increment, Int.add, Int.checked, Int.in_range in Hinc.
      case_bool_decide as Hr; [|done]. simpl in Hinc. injection Hinc as <-.
      apply IH; rewrite lookup_insert_eq; simpl; lia.
    + apply IH; rewrite (increment_lookup_ne _ _ _ _ Hinc Hne); lia.
Qed.

(** X2: the counts are [int]s: when the count a character already has in the
    map plus its occurrences in the buffer exceeds [INT_MAX], an increment
    overflows and [countFrequencySingle] has no defined result. *)
Theorem countFrequencySingle_count_overflow (data : list ascii)
    (freqMap : gmap ascii Z) (c : ascii) :
  default 0 (freqMap !! c) ≤ Int.INT_MAX →
  Int.INT_MAX < default 0 (freqMap !! c) + Z.of_nat (occurrences c data) →
  countFrequencySingle data freqMap = None.
Proof. apply countFrequencySingle_overflows. Qed.

Lemma countFrequencySingle_count_overflow_witness :
  default 0 (({[ "a"%char := Int.INT_MAX ]} : gmap ascii Z) !! "a"%char) ≤ Int.INT_MAX
  ∧ Int.INT_MAX
    < default 0 (({[ "a"%char := Int.INT_MAX ]} : gmap ascii Z) !! "a"%char)
      + Z.of_nat (occurrences "a"%char ["b"; "a"]%char)
  ∧ countFrequencySingle ["b"; "a"]%char {[ "a"%char := Int.INT_MAX ]} = None.
Proof.
  split; [vm_compute; discriminate|]. split; [by vm_compute|].
  apply (countFrequencySingle_count_overflow _ _ "a"%char);
    [vm_compute; discriminate|by vm_compute].
Defined.

(** X3: [countFrequencySingle] accumulates into the map it is given: counting
    one buffer and then another into the same map is counting their
    concatenation, undefined results included. *)
Theorem countFrequencySingle_app (d1 d2 : list ascii) (freqMap : gmap ascii Z) :
  countFrequencySingle (d1 ++ d2) freqMap
  = countFrequencySingle d1 freqMap ≫= countFrequencySingle d2.
Proof.
  revert freqMap. induction d1 as [|x d1 IH]; intros m; [done|].
  cbn [app countFrequencySingle]. destruct (increment m x) as [m'|]; [|done].
  simpl. apply IH.
Qed.

(** X4: a worker of the parallel count adds to the global map, for every
    character of its range [[begin, finish)], the number of its occurrences
    in the range, and touches no other entry, whatever the order in which it
    visits its local map; this as long as the sums fit an [int]. *)
Theorem countFrequencyThread_adds_range
    (order : gmap ascii Z → list (ascii * Z)) (data : list ascii)
    (globalMap : gmap ascii Z) (begin finish : Z) :
  (∀ m, order m ≡ₚ map_to_list m) →
  0 ≤ begin → begin ≤ finish → finish ≤ Z.of_nat (length data) →
  (∀ c, 0 ≤ default 0 (globalMap !! c)
        ∧ default 0 (globalMap !! c)
          + Z.of_nat (occurrences c (segment data begin finish)) ≤ Int.INT_MAX) →
  ∃ result,
    countFrequencyThread order data globalMap begin finish = Some result
    ∧ ∀ c, result !! c
           = if decide (c ∈ segment data begin finish)
             then Some (default 0 (globalMap !! c)
                        + Z.of_nat (occurrences c (segment data begin finish)))
             else globalMap !! c.
Proof.
  intros Hord Hb Hbe He Hbound. eexists. split.
  - by apply countFrequencyThread_tally.
  - intros c. apply tally_lookup.
Qed.

Lemma countFrequencyThread_adds_range_witness :
  (∀ m : gmap ascii Z, map_to_list m ≡ₚ map_to_list m)
  ∧ 0 ≤ 1 ∧ 1 ≤ 3 ∧ 3 ≤ Z.of_nat (length ["a"; "b"; "b"; "c"]%char)
  ∧ (∀ c, 0 ≤ default 0 (({[ "b"%char := 5 ]} : gmap ascii Z) !! c)
          ∧ default 0 (({[ "b"%char := 5 ]} : gmap ascii Z) !! c)
            + Z.of_nat (occurrences c (segment ["a"; "b"; "b"; "c"]%char 1 3))
            ≤ Int.INT_MAX)
  ∧ ∃ result,
      countFrequencyThread map_to_list ["a"; "b"; "b"; "c"]%char {[ "b"%char := 5 ]} 1 3
      = Some result
      ∧ ∀ c, result !! c
             = if decide (c ∈ segment ["a"; "b"; "b"; "c"]%char 1 3)
               then Some (default 0 (({[ "b"%char := 5 ]} : gmap ascii Z) !! c)
                          + Z.of_nat (occurrences c
                                        (segment ["a"; "b"; "b"; "c"]%char 1 3)))
               else ({[ "b"%char := 5 ]} : gmap ascii Z) !! c.
Proof.
  assert (H1 : ∀ m : gmap ascii Z, map_to_list m ≡ₚ map_to_list m) by reflexivity.
  assert (H5 : ∀ c, 0 ≤ default 0 (({[ "b"%char := 5 ]} : gmap ascii Z) !! c)
          ∧ default 0 (({[ "b"%char := 5 ]} : gmap ascii Z) !! c)
            + Z.of_nat (occurrences c (segment ["a"; "b"; "b"; "c"]%char 1 3))
            ≤ Int.INT_MAX).
  { intros c. change (segment ["a"; "b"; "b"; "c"]%char 1 3) with ["b"; "b"]%char.
    rewrite !occurrences_cons. unfold Int.INT_MAX.
    destruct (decide ("b"%char = c)) as [<-|Hne].
    - rewrite lookup_singleton_eq. simpl. vm_compute. split; discriminate.
    - rewrite lookup_singleton_ne by done. simpl. vm_compute. split; discriminate. }
  split; [exact H1|]. split; [lia|]. split; [lia|]. split; [simpl; lia|].
  split; [exact H5|].
  apply countFrequencyThread_adds_range; [exact H1|lia|lia|simpl; lia|exact H5].
Defined.

(** ** The ranges of the workers *)

Lemma mapM_Some_fmap {A B} (f : A → B) (l : list A) :
  mapM (λ x, Some (f x)) l = Some (f <$> l).
Proof. induction l as [|x l IH]; [done|]. cbn [mapM]. by rewrite IH. Qed.

(** X5: the ranges that the spawning loops (lines 136-140 and 207-211) hand to
    the [W] workers, when the length fits an [int]: there are [W] of them,
    each begins where the one before ends, the first at 0 and the last ends at
    the length, and the characters of the ranges, in order, are the buffer:
    every index is in exactly one range. *)
Theorem worker_ranges_cover_buffer (data : list ascii) (W : Z) :
  1 ≤ W ≤ Int.INT_MAX → Z.of_nat (length data) ≤ Int.INT_MAX →
  ∃ ranges,
    mapM (λ i : nat,
            worker_range (Z.of_nat (length data)) W
              (Int.of_size (Z.of_nat (length data) `div` W)) (Z.of_nat i))
         (worker_ids W) = Some ranges
    ∧ length ranges = Z.to_nat W
    ∧ contiguous 0 ranges (Z.of_nat (length data))
    ∧ concat ((λ r : Z * Z, segment data r.1 r.2) <$> ranges) = data.
Proof.
  intros HW Hlen. exists (worker_ranges (Z.of_nat (length data)) W).
  set (n := Z.of_nat (length data)) in *.
  assert (Hs : 0 ≤ n `div` W) by (apply Z.div_pos; lia).
  assert (Hws : W * (n `div` W) ≤ n) by (apply Z.mul_div_le; lia).
  split; [|split; [|split]].
  - rewrite int_of_size_id by (unfold Int.INT_MIN, Int.INT_MAX in *; nia).
    unfold worker_ranges. rewrite <- mapM_Some_fmap. apply mapM_ext_in.
    intros i Hi. unfold worker_ids in Hi. apply elem_of_seq in Hi.
    rewrite worker_range_some by lia. done.
  - unfold worker_ranges, worker_ids. by rewrite length_fmap, length_seq.
  - apply worker_ranges_contiguous; lia.
  - unfold worker_ranges. rewrite <- list_fmap_compose.
    exact (worker_segments_cover data W (proj1 HW)).
Qed.

Lemma worker_ranges_cover_buffer_witness :
  1 ≤ 3 ≤ Int.INT_MAX
  ∧ Z.of_nat (length ["a"; "b"; "c"; "d"; "e"; "f"; "g"]%char) ≤ Int.INT_MAX
  ∧ ∃ ranges,
      mapM (λ i : nat,
              worker_range (Z.of_nat (length ["a"; "b"; "c"; "d"; "e"; "f"; "g"]%char)) 3
                (Int.of_size
                   (Z.of_nat (length ["a"; "b"; "c"; "d"; "e"; "f"; "g"]%char) `div` 3))
                (Z.of_nat i))
           (worker_ids 3) = Some ranges
      ∧ length ranges = Z.to_nat 3
      ∧ contiguous 0 ranges (Z.of_nat (length ["a"; "b"; "c"; "d"; "e"; "f"; "g"]%char))
      ∧ concat ((λ r : Z * Z, segment ["a"; "b"; "c"; "d"; "e"; "f"; "g"]%char r.1 r.2)
                  <$> ranges)
        = ["a"; "b"; "c"; "d"; "e"; "f"; "g"]%char.
Proof.
  split; [unfold Int.INT_MAX; lia|]. split; [vm_compute; discriminate|].
  apply worker_ranges_cover_buffer; [unfold Int.INT_MAX; lia|vm_compute; discriminate].
Defined.

(** ** The comparison of the queue *)

(** X6: [HuffmanCompare] is the strict weak ordering [std::priority_queue]
    requires: irreflexive, transitive, and with a transitive equivalence of
    the nodes it does not order (those of equal frequency). *)
Theorem HuffmanCompare_strict_weak_order :
  (∀ a, HuffmanCompare a a = false)
  ∧ (∀ a b c, HuffmanCompare a b = true → HuffmanCompare b c = true →
              HuffmanCompare a c = true)
  ∧ (∀ a b c,
       HuffmanCompare a b = false ∧ HuffmanCompare b a = false →
       HuffmanCompare b c = false ∧ HuffmanCompare c b = false →
       HuffmanCompare a c = false ∧ HuffmanCompare c a = false).
Proof.
  unfold HuffmanCompare. split; [|split].
  - intros a. apply bool_decide_eq_false. lia.
  - intros a b c Hab%bool_decide_eq_true Hbc%bool_decide_eq_true.
    apply bool_decide_eq_true. lia.
  - intros a b c [Hab%bool_decide_eq_false Hba%bool_decide_eq_false]
      [Hbc%bool_decide_eq_false Hcb%bool_decide_eq_false].
    split; apply bool_decide_eq_false; lia.
Qed.

(** ** The tree builder *)

Lemma forest_shape_perm entries l1 l2 :
  l1 ≡ₚ l2 → forest_shape entries l1 → forest_shape entries l2.
Proof.
  intros Hp [Hall Hleaves]. split.
  - by rewrite <- Hp.
  - by rewrite <- Hp.
Qed.

Lemma forest_shape_merge entries cx fx lx rx cy fy ly ry rest :
  forest_shape entries (Node cx fx lx rx :: Node cy fy ly ry :: rest) →
  forest_shape entries
    (Node nul (fx + fy) (Node cx fx lx rx) (Node cy fy ly ry) :: rest).
Proof.
  intros [Hall Hleaves].
  apply Forall_cons in Hall as [[Hsx Hwx] Hall].
  apply Forall_cons in Hall as [[Hsy Hwy] Hall].
  split.
  - constructor; [|done]. split; [by apply strict_node|].
    cbn [weights_add_up is_leaf frequency_of orb].
    rewrite bool_decide_eq_true_2 by done. cbn [andb].
    by apply andb_true_iff.
  - rewrite <- Hleaves. cbn [fmap list_fmap concat].
    change (leaf_entries (Node nul (fx + fy) (Node cx fx lx rx) (Node cy fy ly ry)))
      with ([] ++ leaf_entries (Node cx fx lx rx) ++ leaf_entries (Node cy fy ly ry)).
    by rewrite app_nil_l, <- app_assoc.
Qed.

Lemma forest_shape_initial (freqMap : gmap ascii Z) :
  forest_shape (map_to_list freqMap) (leaf_of <$> map_to_list freqMap).
Proof.
  split.
  - apply Forall_fmap, Forall_forall. by intros [c v] _.
  - induction (map_to_list freqMap) as [|[c v] l IH]; [done|].
    cbn [fmap list_fmap concat leaf_of leaf_entries is_leaf app fst snd].
    by rewrite IH.
Qed.

Section BuilderShape.

Context {PQ : PriorityQueue}.

(** The merging loop keeps every property of the queue's contents that does
    not depend on their order and that merging two nodes keeps. *)
Lemma merge_nodes_preserves (P : list HuffmanNode → Prop) fuel q q' :
  (∀ l1 l2, l1 ≡ₚ l2 → P l1 → P l2) →
  (∀ cx fx lx rx cy fy ly ry rest,
     P (Node cx fx lx rx :: Node cy fy ly ry :: rest) →
     P (Node nul (fx + fy) (Node cx fx lx rx) (Node cy fy ly ry) :: rest)) →
  merge_nodes fuel q = Some q' →
  P (pq_elements q) → P (pq_elements q') ∧ (pq_size q' ≤ 1)%nat.
Proof.
  intros Hperm Hmerge. revert q. induction fuel as [|fuel IH]; intros q Hrun HP.
  - cbn [merge_nodes] in Hrun. case_bool_decide; [|done]. by injection Hrun as <-.
  - cbn [merge_nodes] in Hrun. case_bool_decide as Hle.
    { by injection Hrun as <-. }
    pose proof (pq_top_spec q) as Hx.
    destruct (pq_top q) as [x|]; [|done]. destruct Hx as [Hx _].
    cbn [mbind option_bind] in Hrun.
    pose proof (pq_top_spec (pq_pop q)) as Hy.
    destruct (pq_top (pq_pop q)) as [y|]; [|done]. destruct Hy as [Hy _].
    cbn [mbind option_bind] in Hrun.
    destruct x as [|cx fx lx rx]; [done|]. destruct y as [|cy fy ly ry]; [done|].
    unfold Int.add, Int.checked in Hrun.
    destruct (Int.in_range (fx + fy)); [|done]. cbn [mbind option_bind] in Hrun.
    apply IH in Hrun; [done|].
    apply (Hperm (Node nul (fx + fy) (Node cx fx lx rx) (Node cy fy ly ry)
                    :: pq_elements (pq_pop (pq_pop q)))).
    { symmetry. apply pq_push_spec. }
    apply Hmerge. apply (Hperm (pq_elements q)); [|done].
    by rewrite <- Hx, <- Hy.
Qed.

Variable iterate : nat → gmap ascii Z → list (ascii * Z).
Hypothesis iterate_perm : visits_entries iterate.

Lemma buildHuffmanTree_preserves (P : list HuffmanNode → Prop) freqMap root :
  (∀ l1 l2, l1 ≡ₚ l2 → P l1 → P l2) →
  (∀ cx fx lx rx cy fy ly ry rest,
     P (Node cx fx lx rx :: Node cy fy ly ry :: rest) →
     P (Node nul (fx + fy) (Node cx fx lx rx) (Node cy fy ly ry) :: rest)) →
  buildHuffmanTree iterate freqMap = Some root →
  P (leaf_of <$> map_to_list freqMap) → P [root].
Proof.
  intros Hperm Hmerge Hbuild HP. unfold buildHuffmanTree in Hbuild.
  destruct (merge_nodes (pq_size (push_leaves iterate freqMap))
              (push_leaves iterate freqMap)) as [q'|] eqn:Hrun; [|done].
  cbn [mbind option_bind] in Hbuild.
  destruct (merge_nodes_preserves P _ _ _ Hperm Hmerge Hrun) as [HP' Hsize].
  { apply (Hperm (leaf_of <$> map_to_list freqMap)); [|done].
    symmetry. by apply push_leaves_elements. }
  pose proof (pq_top_spec q') as Htop. rewrite Hbuild in Htop.
  destruct Htop as [Htop _]. rewrite pq_size_spec, <- Htop in Hsize.
  destruct (pq_elements (pq_pop q')); [|simpl in Hsize; lia].
  by apply (Hperm _ _ (symmetry Htop)).
Qed.

End BuilderShape.

Lemma weights_total t :
  strict t = true → weights_add_up t = true →
  frequency_of t = total_frequency (leaf_of <$> leaf_entries t).
Proof.
  induction t as [|c f l IHl r IHr]; [done|]. intros Hs Hw.
  cbn [leaf_entries]. destruct (is_leaf l r) eqn:Hleaf.
  - apply is_leaf_true in Hleaf as [-> ->]. simpl. lia.
  - destruct (strict_children _ _ _ _ Hs Hleaf) as [Hsl Hsr].
    cbn [weights_add_up] in Hw. rewrite Hleaf in Hw. cbn [orb] in Hw.
    apply andb_true_iff in Hw as [Hw Hwr]. apply andb_true_iff in Hw as [Hf Hwl].
    apply bool_decide_eq_true in Hf. cbn [frequency_of app].
    rewrite fmap_app. rewrite Hf, (IHl Hsl Hwl), (IHr Hsr Hwr).
    generalize (leaf_of <$> leaf_entries l). intros ts.
    induction ts as [|t ts IH]; [done|]. cbn [app total_frequency]. lia.
Qed.

Lemma leaf_entries_leaves t : (leaf_entries t).*1 = leaves t.
Proof.
  induction t as [|c f l IHl r IHr]; [done|].
  cbn [leaf_entries leaves]. rewrite !fmap_app, IHl, IHr.
  by destruct (is_leaf l r).
Qed.

(** X7: whenever lines 156-167 build a tree from a frequency map, for every
    priority queue and iteration order: the tree is strict, its leaves carry
    exactly the entries of the map, each character once with its count, and
    the frequency of every node with children is the sum of the frequencies
    of its two children. *)
Theorem buildHuffmanTree_shape `{PQ : PriorityQueue}
    (iterate : nat → gmap ascii Z → list (ascii * Z)) (freqMap : gmap ascii Z)
    (root : HuffmanNode) :
  visits_entries iterate →
  buildHuffmanTree iterate freqMap = Some root →
  strict root = true
  ∧ weights_add_up root = true
  ∧ leaf_entries root ≡ₚ map_to_list freqMap
  ∧ NoDup (leaves root)
  ∧ ∀ c, c ∈ leaves root ↔ is_Some (freqMap !! c).
Proof.
  intros Hperm Hbuild.
  destruct (buildHuffmanTree_preserves iterate Hperm
              (forest_shape (map_to_list freqMap)) freqMap root) as [Hall Hentries].
  - apply forest_shape_perm.
  - intros. by apply forest_shape_merge.
  - done.
  - apply forest_shape_initial.
  - apply Forall_cons in Hall as [[Hs Hw] _].
    cbn [fmap list_fmap concat] in Hentries. rewrite app_nil_r in Hentries.
    assert (Hleaves : leaves root ≡ₚ (map_to_list freqMap).*1).
    { by rewrite <- leaf_entries_leaves, Hentries. }
    split; [done|]. split; [done|]. split; [done|]. split.
    + rewrite Hleaves. apply NoDup_fst_map_to_list.
    + intros c. rewrite Hleaves, list_elem_of_fmap. split.
      * intros ([c' v] & -> & Hin%elem_of_map_to_list). by exists v.
      * intros [v Hv]. exists (c, v). split; [done|]. by apply elem_of_map_to_list.
Qed.

Lemma buildHuffmanTree_shape_witness :
  visits_entries key_order
  ∧ buildHuffmanTree (PQ := ListQueue) key_order
      {[ "a"%char := 1; "b"%char := 2; "c"%char := 4 ]}
    = Some (Node nul 7
              (Node nul 3 (Node "a" 1 Null Null) (Node "b" 2 Null Null))
              (Node "c" 4 Null Null))
  ∧ strict (Node nul 7
              (Node nul 3 (Node "a" 1 Null Null) (Node "b" 2 Null Null))
              (Node "c" 4 Null Null)) = true
  ∧ weights_add_up (Node nul 7
              (Node nul 3 (Node "a" 1 Null Null) (Node "b" 2 Null Null))
              (Node "c" 4 Null Null)) = true
  ∧ leaf_entries (Node nul 7
              (Node nul 3 (Node "a" 1 Null Null) (Node "b" 2 Null Null))
              (Node "c" 4 Null Null))
    ≡ₚ map_to_list ({[ "a"%char := 1; "b"%char := 2; "c"%char := 4 ]} : gmap ascii Z)
  ∧ NoDup (leaves (Node nul 7
              (Node nul 3 (Node "a" 1 Null Null) (Node "b" 2 Null Null))
              (Node "c" 4 Null Null)))
  ∧ ∀ c, c ∈ leaves (Node nul 7
              (Node nul 3 (Node "a" 1 Null Null) (Node "b" 2 Null Null))
              (Node "c" 4 Null Null))
         ↔ is_Some (({[ "a"%char := 1; "b"%char := 2; "c"%char := 4 ]}
                      : gmap ascii Z) !! c).
Proof.
  assert (H2 : buildHuffmanTree (PQ := ListQueue) key_order
      {[ "a"%char := 1; "b"%char := 2; "c"%char := 4 ]}
    = Some (Node nul 7
              (Node nul 3 (Node "a" 1 Null Null) (Node "b" 2 Null Null))
              (Node "c" 4 Null Null))) by (by vm_compute).
  split; [exact key_order_visits|]. split; [exact H2|].
  exact (buildHuffmanTree_shape (PQ := ListQueue) key_order _ _ key_order_visits H2).
Defined.

Lemma sum_occurrences_eq data (keys : list ascii) :
  NoDup keys → (∀ x, x ∈ data → x ∈ keys) →
  sum_list_with (λ c, occurrences c data * 1)%nat keys = length data.
Proof.
  intros Hnd. induction data as [|x data IH]; intros Hin.
  - clear Hnd Hin. induction keys as [|c keys IHk]; [done|].
    cbn [sum_list_with]. rewrite IHk. done.
  - rewrite (sum_occurrences_cons (λ _, 1%nat)) by done.
    destruct (decide (x ∈ keys)) as [_|Hn].
    + rewrite IH; [done|]. intros y Hy. apply Hin. by apply list_elem_of_further.
    + destruct Hn. apply Hin, list_elem_of_here.
Qed.

(** X8: for a non-empty buffer whose length fits an [int], the counting and
    building steps of [compressDataFile] return a tree, for every priority
    queue and iteration order; its leaves are the distinct characters of the
    buffer, each once, and the frequency of its root is the length of the
    buffer. *)
Theorem buildHuffmanTree_of_buffer `{PQ : PriorityQueue}
    (iterate : nat → gmap ascii Z → list (ascii * Z)) (data : list ascii) :
  visits_entries iterate →
  data ≠ [] → Z.of_nat (length data) ≤ Int.INT_MAX →
  ∃ table root,
    countFrequencySingle data ∅ = Some table
    ∧ buildHuffmanTree iterate table = Some root
    ∧ frequency_of root = Z.of_nat (length data)
    ∧ NoDup (leaves root)
    ∧ ∀ c, c ∈ leaves root ↔ c ∈ data.
Proof.
  intros Hperm Hne Hlen.
  destruct (buildHuffmanTree_spec iterate Hperm data Hne Hlen)
    as (root & Hbuild & _ & _).
  exists (tally data ∅), root.
  destruct (buildHuffmanTree_preserves iterate Hperm
              (forest_shape (map_to_list (tally data ∅))) (tally data ∅) root)
    as [Hall Hentries].
  { apply forest_shape_perm. }
  { intros. by apply forest_shape_merge. }
  { done. }
  { apply forest_shape_initial. }
  apply Forall_cons in Hall as [[Hs Hw] _].
  cbn [fmap list_fmap concat] in Hentries. rewrite app_nil_r in Hentries.
  assert (Hleaves : leaves root ≡ₚ (map_to_list (tally data ∅)).*1).
  { by rewrite <- leaf_entries_leaves, Hentries. }
  assert (Hmem : ∀ c, c ∈ leaves root ↔ c ∈ data).
  { intros c. rewrite Hleaves, list_elem_of_fmap. split.
    - intros ([c' v] & -> & Hin%elem_of_map_to_list). by apply tally_entry in Hin as [? _].
    - intros Hc. destruct (tally_covers data c Hc) as [v Hv].
      exists (c, v). split; [done|]. by apply elem_of_map_to_list. }
  split; [by apply countFrequencySingle_tally_empty|]. split; [done|].
  split; [|split; [|done]].
  - rewrite (weights_total root Hs Hw).
    rewrite (total_frequency_perm _ (leaf_of <$> map_to_list (tally data ∅)))
      by (by rewrite Hentries).
    rewrite (total_frequency_leaves data).
    + f_equal. apply sum_occurrences_eq; [apply NoDup_fst_map_to_list|].
      intros x Hx. rewrite <- Hleaves. by apply Hmem.
    + intros c v Hin%elem_of_map_to_list. by apply tally_entry in Hin as [_ ->].
  - rewrite Hleaves. apply NoDup_fst_map_to_list.
Qed.

Lemma buildHuffmanTree_of_buffer_witness :
  visits_entries key_order
  ∧ String.list_ascii_of_string "abbcccc" ≠ []
  ∧ Z.of_nat (length (String.list_ascii_of_string "abbcccc")) ≤ Int.INT_MAX
  ∧ ∃ table root,
      countFrequencySingle (String.list_ascii_of_string "abbcccc") ∅ = Some table
      ∧ buildHuffmanTree (PQ := ListQueue) key_order table = Some root
      ∧ frequency_of root = Z.of_nat (length (String.list_ascii_of_string "abbcccc"))
      ∧ NoDup (leaves root)
      ∧ ∀ c, c ∈ leaves root ↔ c ∈ String.list_ascii_of_string "abbcccc".
Proof.
  split; [exact key_order_visits|]. split; [discriminate|].
  split; [vm_compute; discriminate|].
  apply (buildHuffmanTree_of_buffer (PQ := ListQueue) key_order);
    [exact key_order_visits|discriminate|vm_compute; discriminate].
Defined.

(** ** The code table, entry by entry *)

Lemma descend_child_0 c f l r p : descend (Node c f l r) ("0"%char :: p) = descend l p.
Proof. done. Qed.

Lemma descend_child_1 c f l r p : descend (Node c f l r) ("1"%char :: p) = descend r p.
Proof. done. Qed.

Lemma leaf_codes_descend t q c code :
  (c, code) ∈ leaf_codes t q →
  ∃ suffix f,
    code = q ++ suffix ∧ Forall binary suffix
    ∧ descend t suffix = Node c f Null Null.
Proof.
  revert q. induction t as [|ch fr l IHl r IHr]; intros q Hin.
  - by apply elem_of_nil in Hin.
  - cbn [leaf_codes] in Hin. apply elem_of_app in Hin as [Hin|Hin].
    + destruct (is_leaf l r) eqn:Hleaf; [|by apply elem_of_nil in Hin].
      apply is_leaf_true in Hleaf as [-> ->].
      apply list_elem_of_singleton in Hin. injection Hin as -> ->.
      exists [], fr. by rewrite app_nil_r.
    + apply elem_of_app in Hin as [Hin|Hin].
      * destruct (IHl _ Hin) as (suffix & f & -> & Hbin & Hd).
        exists ("0"%char :: suffix), f. rewrite <- app_assoc.
        split; [done|]. split; [constructor; [by left|done]|].
        by rewrite descend_child_0.
      * destruct (IHr _ Hin) as (suffix & f & -> & Hbin & Hd).
        exists ("1"%char :: suffix), f. rewrite <- app_assoc.
        split; [done|]. split; [constructor; [by right|done]|].
        by rewrite descend_child_1.
Qed.

Lemma createHuffmanCodes_path t c code :
  createHuffmanCodes t [] ∅ !! c = Some code →
  Forall binary code ∧ ∃ f, descend t code = Node c f Null Null.
Proof.
  intros Hin%createHuffmanCodes_lookup.
  destruct (leaf_codes_descend t [] c code Hin) as (suffix & f & -> & Hbin & Hd).
  split; [done|]. by exists f.
Qed.

(** X9: every entry of the table that [createHuffmanCodes] derives from a
    tree, whatever the tree: the code is made of the characters '0' and '1'
    and, followed from the root as the decoders do, it ends at a leaf that
    holds the character of the entry; when the root has children the code is
    not empty. *)
Theorem code_table_entry_is_path (t : HuffmanNode) (c : ascii) (code : list ascii) :
  createHuffmanCodes t [] ∅ !! c = Some code →
  Forall binary code
  ∧ (∃ f, descend t code = Node c f Null Null)
  ∧ (internal t = true → code ≠ []).
Proof.
  intros Hc. destruct (createHuffmanCodes_path t c code Hc) as [Hbin Hd].
  split; [done|]. split; [done|].
  intros Hi. by destruct (decode_code t Hi c _ [] Hc).
Qed.

Lemma code_table_entry_is_path_witness :
  createHuffmanCodes example_tree [] ∅ !! "b"%char = Some ["1"; "0"]%char
  ∧ Forall binary ["1"; "0"]%char
  ∧ (∃ f, descend example_tree ["1"; "0"]%char = Node "b" f Null Null)
  ∧ (internal example_tree = true → ["1"; "0"]%char ≠ []).
Proof.
  split; [reflexivity|].
  apply code_table_entry_is_path. reflexivity.
Defined.

Lemma foldl_insert_is_Some (l : list (ascii * list ascii))
    (m : gmap ascii (list ascii)) k :
  is_Some (foldl (λ m kv, <[kv.1 := kv.2]> m) m l !! k)
  ↔ k ∈ l.*1 ∨ is_Some (m !! k).
Proof.
  revert m. induction l as [|[k' v'] l IH]; intros m.
  - simpl. rewrite elem_of_nil. tauto.
  - cbn [foldl fst snd]. rewrite IH, fmap_cons, elem_of_cons. cbn [fst].
    destruct (decide (k' = k)) as [->|Hne].
    + rewrite lookup_insert_eq. split; [auto|]. intros _. right. by eexists.
    + rewrite lookup_insert_ne by done. split; [tauto|].
      intros [[Heq|Hin]|Hm]; [congruence|tauto|tauto].
Qed.

(** X10: the table that [createHuffmanCodes] derives from a tree has a code
    for exactly the characters at the leaves of the tree. *)
Theorem code_table_domain (t : HuffmanNode) (c : ascii) :
  is_Some (createHuffmanCodes t [] ∅ !! c) ↔ c ∈ leaves t.
Proof.
  rewrite createHuffmanCodes_leaf_codes, foldl_insert_is_Some, leaf_codes_leaves.
  rewrite lookup_empty. split; [|auto]. intros [?|[? ?]]; done.
Qed.

(** ** Encoding, byte by byte *)

Lemma binary_code_of t c : Forall binary (code_of (createHuffmanCodes t [] ∅) c).
Proof.
  unfold code_of. destruct (createHuffmanCodes t [] ∅ !! c) as [code|] eqn:Hc.
  - by destruct (createHuffmanCodes_path t c code Hc).
  - constructor.
Qed.

(** X11: [codeTable[ch]] yields the empty string for a byte the table has no
    code for, so [huffmanEncode] drops such bytes without a trace: the payload
    is that of the buffer with those bytes removed. *)
Theorem huffmanEncode_drops_uncovered (data : list ascii)
    (codeTable : gmap ascii (list ascii)) :
  huffmanEncode data codeTable
  = huffmanEncode (filter (λ c, is_Some (codeTable !! c)) data) codeTable.
Proof.
  induction data as [|x data IH]; [done|].
  rewrite filter_cons. destruct (decide (is_Some (codeTable !! x))) as [Hx|Hx].
  - by rewrite !huffmanEncode_cons, IH.
  - rewrite huffmanEncode_cons, IH. unfold code_of.
    destruct (codeTable !! x) as [code|] eqn:Hc; [|done].
    destruct Hx. by eexists.
Qed.

(** X12: with the table of a tree, whatever the tree, the payload that
    [huffmanEncode] produces holds no character but '0' and '1'. *)
Theorem huffmanEncode_binary (t : HuffmanNode) (data : list ascii) :
  Forall binary (huffmanEncode data (createHuffmanCodes t [] ∅)).
Proof.
  induction data as [|x data IH]; [constructor|].
  rewrite huffmanEncode_cons. apply Forall_app. split; [apply binary_code_of|done].
Qed.

(** ** The decoders, from outside *)

(** X13: decoding inverts encoding, for every tree whose root has children
    and every buffer its code table covers; the tree need be neither strict
    nor free of repeated leaf characters. *)
Theorem huffmanDecode_inverts_huffmanEncode (root : HuffmanNode) (data : list ascii) :
  internal root = true →
  covers (createHuffmanCodes root [] ∅) data →
  huffmanDecode root (huffmanEncode data (createHuffmanCodes root [] ∅)) = Some data.
Proof. intros Hi Hcov. by apply huffmanDecode_encode. Qed.

(** Coverage of a literal buffer by a literal table, entry by entry. *)
Ltac solve_covers :=
  let c := fresh "c" in
  let Hc := fresh "Hc" in
  intros c Hc;
  repeat (apply elem_of_cons in Hc as [->|Hc]; [by eexists|]);
  by apply elem_of_nil in Hc.

Lemma huffmanDecode_inverts_huffmanEncode_witness :
  internal example_tree = true
  ∧ covers (createHuffmanCodes example_tree [] ∅) ["c"; "a"; "b"; "a"]%char
  ∧ huffmanDecode example_tree
      (huffmanEncode ["c"; "a"; "b"; "a"]%char (createHuffmanCodes example_tree [] ∅))
    = Some ["c"; "a"; "b"; "a"]%char.
Proof.
  assert (Hcov : covers (createHuffmanCodes example_tree [] ∅) ["c"; "a"; "b"; "a"]%char).
  { solve_covers. }
  split; [reflexivity|]. split; [exact Hcov|].
  apply huffmanDecode_inverts_huffmanEncode; [reflexivity|exact Hcov].
Defined.

(** X14: two buffers covered by the code table of a tree whose root has
    children have the same payload only if they are the same buffer. *)
Theorem huffmanEncode_injective (root : HuffmanNode) (d1 d2 : list ascii) :
  internal root = true →
  covers (createHuffmanCodes root [] ∅) d1 →
  covers (createHuffmanCodes root [] ∅) d2 →
  huffmanEncode d1 (createHuffmanCodes root [] ∅)
  = huffmanEncode d2 (createHuffmanCodes root [] ∅) →
  d1 = d2.
Proof.
  intros Hi H1 H2 Heq.
  pose proof (huffmanDecode_encode root Hi d1 H1) as Hd1.
  pose proof (huffmanDecode_encode root Hi d2 H2) as Hd2.
  rewrite Heq in Hd1. congruence.
Qed.

Lemma huffmanEncode_injective_witness :
  internal example_tree = true
  ∧ covers (createHuffmanCodes example_tree [] ∅) ["b"; "a"]%char
  ∧ covers (createHuffmanCodes example_tree [] ∅) ["b"; "a"]%char
  ∧ huffmanEncode ["b"; "a"]%char (createHuffmanCodes example_tree [] ∅)
    = huffmanEncode ["b"; "a"]%char (createHuffmanCodes example_tree [] ∅)
  ∧ ["b"; "a"]%char = ["b"; "a"]%char.
Proof.
  assert (Hcov : covers (createHuffmanCodes example_tree [] ∅) ["b"; "a"]%char).
  { solve_covers. }
  split; [reflexivity|]. split; [exact Hcov|]. split; [exact Hcov|].
  split; [reflexivity|].
  apply (huffmanEncode_injective example_tree); [reflexivity|exact Hcov|exact Hcov|].
  reflexivity.
Defined.

Lemma decode_step_length root st bit st' :
  decode_step root st bit = Some st' → (length st'.2 ≤ S (length st.2))%nat.
Proof.
  unfold decode_step. destruct st.1 as [|c f l r]; [done|].
  destruct (if bool_decide (bit = "0"%char) then l else r) as [|c' f' l' r']; [done|].
  destruct (is_leaf l' r'); intros [= <-]; simpl; [rewrite length_app; simpl|]; lia.
Qed.

Lemma decode_loop_length root text st st' :
  decode_loop root text st = Some st' →
  (length st'.2 ≤ length st.2 + length text)%nat.
Proof.
  revert st. induction text as [|bit text IH]; intros st H.
  - injection H as <-. lia.
  - cbn [decode_loop] in H.
    destruct (decode_step root st bit) as [st1|] eqn:Hstep; [|done].
    apply decode_step_length in Hstep. apply IH in H. simpl in *. lia.
Qed.

(** X15: the decoders emit at most one character per character of payload
    they read, on every tree and every payload: the output of
    [huffmanDecode] is never longer than the payload, that of a worker never
    longer than its range. *)
Theorem decoded_output_bounded (root : HuffmanNode) (text out : list ascii)
    (begin finish : Z) (segmentOut : list ascii) :
  (huffmanDecode root text = Some out → (length out ≤ length text)%nat)
  ∧ (threadedDecode text root begin finish = Some segmentOut →
     (length segmentOut ≤ Z.to_nat (finish - begin))%nat).
Proof.
  split.
  - unfold huffmanDecode. intros H.
    destruct (decode_loop root text (root, [])) as [st|] eqn:Hloop; [|done].
    injection H as <-. apply decode_loop_length in Hloop. simpl in Hloop. lia.
  - unfold threadedDecode. intros H.
    destruct (threaded_loop _ text root begin (root, [])) as [st|] eqn:Hloop; [|done].
    injection H as <-.
    assert (Hgen : ∀ n i st0 st1, threaded_loop n text root i st0 = Some st1 →
                     (length st1.2 ≤ length st0.2 + n)%nat).
    { clear. induction n as [|n IH]; intros i st0 st1 H.
      - injection H as <-. lia.
      - cbn [threaded_loop] in H. destruct (string_at text i) as [bit|]; [|done].
        cbn [mbind option_bind] in H.
        destruct (decode_step root st0 bit) as [st2|] eqn:Hstep; [|done].
        apply decode_step_length in Hstep. apply IH in H. simpl in *. lia. }
    apply Hgen in Hloop. simpl in Hloop. lia.
Qed.

Lemma decoded_output_bounded_witness :
  let text := ["0"; "1"; "0"; "1"; "1"]%char in
  huffmanDecode example_tree text = Some ["a"; "b"; "c"]%char
  ∧ threadedDecode text example_tree 1 3 = Some ["b"]%char
  ∧ (length ["a"; "b"; "c"]%char ≤ length text)%nat
  ∧ (length ["b"]%char ≤ Z.to_nat (3 - 1))%nat.
Proof.
  intros text.
  assert (H1 : huffmanDecode example_tree text = Some ["a"; "b"; "c"]%char)
    by reflexivity.
  assert (H2 : threadedDecode text example_tree 1 3 = Some ["b"]%char)
    by reflexivity.
  destruct (decoded_output_bounded example_tree text ["a"; "b"; "c"]%char 1 3
              ["b"]%char) as [Ha Hb].
  split; [exact H1|]. split; [exact H2|]. split; [exact (Ha H1)|exact (Hb H2)].
Defined.

(** X16: on a tree whose root has no child (a null tree, or the single leaf of
    a buffer with one distinct byte) the decoder returns the empty string for
    the empty payload and dereferences a null pointer at the first character
    of any other payload. *)
Theorem huffmanDecode_without_children (root : HuffmanNode) (text : list ascii) :
  internal root = false →
  huffmanDecode root text = match text with [] => Some [] | _ :: _ => None end.
Proof.
  intros Hi. destruct text as [|bit text]; [done|].
  unfold huffmanDecode. cbn [decode_loop]. unfold decode_step. cbn [fst snd].
  destruct root as [|c f l r]; [done|].
  apply internal_not_leaf in Hi as [-> ->]. by case_bool_decide.
Qed.

Lemma huffmanDecode_without_children_witness :
  internal (Node "a" 3 Null Null) = false
  ∧ huffmanDecode (Node "a" 3 Null Null) ["0"; "0"; "0"]%char
    = match ["0"; "0"; "0"]%char with [] => Some [] | _ :: _ => None end.
Proof.
  split; [reflexivity|].
  apply huffmanDecode_without_children. reflexivity.
Defined.

Lemma same_tree_strip_eq t t' : same_tree t t' → strip t = strip t'.
Proof.
  revert t'. induction t as [|c f l IHl r IHr]; intros [|c' f' l' r'] H; try done.
  cbn [same_tree] in H. destruct H as (Hc & Hl & Hr).
  apply IHl in Hl as Hl'. apply IHr in Hr as Hr'.
  cbn [strip].
  assert (Hleaf : is_leaf l' r' = is_leaf l r).
  { destruct l, l', r, r'; simpl in *; done. }
  rewrite Hleaf. destruct (is_leaf l r); [by rewrite Hc|by rewrite Hl', Hr'].
Qed.

(** X17: the decoders read only the shape of the tree and the characters at
    its leaves: two trees of the same shape with the same leaf characters,
    whatever their frequency fields and the characters of their inner nodes,
    decode every payload and every range alike. *)
Theorem decoders_read_shape_only (root root' : HuffmanNode) (text : list ascii)
    (begin finish : Z) :
  same_tree root root' →
  huffmanDecode root text = huffmanDecode root' text
  ∧ threadedDecode text root begin finish = threadedDecode text root' begin finish.
Proof.
  intros Heq%same_tree_strip_eq. split.
  - by rewrite <- (huffmanDecode_strip root), <- (huffmanDecode_strip root'), Heq.
  - by rewrite <- (threadedDecode_strip text root),
         <- (threadedDecode_strip text root'), Heq.
Qed.

Lemma decoders_read_shape_only_witness :
  same_tree example_tree (strip example_tree)
  ∧ huffmanDecode example_tree ["0"; "1"; "1"; "1"; "0"]%char
    = huffmanDecode (strip example_tree) ["0"; "1"; "1"; "1"; "0"]%char
  ∧ threadedDecode ["0"; "1"; "1"; "1"; "0"]%char example_tree 1 3
    = threadedDecode ["0"; "1"; "1"; "1"; "0"]%char (strip example_tree) 1 3.
Proof.
  assert (H : same_tree example_tree (strip example_tree)) by (simpl; tauto).
  split; [exact H|].
  apply decoders_read_shape_only. exact H.
Defined.

(** X18: a worker on a range inside the payload returns what the sequential
    decoder returns on the characters of that range alone; on the whole
    payload the two decoders agree. *)
Theorem threadedDecode_is_huffmanDecode_of_range (encoded : list ascii)
    (root : HuffmanNode) (begin finish : Z) :
  0 ≤ begin → begin ≤ finish → finish ≤ Z.of_nat (length encoded) →
  threadedDecode encoded root begin finish
  = huffmanDecode root (segment encoded begin finish)
  ∧ threadedDecode encoded root 0 (Z.of_nat (length encoded))
    = huffmanDecode root encoded.
Proof.
  intros Hb Hbe He. split.
  - by apply threadedDecode_segment.
  - rewrite threadedDecode_segment by lia. by rewrite segment_all.
Qed.

Lemma threadedDecode_is_huffmanDecode_of_range_witness :
  0 ≤ 1 ∧ 1 ≤ 4 ∧ 4 ≤ Z.of_nat (length ["0"; "1"; "0"; "1"; "1"]%char)
  ∧ threadedDecode ["0"; "1"; "0"; "1"; "1"]%char example_tree 1 4
    = huffmanDecode example_tree (segment ["0"; "1"; "0"; "1"; "1"]%char 1 4)
  ∧ threadedDecode ["0"; "1"; "0"; "1"; "1"]%char example_tree 0
      (Z.of_nat (length ["0"; "1"; "0"; "1"; "1"]%char))
    = huffmanDecode example_tree ["0"; "1"; "0"; "1"; "1"]%char.
Proof.
  split; [lia|]. split; [lia|]. split; [simpl; lia|].
  apply threadedDecode_is_huffmanDecode_of_range; [lia|lia|simpl; lia].
Defined.

(** ** Reading a tree *)

Lemma strict_written_nonempty t : strict t = true → writeHuffmanTree t ≠ [].
Proof. destruct t as [|c f l r]; [done|]. simpl. by destruct (is_leaf l r). Qed.

Lemma strict_is_leaf_l l r : strict l = true → is_leaf l r = false.
Proof. by destruct l. Qed.

Lemma readHuffmanTree_fuel_result fuel s t rest :
  readHuffmanTree_fuel fuel s = Some (t, rest) →
  strict t = true ∧ strip t = t
  ∧ ∃ consumed, s = consumed ++ rest
                ∧ length consumed = length (writeHuffmanTree t).
Proof.
  revert s t rest. induction fuel as [|fuel IH]; intros s t rest H; [done|].
  cbn [readHuffmanTree_fuel] in H. destruct s as [|marker s]; [done|].
  case_bool_decide as Hm.
  - destruct s as [|character s]; [done|]. injection H as <- <-.
    split; [done|]. split; [done|]. by exists [marker; character].
  - destruct (readHuffmanTree_fuel fuel s) as [[l s1]|] eqn:Hl; [|done].
    cbn [mbind option_bind fst snd] in H.
    destruct (readHuffmanTree_fuel fuel s1) as [[r s2]|] eqn:Hr; [|done].
    cbn [mbind option_bind fst snd] in H. injection H as <- <-.
    destruct (IH _ _ _ Hl) as (Hsl & Hstl & cl & -> & Hcl).
    destruct (IH _ _ _ Hr) as (Hsr & Hstr & cr & -> & Hcr).
    pose proof (strict_is_leaf_l l r Hsl) as Hleaf.
    split; [by apply strict_node|]. split.
    + cbn [strip]. by rewrite Hleaf, Hstl, Hstr.
    + exists (marker :: cl ++ cr). split; [simpl; by rewrite <- app_assoc|].
      cbn [writeHuffmanTree]. rewrite Hleaf. cbn [app length].
      rewrite !length_app. lia.
Qed.

(** X19: whatever [readHuffmanTree] returns is a strict tree with frequencies
    0, built from a leading part of the stream that is as long as the
    serialisation of the tree; and reading that serialisation gives the same
    tree again.  A marker other than '1' is read as the marker of a node with
    children. *)
Theorem readHuffmanTree_returns_strict_tree (inFile : list ascii)
    (t : HuffmanNode) (rest : list ascii) :
  readHuffmanTree inFile = Some (t, rest) →
  strict t = true
  ∧ strip t = t
  ∧ (∃ consumed, inFile = consumed ++ rest
                 ∧ length consumed = length (writeHuffmanTree t))
  ∧ readHuffmanTree (writeHuffmanTree t ++ rest) = Some (t, rest).
Proof.
  intros H. destruct (readHuffmanTree_fuel_result _ _ _ _ H) as (Hs & Hst & Hc).
  split; [done|]. split; [done|]. split; [done|].
  rewrite readHuffmanTree_write by done. by rewrite Hst.
Qed.

Lemma readHuffmanTree_returns_strict_tree_witness :
  let inFile := ["x"; "1"; "a"; "y"; "1"; "b"; "1"; "c"; "0"; "1"]%char in
  let t := Node nul 0 (Node "a" 0 Null Null)
             (Node nul 0 (Node "b" 0 Null Null) (Node "c" 0 Null Null)) in
  let rest := ["0"; "1"]%char in
  readHuffmanTree inFile = Some (t, rest)
  ∧ strict t = true
  ∧ strip t = t
  ∧ (∃ consumed, inFile = consumed ++ rest
                 ∧ length consumed = length (writeHuffmanTree t))
  ∧ readHuffmanTree (writeHuffmanTree t ++ rest) = Some (t, rest).
Proof.
  intros inFile t rest. split; [reflexivity|].
  apply readHuffmanTree_returns_strict_tree. reflexivity.
Defined.

Lemma readHuffmanTree_fuel_truncated t fuel p :
  strict t = true → (length p < fuel)%nat →
  p `prefix_of` writeHuffmanTree t → p ≠ writeHuffmanTree t →
  readHuffmanTree_fuel fuel p = None.
Proof.
  revert fuel p. induction t as [|c f l IHl r IHr]; intros fuel p Hs Hf Hpre Hne; [done|].
  destruct fuel as [|fuel]; [done|]. cbn [readHuffmanTree_fuel].
  destruct p as [|marker p]; [done|]. cbn [length] in Hf.
  cbn [writeHuffmanTree] in Hpre, Hne. destruct Hpre as [k Hk].
  destruct (is_leaf l r) eqn:Hleaf.
  - apply is_leaf_true in Hleaf as [-> ->]. simpl in Hk, Hne.
    injection Hk as <- Hk. rewrite bool_decide_eq_true_2 by done.
    destruct p as [|character p]; [done|]. injection Hk as <- Hk.
    by destruct p.
  - destruct (strict_children _ _ _ _ Hs Hleaf) as [Hsl Hsr].
    cbn [app] in Hk, Hne. injection Hk as <- Hk.
    rewrite bool_decide_eq_false_2 by discriminate.
    assert (Hcase : (∃ k', p = writeHuffmanTree l ++ k'
                           ∧ k' `prefix_of` writeHuffmanTree r
                           ∧ k' ≠ writeHuffmanTree r)
                    ∨ (p `prefix_of` writeHuffmanTree l ∧ p ≠ writeHuffmanTree l)).
    { apply app_eq_inv in Hk as [(k' & Hl & Hk)|(k' & Hp & Hr)].
      - destruct k' as [|b k'].
        + left. exists []. rewrite app_nil_r in Hl. subst p.
          split; [by rewrite app_nil_r|]. split; [by eexists|].
          intros Heq. by apply (strict_written_nonempty r).
        + right. split; [by exists (b :: k')|].
          intros ->. apply (f_equal length) in Hl. rewrite length_app in Hl.
          simpl in Hl. lia.
      - left. exists k'. split; [done|]. split; [by exists k|].
        intros ->. apply Hne. by rewrite Hp. }
    destruct Hcase as [(k' & -> & Hpre & Hne')|[Hpre Hne']].
    + rewrite length_app in Hf. pose proof (height_le_written l).
      rewrite readHuffmanTree_fuel_write by (done || lia).
      cbn [mbind option_bind fst snd].
      rewrite (IHr fuel k') by (done || lia). done.
    + rewrite (IHl fuel p) by (done || lia). done.
Qed.

(** X20: a stream that ends inside the serialised tree is not read as a tree.
    For a strict tree, [readHuffmanTree] on a proper prefix of what
    [writeHuffmanTree] wrote extracts from the exhausted stream and has no
    result, and so has [decompressDataFile] on such a file for every thread
    count. *)
Theorem truncated_tree_is_not_read (t : HuffmanNode) (p : list ascii)
    (threadCount : Z) :
  strict t = true →
  p `prefix_of` writeHuffmanTree t →
  p ≠ writeHuffmanTree t →
  readHuffmanTree p = None ∧ decompressDataFile p threadCount = None.
Proof.
  intros Hs Hpre Hne.
  assert (H : readHuffmanTree p = None).
  { unfold readHuffmanTree. apply (readHuffmanTree_fuel_truncated t); [done|lia|done|done]. }
  split; [done|]. unfold decompressDataFile. by rewrite H.
Qed.

Lemma truncated_tree_is_not_read_witness :
  let t := Node nul 3 (Node "a" 1 Null Null) (Node "b" 2 Null Null) in
  let p := ["0"; "1"; "a"; "1"]%char in
  strict t = true
  ∧ p `prefix_of` writeHuffmanTree t
  ∧ p ≠ writeHuffmanTree t
  ∧ readHuffmanTree p = None ∧ decompressDataFile p 1 = None.
Proof.
  intros t p.
  assert (H1 : strict t = true) by reflexivity.
  assert (H2 : p `prefix_of` writeHuffmanTree t) by (by exists ["b"%char]).
  assert (H3 : p ≠ writeHuffmanTree t) by discriminate.
  split; [exact H1|]. split; [exact H2|]. split; [exact H3|].
  exact (truncated_tree_is_not_read t p 1 H1 H2 H3).
Defined.

(** ** The two passes, end to end *)

Lemma huffmanEncode_length_ge root data :
  internal root = true → covers (createHuffmanCodes root [] ∅) data →
  (length data ≤ length (huffmanEncode data (createHuffmanCodes root [] ∅)))%nat.
Proof.
  intros Hi. induction data as [|x data IH]; intros Hcov; [simpl; lia|].
  rewrite huffmanEncode_cons, length_app. cbn [length].
  destruct (Hcov x) as [code Hc]; [apply list_elem_of_here|].
  destruct (decode_code root Hi x code [] Hc) as [Hne _].
  unfold code_of. rewrite Hc. cbn [default].
  assert (length data ≤ length (huffmanEncode data (createHuffmanCodes root [] ∅)))%nat.
  { apply IH. intros c Hin. apply Hcov. by apply list_elem_of_further. }
  destruct code; [done|]. simpl. lia.
Qed.

(** X21: what [compressDataFile] writes for a buffer with at least two
    distinct characters (lengths within [int], at least one worker): the
    serialised tree, a newline and the payload.  [readHuffmanTree] on the file
    stops in front of the newline with the shape of the tree; the payload
    holds only '0' and '1', one character for each bit, so it has at least as
    many characters as the buffer has bytes and the file is longer than the
    buffer. *)
Theorem compressDataFile_file_layout `{PQ : PriorityQueue}
    (iterate : nat → gmap ascii Z → list (ascii * Z)) (data : list ascii)
    (W : Z) (sched : list nat) (a b : ascii) :
  visits_entries iterate →
  1 ≤ W ≤ Int.INT_MAX → Z.of_nat (length data) ≤ Int.INT_MAX →
  schedule W sched →
  a ∈ data → b ∈ data → a ≠ b →
  ∃ root payload,
    compressDataFile iterate data W sched
    = Some (writeHuffmanTree root ++ newline :: payload)
    ∧ payload = huffmanEncode data (createHuffmanCodes root [] ∅)
    ∧ readHuffmanTree (writeHuffmanTree root ++ newline :: payload)
      = Some (strip root, newline :: payload)
    ∧ Forall binary payload
    ∧ (length data ≤ length payload)%nat
    ∧ (length data < length (writeHuffmanTree root ++ newline :: payload))%nat.
Proof.
  intros Hperm HW Hlen Hsched Ha Hb Hab.
  destruct (compressDataFile_artifact iterate Hperm data W sched a b)
    as (root & Hc & Hs & Hi & Hd & Hcov); try done.
  exists root, (huffmanEncode data (createHuffmanCodes root [] ∅)).
  pose proof (huffmanEncode_length_ge root data Hi Hcov) as Hge.
  split; [done|]. split; [done|]. split; [by apply readHuffmanTree_write|].
  split.
  { clear. induction data as [|x data IH]; [constructor|].
    rewrite huffmanEncode_cons. apply Forall_app. split; [apply binary_code_of|done]. }
  split; [done|]. rewrite length_app. cbn [length]. lia.
Qed.

Lemma compressDataFile_file_layout_witness :
  let data := String.list_ascii_of_string "abbcccc" in
  visits_entries key_order
  ∧ 1 ≤ 2 ≤ Int.INT_MAX
  ∧ Z.of_nat (length data) ≤ Int.INT_MAX
  ∧ schedule 2 [1; 0]%nat
  ∧ "a"%char ∈ data ∧ "b"%char ∈ data ∧ "a"%char ≠ "b"%char
  ∧ ∃ root payload,
      compressDataFile (PQ := ListQueue) key_order data 2 [1; 0]%nat
      = Some (writeHuffmanTree root ++ newline :: payload)
      ∧ payload = huffmanEncode data (createHuffmanCodes root [] ∅)
      ∧ readHuffmanTree (writeHuffmanTree root ++ newline :: payload)
        = Some (strip root, newline :: payload)
      ∧ Forall binary payload
      ∧ (length data ≤ length payload)%nat
      ∧ (length data < length (writeHuffmanTree root ++ newline :: payload))%nat.
Proof.
  intros data.
  assert (H1 : visits_entries key_order) by exact key_order_visits.
  assert (H2 : 1 ≤ 2 ≤ Int.INT_MAX) by (unfold Int.INT_MAX; lia).
  assert (H3 : Z.of_nat (length data) ≤ Int.INT_MAX) by (vm_compute; discriminate).
  assert (H4 : schedule 2 [1; 0]%nat) by apply perm_swap.
  assert (H5 : "a"%char ∈ data) by (simpl; apply list_elem_of_here).
  assert (H6 : "b"%char ∈ data)
    by (simpl; apply list_elem_of_further, list_elem_of_here).
  assert (H7 : "a"%char ≠ "b"%char) by discriminate.
  split; [exact H1|]. split; [exact H2|]. split; [exact H3|]. split; [exact H4|].
  split; [exact H5|]. split; [exact H6|]. split; [exact H7|].
  exact (compressDataFile_file_layout (PQ := ListQueue) key_order data 2 [1; 0]%nat
           "a"%char "b"%char H1 H2 H3 H4 H5 H6 H7).
Defined.

(** X22: [compressDataFile] does not check its thread count.  With 0 the
    slice length divides by zero; with a negative count no worker is started,
    [freqMapMT] stays empty and [minHeap.top()] is called on the empty queue.
    For every buffer the call has no defined result. *)
Theorem compressDataFile_thread_count_not_positive `{PQ : PriorityQueue}
    (iterate : nat → gmap ascii Z → list (ascii * Z)) (data : list ascii)
    (W : Z) (sched : list nat) :
  visits_entries iterate →
  W ≤ 0 → schedule W sched →
  compressDataFile iterate data W sched = None.
Proof.
  intros Hperm HW Hsched. unfold schedule, worker_ids in Hsched.
  replace (Z.to_nat W) with 0%nat in Hsched by lia. cbn [seq] in Hsched.
  symmetry in Hsched. apply Permutation_nil in Hsched as ->.
  unfold compressDataFile, countFrequencyParallel.
  destruct (Int.size_div (Z.of_nat (length data)) W) as [slice|]; [|done].
  cbn [mbind option_bind run_workers].
  destruct (countFrequencySingle data ∅) as [freqMapST|]; [|done].
  cbn [mbind option_bind]. by rewrite (buildHuffmanTree_empty iterate Hperm).
Qed.

Lemma compressDataFile_thread_count_not_positive_witness :
  visits_entries key_order
  ∧ -3 ≤ 0
  ∧ schedule (-3) []
  ∧ compressDataFile (PQ := ListQueue) key_order
      (String.list_ascii_of_string "abbcccc") (-3) [] = None.
Proof.
  assert (H1 : visits_entries key_order) by exact key_order_visits.
  assert (H2 : -3 ≤ 0) by lia.
  assert (H3 : schedule (-3) []) by (unfold schedule; reflexivity).
  split; [exact H1|]. split; [exact H2|]. split; [exact H3|].
  exact (compressDataFile_thread_count_not_positive (PQ := ListQueue) key_order
           _ (-3) [] H1 H2 H3).
Defined.

(** X23: [decompressDataFile] does not check its thread count either.  With 0
    the slice length divides by zero; with a negative count
    [vector<string> segments(threadCount)] throws.  Whatever the file holds,
    nothing is written. *)
Theorem decompressDataFile_thread_count_not_positive (artifact : list ascii)
    (W : Z) :
  W ≤ 0 → decompressDataFile artifact W = None.
Proof.
  intros HW. unfold decompressDataFile.
  destruct (readHuffmanTree artifact) as [t|]; [|done]. cbn [mbind option_bind].
  destruct (huffmanDecode t.1 (tail t.2)) as [decodedST|]; [|done].
  cbn [mbind option_bind]. destruct (decide (W = 0)) as [->|Hne]; [done|].
  destruct (Int.size_div _ W) as [slice|]; [|done]. cbn [mbind option_bind].
  by rewrite bool_decide_eq_true_2 by lia.
Qed.

Lemma decompressDataFile_thread_count_not_positive_witness :
  0 ≤ 0
  ∧ decompressDataFile
      (String.list_ascii_of_string "01a1b" ++ newline
         :: String.list_ascii_of_string "0110") 0 = None.
Proof.
  assert (H : 0 ≤ 0) by lia.
  split; [exact H|].
  exact (decompressDataFile_thread_count_not_positive _ 0 H).
Defined.

(** X24: [decompressDataFile] on any file from which [readHuffmanTree] gets a
    tree.  The character after the tree is skipped whatever it is, the rest is
    the payload; when the sequential [huffmanDecode] of the payload has a
    result, that result is discarded and the file written is the
    concatenation, in the order of the workers, of what [threadedDecode]
    returns on the ranges [i * (n / W), (i + 1) * (n / W)), the last one
    extended to the end of the payload. *)
Theorem decompressDataFile_of_readable_file (artifact : list ascii)
    (root : HuffmanNode) (rest : list ascii) (W : Z) :
  readHuffmanTree artifact = Some (root, rest) →
  1 ≤ W ≤ Int.INT_MAX →
  Z.of_nat (length (tail rest)) ≤ Int.INT_MAX →
  decompressDataFile artifact W
  = (huffmanDecode root (tail rest)
     ≫= λ _, decode_ranges (tail rest) root
               (worker_ranges (Z.of_nat (length (tail rest))) W)).
Proof.
  intros Hread HW Hn. unfold decompressDataFile. rewrite Hread.
  cbn [mbind option_bind fst snd]. set (payload := tail rest) in *.
  destruct (huffmanDecode root payload) as [decodedST|]; [|done].
  cbn [mbind option_bind]. rewrite int_size_div_pos by done.
  cbn [mbind option_bind]. rewrite bool_decide_eq_false_2 by lia.
  rewrite int_of_size_id.
  2:{ assert (0 ≤ Z.of_nat (length payload) `div` W) by (apply Z.div_pos; lia).
      assert (W * (Z.of_nat (length payload) `div` W) ≤ Z.of_nat (length payload))
        by (apply Z.mul_div_le; lia).
      unfold Int.INT_MIN, Int.INT_MAX in *. nia. }
  unfold decode_ranges, worker_ranges. rewrite mapM_fmap_list.
  rewrite (mapM_ext_in (decode_worker payload root W
                          (Z.of_nat (length payload) `div` W))
             ((λ r : Z * Z, threadedDecode payload root r.1 r.2)
              ∘ (λ i : nat,
                   (Z.of_nat i * (Z.of_nat (length payload) `div` W),
                    if bool_decide (Z.of_nat i = W - 1) then Z.of_nat (length payload)
                    else Z.of_nat i * (Z.of_nat (length payload) `div` W)
                         + Z.of_nat (length payload) `div` W)))); [done|].
  intros i Hi. unfold worker_ids in Hi. apply elem_of_seq in Hi.
  by rewrite decode_worker_range by lia.
Qed.

Lemma decompressDataFile_of_readable_file_witness :
  let artifact := String.list_ascii_of_string "x1a1b;0110" in
  let root := Node nul 0 (Node "a" 0 Null Null) (Node "b" 0 Null Null) in
  let rest := String.list_ascii_of_string ";0110" in
  readHuffmanTree artifact = Some (root, rest)
  ∧ 1 ≤ 2 ≤ Int.INT_MAX
  ∧ Z.of_nat (length (tail rest)) ≤ Int.INT_MAX
  ∧ decompressDataFile artifact 2
    = (huffmanDecode root (tail rest)
       ≫= λ _, decode_ranges (tail rest) root
                 (worker_ranges (Z.of_nat (length (tail rest))) 2)).
Proof.
  intros artifact root rest.
  assert (H1 : readHuffmanTree artifact = Some (root, rest)) by reflexivity.
  assert (H2 : 1 ≤ 2 ≤ Int.INT_MAX) by (unfold Int.INT_MAX; lia).
  assert (H3 : Z.of_nat (length (tail rest)) ≤ Int.INT_MAX)
    by (vm_compute; discriminate).
  split; [exact H1|]. split; [exact H2|]. split; [exact H3|].
  exact (decompressDataFile_of_readable_file artifact root rest 2 H1 H2 H3).
Defined.

(** ** Files and the command line *)

(** X27: the guard on the input file comes first.  When the input file cannot
    be opened, [main] reports it (or the invalid choice) and returns with
    every file as it was, whatever the choice, the output name, the thread
    count (0 and negative counts included) and the schedule. *)
Theorem main_unreadable_input `{PQ : PriorityQueue}
    (iterate : nat → gmap ascii Z → list (ascii * Z)) (writable : string → bool)
    (userChoice : Z) (inputFileName outputFileName : string) (threadNum : Z)
    (sched : list nat) (fs : file_system) :
  fs !! inputFileName = None →
  main iterate writable userChoice inputFileName outputFileName threadNum sched fs
  = Some (fs, if bool_decide (userChoice = 1) then CannotOpenInput
              else if bool_decide (userChoice = 2) then CannotOpenCompressed
              else InvalidChoice).
Proof.
  intros Hin. unfold main, compressDataFile_run, decompressDataFile_run.
  rewrite Hin. by repeat case_bool_decide.
Qed.

Lemma main_unreadable_input_witness :
  (∅ : file_system) !! "in.txt"%string = None
  ∧ main (PQ := ListQueue) key_order (λ _, true) 1 "in.txt" "out.huf" 0 [] ∅
    = Some (∅, CannotOpenInput).
Proof.
  assert (H : (∅ : file_system) !! "in.txt"%string = None) by reflexivity.
  split; [exact H|].
  exact (main_unreadable_input (PQ := ListQueue) key_order (λ _, true) 1
           "in.txt" "out.huf" 0 [] ∅ H).
Defined.

Lemma write_file_other writable targetFile contents (fs : file_system) name :
  name ≠ targetFile → write_file writable targetFile contents fs !! name = fs !! name.
Proof.
  intros Hne. unfold write_file. destruct (writable targetFile); [|done].
  by apply lookup_insert_ne.
Qed.

Lemma write_file_unwritable writable targetFile contents (fs : file_system) :
  writable targetFile = false → write_file writable targetFile contents fs = fs.
Proof. intros H. unfold write_file. by rewrite H. Qed.

(** X28: a run that returns has changed no file but the output file, and not
    even that one when it could not be opened for writing; a run with a choice
    other than 1 and 2 changes nothing. *)
Theorem main_writes_output_file_only `{PQ : PriorityQueue}
    (iterate : nat → gmap ascii Z → list (ascii * Z)) (writable : string → bool)
    (userChoice : Z) (inputFileName outputFileName : string) (threadNum : Z)
    (sched : list nat) (fs fs' : file_system) (r : report) :
  main iterate writable userChoice inputFileName outputFileName threadNum sched fs
  = Some (fs', r) →
  (∀ name, name ≠ outputFileName → fs' !! name = fs !! name)
  ∧ (writable outputFileName = false → fs' = fs)
  ∧ (userChoice ≠ 1 → userChoice ≠ 2 → fs' = fs ∧ r = InvalidChoice).
Proof.
  unfold main, compressDataFile_run, decompressDataFile_run. intros H.
  assert (Hcases : fs' = fs
                   ∨ ∃ contents, fs' = write_file writable outputFileName contents fs).
  { repeat case_bool_decide.
    - destruct (fs !! inputFileName) as [fileData|]; [|left; congruence].
      destruct (compressDataFile iterate fileData threadNum sched) as [artifact|];
        [|done].
      right. exists artifact. cbn [mbind option_bind] in H. congruence.
    - destruct (fs !! inputFileName) as [artifact|]; [|left; congruence].
      destruct (decompressDataFile artifact threadNum) as [finalResult|]; [|done].
      right. exists finalResult. cbn [mbind option_bind] in H. congruence.
    - left. congruence. }
  split; [|split].
  - intros name Hne. destruct Hcases as [->|[contents ->]]; [done|].
    by apply write_file_other.
  - intros Hw. destruct Hcases as [->|[contents ->]]; [done|].
    by apply write_file_unwritable.
  - intros H1 H2. rewrite !bool_decide_eq_false_2 in H by done.
    by injection H as <- <-.
Qed.

Lemma main_writes_output_file_only_witness :
  let fs : file_system := {[ "in.txt"%string := String.list_ascii_of_string "abbcccc" ]} in
  let fs' : file_system :=
    <[ "out.huf"%string := String.list_ascii_of_string "001a1b1c" ++ newline
                             :: String.list_ascii_of_string "0001011111" ]> fs in
  main (PQ := ListQueue) key_order (λ _, true) 1 "in.txt" "out.huf" 2 [1; 0]%nat fs
  = Some (fs', CompressionCompleted "out.huf")
  ∧ (∀ name, name ≠ "out.huf"%string → fs' !! name = fs !! name)
  ∧ ((λ _ : string, true) "out.huf"%string = false → fs' = fs)
  ∧ (1 ≠ 1 → 1 ≠ 2 → fs' = fs ∧ CompressionCompleted "out.huf" = InvalidChoice).
Proof.
  intros fs fs'.
  assert (H : main (PQ := ListQueue) key_order (λ _, true) 1 "in.txt" "out.huf" 2
                [1; 0]%nat fs
              = Some (fs', CompressionCompleted "out.huf")) by (by vm_compute).
  split; [exact H|].
  exact (main_writes_output_file_only (PQ := ListQueue) key_order (λ _, true) 1
           "in.txt" "out.huf" 2 [1; 0]%nat fs fs' _ H).
Defined.

(** X29: the output stream is never tested.  When the target file cannot be
    opened for writing, [compressDataFile] does all the work on a readable
    source (here one with two distinct characters, lengths within [int], at
    least one worker), writes nothing and reports that compression
    completed. *)
Theorem completion_reported_without_output `{PQ : PriorityQueue}
    (iterate : nat → gmap ascii Z → list (ascii * Z)) (writable : string → bool)
    (sourceFile targetFile : string) (W : Z) (sched : list nat)
    (fs : file_system) (data : list ascii) (a b : ascii) :
  visits_entries iterate →
  fs !! sourceFile = Some data →
  1 ≤ W ≤ Int.INT_MAX → Z.of_nat (length data) ≤ Int.INT_MAX →
  schedule W sched →
  a ∈ data → b ∈ data → a ≠ b →
  writable targetFile = false →
  compressDataFile_run iterate writable sourceFile targetFile W sched fs
  = Some (fs, CompressionCompleted targetFile).
Proof.
  intros Hperm Hsrc HW Hlen Hsched Ha Hb Hab Hw.
  destruct (compressDataFile_artifact iterate Hperm data W sched a b)
    as (root & Hc & _); try done.
  unfold compressDataFile_run. rewrite Hsrc, Hc. cbn [mbind option_bind].
  by rewrite write_file_unwritable.
Qed.

Lemma completion_reported_without_output_witness :
  let data := String.list_ascii_of_string "abbcccc" in
  let fs : file_system := {[ "in.txt"%string := data ]} in
  visits_entries key_order
  ∧ fs !! "in.txt"%string = Some data
  ∧ 1 ≤ 2 ≤ Int.INT_MAX
  ∧ Z.of_nat (length data) ≤ Int.INT_MAX
  ∧ schedule 2 [1; 0]%nat
  ∧ "a"%char ∈ data ∧ "b"%char ∈ data ∧ "a"%char ≠ "b"%char
  ∧ (λ _ : string, false) "out.huf"%string = false
  ∧ compressDataFile_run (PQ := ListQueue) key_order (λ _, false)
      "in.txt" "out.huf" 2 [1; 0]%nat fs
    = Some (fs, CompressionCompleted "out.huf").
Proof.
  intros data fs.
  assert (H1 : visits_entries key_order) by exact key_order_visits.
  assert (H0 : fs !! "in.txt"%string = Some data) by reflexivity.
  assert (H2 : 1 ≤ 2 ≤ Int.INT_MAX) by (unfold Int.INT_MAX; lia).
  assert (H3 : Z.of_nat (length data) ≤ Int.INT_MAX) by (vm_compute; discriminate).
  assert (H4 : schedule 2 [1; 0]%nat) by apply perm_swap.
  assert (H5 : "a"%char ∈ data) by (simpl; apply list_elem_of_here).
  assert (H6 : "b"%char ∈ data)
    by (simpl; apply list_elem_of_further, list_elem_of_here).
  assert (H7 : "a"%char ≠ "b"%char) by discriminate.
  assert (H8 : (λ _ : string, false) "out.huf"%string = false) by reflexivity.
  split; [exact H1|]. split; [exact H0|]. split; [exact H2|]. split; [exact H3|].
  split; [exact H4|]. split; [exact H5|]. split; [exact H6|]. split; [exact H7|].
  split; [exact H8|].
  exact (completion_reported_without_output (PQ := ListQueue) key_order (λ _, false)
           "in.txt" "out.huf" 2 [1; 0]%nat fs data "a"%char "b"%char
           H1 H0 H2 H3 H4 H5 H6 H7 H8).
Defined.

(** X30: the round trip through files.  Compressing a readable source with
    two distinct characters (choice 1, any positive thread count) into a
    writable file, then decompressing that file (choice 2, one thread) into a
    writable file, leaves the contents of the source in the last file; the
    three names may coincide. *)
Theorem main_roundtrip_through_files `{PQ : PriorityQueue}
    (iterate : nat → gmap ascii Z → list (ascii * Z)) (writable : string → bool)
    (source compressed restored : string) (W : Z) (sched sched' : list nat)
    (fs : file_system) (data : list ascii) (a b : ascii) :
  visits_entries iterate →
  fs !! source = Some data →
  1 ≤ W ≤ Int.INT_MAX → Z.of_nat (length data) ≤ Int.INT_MAX →
  schedule W sched →
  a ∈ data → b ∈ data → a ≠ b →
  writable compressed = true → writable restored = true →
  ∃ artifact,
    main iterate writable 1 source compressed W sched fs
    = Some (<[compressed := artifact]> fs, CompressionCompleted compressed)
    ∧ (Z.of_nat (length artifact) ≤ Int.INT_MAX →
       main iterate writable 2 compressed restored 1 sched'
         (<[compressed := artifact]> fs)
       = Some (<[restored := data]> (<[compressed := artifact]> fs),
               DecompressionCompleted restored)).
Proof.
  intros Hperm Hsrc HW Hlen Hsched Ha Hb Hab Hwc Hwr.
  destruct (compressDataFile_artifact iterate Hperm data W sched a b)
    as (root & Hc & Hs & Hi & Hd & Hcov); try done.
  eexists. split.
  - unfold main, compressDataFile_run. rewrite bool_decide_eq_true_2 by done.
    rewrite Hsrc, Hc. cbn [mbind option_bind]. unfold write_file. by rewrite Hwc.
  - intros Hart. rewrite length_app in Hart. cbn [length] in Hart.
    unfold main, decompressDataFile_run.
    rewrite bool_decide_eq_false_2 by done. rewrite bool_decide_eq_true_2 by done.
    rewrite lookup_insert_eq.
    rewrite decompressDataFile_single_thread by (done || lia).
    rewrite (huffmanDecode_encode root Hi data Hcov). cbn [mbind option_bind].
    unfold write_file. by rewrite Hwr.
Qed.

Lemma main_roundtrip_through_files_witness :
  let data := String.list_ascii_of_string "abbcccc" in
  let fs : file_system := {[ "in.txt"%string := data ]} in
  visits_entries key_order
  ∧ fs !! "in.txt"%string = Some data
  ∧ 1 ≤ 2 ≤ Int.INT_MAX
  ∧ Z.of_nat (length data) ≤ Int.INT_MAX
  ∧ schedule 2 [1; 0]%nat
  ∧ "a"%char ∈ data ∧ "b"%char ∈ data ∧ "a"%char ≠ "b"%char
  ∧ (λ _ : string, true) "out.huf"%string = true
  ∧ (λ _ : string, true) "in.txt"%string = true
  ∧ ∃ artifact,
      main (PQ := ListQueue) key_order (λ _, true) 1 "in.txt" "out.huf" 2
        [1; 0]%nat fs
      = Some (<["out.huf"%string := artifact]> fs, CompressionCompleted "out.huf")
      ∧ (Z.of_nat (length artifact) ≤ Int.INT_MAX →
         main (PQ := ListQueue) key_order (λ _, true) 2 "out.huf" "in.txt" 1 []
           (<["out.huf"%string := artifact]> fs)
         = Some (<["in.txt"%string := data]> (<["out.huf"%string := artifact]> fs),
                 DecompressionCompleted "in.txt")).
Proof.
  intros data fs.
  assert (H1 : visits_entries key_order) by exact key_order_visits.
  assert (H0 : fs !! "in.txt"%string = Some data) by reflexivity.
  assert (H2 : 1 ≤ 2 ≤ Int.INT_MAX) by (unfold Int.INT_MAX; lia).
  assert (H3 : Z.of_nat (length data) ≤ Int.INT_MAX) by (vm_compute; discriminate).
  assert (H4 : schedule 2 [1; 0]%nat) by apply perm_swap.
  assert (H5 : "a"%char ∈ data) by (simpl; apply list_elem_of_here).
  assert (H6 : "b"%char ∈ data)
    by (simpl; apply list_elem_of_further, list_elem_of_here).
  assert (H7 : "a"%char ≠ "b"%char) by discriminate.
  assert (H8 : (λ _ : string, true) "out.huf"%string = true) by reflexivity.
  assert (H9 : (λ _ : string, true) "in.txt"%string = true) by reflexivity.
  split; [exact H1|]. split; [exact H0|]. split; [exact H2|]. split; [exact H3|].
  split; [exact H4|]. split; [exact H5|]. split; [exact H6|]. split; [exact H7|].
  split; [exact H8|]. split; [exact H9|].
  exact (main_roundtrip_through_files (PQ := ListQueue) key_order (λ _, true)
           "in.txt" "out.huf" "in.txt" 2 [1; 0]%nat [] fs data "a"%char "b"%char
           H1 H0 H2 H3 H4 H5 H6 H7 H8 H9).
Defined.
